(** * LogSentinel Next.js SDK: the telemetry pipeline

    A shallow embedding of [src/utils.ts] (the sanitizer), [src/queue.ts]
    (the bounded event queue), [src/client.ts] (the batch dispatcher and
    the process-wide client) and [src/config.ts] (the configuration read
    from the environment), with the properties of the pipeline stated and
    proved over it.

    Conventions of the embedding.
    - A JavaScript string is a [string]: a sequence of code units, here
      restricted to the range 0..255 (ASCII and Latin-1).  [String.length]
      is the [.length] of the source.
    - A JavaScript number is a [Z]: the integer-valued numbers.  Fractions,
      NaN and the infinities are outside the model; the only number that
      is falsy in the model is [0].
    - A JavaScript array is a [list]; a plain object is the list of its
      own enumerable properties in [Object.entries] order.  An object is
      [well_formed] when no key occurs twice at any level.  The key
      [__proto__], whose assignment sets the prototype instead of a
      property, is outside the model.
    - [JSON.stringify] and [JSON.parse] belong to the platform, not to the
      repository: the sanitizer takes them as parameters (record [JSON]),
      and [RefJSON] gives one implementation to run the code on.  Likewise
      [parseInt] and [parseFloat] (record [Numbers], with [RefNumbers]);
      a fraction read by [parseFloat] is a rational.
    - What the pipeline does to the outside (console, [fetch], timers) is
      recorded in the [trace] of a [World]; what the outside answers
      ([fetch] outcomes, [Math.random()], batch identifiers, the clock)
      comes from an [Env].
    - An [async] method is run to its end at the point of its call.  All
      that [flush] does to the queue happens before its first [await], so
      the queue states and the batches are those of every interleaving;
      only the order in which overlapping calls reach the console and the
      network is that of the sequential run. *)

From Stdlib Require Import ZArith List String Ascii Bool Lia Arith.
From Stdlib Require Import DecimalString.
From Stdlib Require QArith.
From Equations Require Import Equations.
Import ListNotations.

Local Open Scope string_scope.
Local Open Scope Z_scope.


(** ** JavaScript values *)

#[local] Unset Elimination Schemes.

Inductive JsValue : Type :=
| JUndefined
| JNull
| JBool (b : bool)
| JNumber (n : Z)
| JString (s : string)
| JArray (items : list JsValue)
| JObject (entries : list (string * JsValue)).

#[local] Set Elimination Schemes.

(** Induction over a value, with the hypothesis available for every item of
    an array and every property value of an object. *)
Section JsValue_induction.
Variable P : JsValue -> Prop.
Hypothesis P_undefined : P JUndefined.
Hypothesis P_null : P JNull.
Hypothesis P_bool : forall b, P (JBool b).
Hypothesis P_number : forall n, P (JNumber n).
Hypothesis P_string : forall s, P (JString s).
Hypothesis P_array : forall items, Forall P items -> P (JArray items).
Hypothesis P_object :
  forall entries, Forall (fun kv => P (snd kv)) entries -> P (JObject entries).

Fixpoint JsValue_ind (v : JsValue) : P v :=
  match v with
  | JUndefined => P_undefined
  | JNull => P_null
  | JBool b => P_bool b
  | JNumber n => P_number n
  | JString s => P_string s
  | JArray items =>
      P_array items
        ((fix all (l : list JsValue) : Forall P l :=
            match l with
            | [] => Forall_nil P
            | x :: r => Forall_cons x (JsValue_ind x) (all r)
            end) items)
  | JObject entries =>
      P_object entries
        ((fix all (l : list (string * JsValue))
            : Forall (fun kv => P (snd kv)) l :=
            match l with
            | [] => Forall_nil _
            | kv :: r =>
                Forall_cons (P := fun kv => P (snd kv)) kv
                  (JsValue_ind (snd kv)) (all r)
            end) entries)
  end.
End JsValue_induction.

(** What is thrown and caught: an [Error] with its [name] and [message]. *)
Record JsError : Type := mkError { errName : string; errMessage : string }.

(** The completion of a call that may throw. *)
Inductive Completion (A : Type) : Type :=
| Returns (a : A)
| Throws (e : JsError).
Arguments Returns {A} a.
Arguments Throws {A} e.

(** [!v] is [true] exactly on the falsy values. *)
Definition falsy (v : JsValue) : bool :=
  match v with
  | JUndefined | JNull => true
  | JBool b => negb b
  | JNumber n => n =? 0
  | JString s => match s with EmptyString => true | _ => false end
  | JArray _ | JObject _ => false
  end.

(** [typeof v === 'object' && v !== null] *)
Definition is_object (v : JsValue) : bool :=
  match v with
  | JArray _ | JObject _ => true
  | _ => false
  end.

(** ** Strings *)

Module Str.

(** [c.toLowerCase()] on one code unit below 256: A-Z, and the Latin-1
    capitals 0xC0..0xDE except the multiplication sign 0xD7. *)
Definition lower_unit (c : ascii) : ascii :=
  let n := nat_of_ascii c in
  if ((65 <=? n) && (n <=? 90))%nat then ascii_of_nat (n + 32)
  else if ((192 <=? n) && (n <=? 222) && negb (n =? 215))%nat
       then ascii_of_nat (n + 32)
       else c.

Fixpoint toLowerCase (s : string) : string :=
  match s with
  | EmptyString => EmptyString
  | String c r => String (lower_unit c) (toLowerCase r)
  end.

(** [s.includes(t)] *)
Fixpoint includes (s t : string) : bool :=
  if prefix t s then true
  else match s with
       | EmptyString => false
       | String _ r => includes r t
       end.

Definition len (s : string) : Z := Z.of_nat (String.length s).

(** [Array.prototype.join] on strings. *)
Fixpoint join (sep : string) (l : list string) : string :=
  match l with
  | [] => ""
  | [x] => x
  | x :: r => x ++ sep ++ join sep r
  end.

Definition of_Z (n : Z) : string := NilZero.string_of_int (Z.to_int n).

End Str.

(** ** [src/utils.ts] *)

Definition REDACTED : JsValue := JString "[REDACTED]".

Definition sensitiveFields : list string :=
  [ "password"; "token"; "apiKey"; "api_key"; "secret"; "auth";
    "authorization"; "creditCard"; "credit_card"; "ssn"; "privateKey";
    "private_key" ].

(** [sensitiveFields.some(field => lowerKey.includes(field))] with
    [lowerKey = key.toLowerCase()]. *)
Definition is_sensitive (key : string) : bool :=
  let lowerKey := Str.toLowerCase key in
  existsb (fun field => Str.includes lowerKey field) sensitiveFields.

(** [obj[key] = v] on the property list: an existing property keeps its
    place, a new one goes last. *)
Fixpoint set_prop (obj : list (string * JsValue)) (key : string) (v : JsValue)
  : list (string * JsValue) :=
  match obj with
  | [] => [(key, v)]
  | (k, w) :: r =>
      if String.eqb k key then (k, v) :: r else (k, w) :: set_prop r key v
  end.

(** [obj[key]]: the property's value, [None] when it is absent. *)
Fixpoint get_prop (obj : list (string * JsValue)) (key : string) : option JsValue :=
  match obj with
  | [] => None
  | (k, w) :: r => if String.eqb k key then Some w else get_prop r key
  end.

Fixpoint redactSensitiveFields (obj : JsValue) : JsValue :=
  match obj with
  | JArray items => JArray (map redactSensitiveFields items)
  | JObject entries =>
      JObject
        (fold_left
           (fun sanitized kv =>
              let key := fst kv in
              let value := snd kv in
              if is_sensitive key then set_prop sanitized key REDACTED
              else if is_object value
                   then set_prop sanitized key (redactSensitiveFields value)
                   else set_prop sanitized key value)
           entries [])
  | _ => obj
  end.

(** The truncation marker [{_truncated, _originalSize, _preview}]. *)
Definition truncation_marker (jsonString : string) : JsValue :=
  JObject
    [ ("_truncated", JBool true);
      ("_originalSize", JNumber (Str.len jsonString));
      ("_preview", JString (substring 0 500 jsonString ++ "...")) ].

(** [String(v)] *)
Fixpoint ToString (v : JsValue) : string :=
  match v with
  | JUndefined => "undefined"
  | JNull => "null"
  | JBool true => "true"
  | JBool false => "false"
  | JNumber n => Str.of_Z n
  | JString s => s
  | JArray items =>
      Str.join ","
        (map (fun x => match x with
                       | JUndefined | JNull => ""
                       | _ => ToString x
                       end) items)
  | JObject _ => "[object Object]"
  end.

(** The platform's [JSON] object.  [stringify] answers [Returns None] where
    [JSON.stringify] returns [undefined]. *)
Record JSON : Type := mkJSON {
  stringify : JsValue -> Completion (option string);
  parse : string -> Completion JsValue
}.

Definition bind {A B} (c : Completion A) (k : A -> Completion B) : Completion B :=
  match c with
  | Returns a => k a
  | Throws e => Throws e
  end.

Notation "'let*' x ':=' c 'in' k" := (bind c (fun x => k))
  (at level 10, x name, c at level 100, k at level 200).

Definition TypeError (msg : string) : JsError := mkError "TypeError" msg.

Section Sanitizer.
Variable J : JSON.

(** The [try] block of [sanitizeBody]. *)
Definition sanitizeBody_try (body : JsValue) : Completion JsValue :=
  let* jsonString :=
    (match body with
     | JString s => Returns s
     | _ =>
         let* r := stringify J body in
         match r with
         | Some s => Returns s
         | None =>
             Throws (TypeError "Cannot read properties of undefined (reading 'length')")
         end
     end) in
  if Str.len jsonString >? 10000 then Returns (truncation_marker jsonString)
  else
    let* parsed :=
      (match body with
       | JString _ => parse J jsonString
       | _ => Returns body
       end) in
    if is_object parsed then Returns (redactSensitiveFields parsed)
    else Returns parsed.

Definition sanitizeBody (body : JsValue) : JsValue :=
  if falsy body then JUndefined
  else
    match sanitizeBody_try body with
    | Returns v => v
    | Throws _ =>
        let str := ToString body in
        if Str.len str >? 500 then JString (substring 0 500 str ++ "...")
        else JString str
    end.
End Sanitizer.

(** ** Well-formed values and paths *)

Fixpoint distinct (keys : list string) : bool :=
  match keys with
  | [] => true
  | k :: r => negb (existsb (String.eqb k) r) && distinct r
  end.

(** No object of the value, at any depth, has a key twice. *)
Fixpoint well_formed (v : JsValue) : bool :=
  match v with
  | JArray items => forallb well_formed items
  | JObject entries =>
      distinct (map fst entries)
      && forallb (fun kv => well_formed (snd kv)) entries
  | _ => true
  end.

(** One step into a value: a property of an object or an index of an array. *)
Inductive Step : Type :=
| Key (k : string)
| Index (i : nat).

(** The value a path leads to, [None] when the path leaves the value. *)
Fixpoint lookup (v : JsValue) (p : list Step) : option JsValue :=
  match p with
  | [] => Some v
  | Key k :: r =>
      match v with
      | JObject entries =>
          match get_prop entries k with
          | Some w => lookup w r
          | None => None
          end
      | _ => None
      end
  | Index i :: r =>
      match v with
      | JArray items =>
          match nth_error items i with
          | Some w => lookup w r
          | None => None
          end
      | _ => None
      end
  end.

(** No key on the path is a sensitive one. *)
Definition clear_path (p : list Step) : bool :=
  forallb (fun st => match st with
                     | Key k => negb (is_sensitive k)
                     | Index _ => true
                     end) p.

(** The spec's words for a sensitive key: its lowercase form contains an
    element of the sensitive-field list as a substring. *)
Definition Substring (t s : string) : Prop :=
  exists pre post, s = pre ++ t ++ post.

Definition SensitiveKey (key : string) : Prop :=
  exists field, In field sensitiveFields /\ Substring field (Str.toLowerCase key).

(** The elements of the sensitive-field list that are their own lowercase
    form: all but [apiKey], [creditCard] and [privateKey]. *)
Definition lowercaseFields : list string :=
  filter (fun field => String.eqb (Str.toLowerCase field) field) sensitiveFields.

(** ** [src/types.ts] *)

(** A property marked [?] in the source is an [option]; [None] is the
    absent property, read as [undefined]. *)
Record LogSentinelConfig : Type := mkConfig {
  apiKey : string;
  baseUrl : string;
  enabled : option bool;
  sampleRate : option QArith_base.Q;
  batchSize : option Z;
  batchInterval : option Z;
  maxQueueSize : option Z;
  timeout : option Z;
  debug : option bool
}.

Record ErrorInfo : Type := mkErrorInfo {
  message : string;
  stack : option string
}.

Record LogPayload : Type := mkPayload {
  traceId : string;
  timestamp : string;
  method : string;
  path : string;
  statusCode : Z;
  duration : Z;
  requestHeaders : option (list (string * string));
  responseHeaders : option (list (string * string));
  requestBody : JsValue;
  responseBody : JsValue;
  error : option ErrorInfo;
  metadata : option (list (string * JsValue))
}.

Record LogBatch : Type := mkBatch {
  logs : list LogPayload;
  batchId : string;
  sentAt : string
}.

(** ** What the pipeline does to the outside *)

(** The observable actions, in the order they happen.  Debug notices carry
    their label only. *)
Inductive Event : Type :=
| ConsoleWarn (text : string)
| ConsoleLog (label : string)
| ConsoleError (label : string)
| Fetch (url : string) (bearer : string) (body : LogBatch)
| Delay (ms : Z)
| SetInterval (id : nat) (ms : option Z)
| ClearInterval (id : nat).

(** ** [src/queue.ts] *)

Record LogQueue : Type := mkQueue {
  queue : list LogPayload;
  maxSize : Z
}.

Module Queue.

(** The default of the constructor's parameter: [maxSize: number = 1000]. *)
Definition maxSize_or_default (maxSize : option Z) : Z :=
  match maxSize with Some m => m | None => 1000 end.

(** [new LogQueue(maxSize)] *)
Definition new (maxSize : option Z) : LogQueue :=
  mkQueue [] (maxSize_or_default maxSize).

Definition size (q : LogQueue) : Z := Z.of_nat (List.length (queue q)).

Definition isEmpty (q : LogQueue) : bool := size q =? 0.

(** [enqueue(log)]: the queue afterwards and what was written to the
    console.  [shift] on an empty array removes nothing. *)
Definition enqueue (log : LogPayload) (q : LogQueue) : LogQueue * list Event :=
  if size q >=? maxSize q
  then (mkQueue (tl (queue q) ++ [log])%list (maxSize q),
        [ConsoleWarn "[LogSentinel] Queue full. Dropping oldest log."])
  else (mkQueue (queue q ++ [log])%list (maxSize q), []).

(** [dequeue(batchSize)] is [splice(0, batchSize)]: the delete count is
    clamped to [0 .. length], so [Z.to_nat] stands for the lower clamp
    and [firstn]/[skipn] for the upper one. *)
Definition dequeue (batchSize : Z) (q : LogQueue) : list LogPayload * LogQueue :=
  let n := Z.to_nat batchSize in
  (firstn n (queue q), mkQueue (skipn n (queue q)) (maxSize q)).

Definition clear (q : LogQueue) : LogQueue := mkQueue [] (maxSize q).

(** The queue after a sequence of [enqueue] calls. *)
Definition enqueue_all (logs : list LogPayload) (q : LogQueue) : LogQueue :=
  fold_left (fun acc log => fst (enqueue log acc)) logs q.

End Queue.

(** ** [src/client.ts] *)

(** How one [fetch] call ends: a response, or a rejection (a transport
    error, or the abort that the timeout of [config.timeout] triggers). *)
Inductive FetchOutcome : Type :=
| Responds (status : Z) (statusText : string)
| Rejects (e : JsError).

(** [response.ok] *)
Definition ok (status : Z) : bool := (200 <=? status) && (status <=? 299).

(** The surroundings of the process: what the k-th [fetch] call meets, what
    [Math.random()] gives the k-th sampling test of [log], the identifier
    and timestamp given to the k-th batch, and whether the environment asks
    for verbose debug output ([LOGSENTINEL_DEBUG_VERBOSE]).  The platform's
    one sequence of random numbers is read off by call site:
    [generateBatchId] makes an identifier from the clock and a
    [Math.random()] call of its own, which is within [generateBatchId]
    here and is not among the draws that [draws] counts. *)
Record Env : Type := mkEnv {
  transport : nat -> FetchOutcome;
  random : nat -> QArith_base.Q;
  generateBatchId : nat -> string;
  toISOString : nat -> string;
  verboseDebug : bool
}.

Record World : Type := mkWorld {
  fetches : nat;
  draws : nat;
  batches : nat;
  timers : nat;
  intervals : list nat;
  trace : list Event
}.

Definition emit (ev : Event) (w : World) : World :=
  mkWorld (fetches w) (draws w) (batches w) (timers w) (intervals w)
          (trace w ++ [ev])%list.

Definition emit_all (evs : list Event) (w : World) : World :=
  fold_left (fun acc ev => emit ev acc) evs w.

(** [if (this.config.debug) console.log(...)] *)
Definition debug_log (cfg : LogSentinelConfig) (label : string) (w : World) : World :=
  match debug cfg with
  | Some true => emit (ConsoleLog label) w
  | _ => w
  end.

Definition debug_error (cfg : LogSentinelConfig) (label : string) (w : World) : World :=
  match debug cfg with
  | Some true => emit (ConsoleError label) w
  | _ => w
  end.

Definition NetworkError (msg : string) : JsError := mkError "LogSentinelError" msg.

Definition maxAttempts : Z := 3.

(** The debug notices ahead of the [try] of [sendBatch]: [batch.logs[0]] of
    an empty batch is [undefined], and reading its [traceId] throws.  The
    sizes the notices print are those of [JSON.stringify], which returns on
    the values of the model. *)
Definition sendBatch_notices (E : Env) (cfg : LogSentinelConfig) (batch : LogBatch)
  (w : World) : Completion unit * World :=
  match debug cfg with
  | Some true =>
      let w1 := emit (ConsoleLog "Sending batch") w in
      match logs batch with
      | [] =>
          (Throws (TypeError "Cannot read properties of undefined (reading 'traceId')"), w1)
      | sampleLog :: _ =>
          let w2 := emit (ConsoleLog "Sample log entry") w1 in
          let w3 := if falsy (requestBody sampleLog) then w2
                    else emit (ConsoleLog "Request body") w2 in
          let w4 := if verboseDebug E
                    then emit (ConsoleLog "Full batch contents") w3
                    else w3 in
          (Returns tt, w4)
      end
  | _ => (Returns tt, w)
  end.

(** The [try] block of [sendBatch]: the [fetch] call and the test of
    [response.ok]. *)
Definition sendBatch_try (E : Env) (cfg : LogSentinelConfig) (batch : LogBatch) (w : World)
  : Completion unit * World :=
  let w1 := mkWorld (S (fetches w)) (draws w) (batches w) (timers w) (intervals w)
                    (trace w ++ [Fetch (baseUrl cfg) ("Bearer " ++ apiKey cfg) batch])%list in
  match transport E (fetches w) with
  | Rejects e => (Throws e, w1)
  | Responds status statusText =>
      if ok status
      then (Returns tt, debug_log cfg "Batch sent successfully" w1)
      else (Throws (NetworkError ("Server returned " ++ Str.of_Z status ++ ": " ++ statusText)), w1)
  end.

(** The attempts still allowed after [attempt]: what [sendBatch] recurses on. *)
Definition attempts_left (attempt : Z) : nat := Z.to_nat (maxAttempts - attempt).
Arguments attempts_left : simpl never.

(** [sendBatch(batch, attempt)].  [Math.pow(2, attempt)] is [2 ^ attempt]
    for the attempts 1, 2, 3 that occur. *)
Equations? sendBatch (E : Env) (cfg : LogSentinelConfig) (batch : LogBatch)
  (attempt : Z) (w : World) : Completion unit * World
  by wf (attempts_left attempt) lt :=
  sendBatch E cfg batch attempt w with sendBatch_notices E cfg batch w => {
    | (Throws e, w1) := (Throws e, w1);
    | (Returns _, w1) with sendBatch_try E cfg batch w1 => {
        | (Returns _, w2) := (Returns tt, w2);
        | (Throws error, w2) with Z_lt_dec attempt maxAttempts => {
            | left _ :=
                let delay := 2 ^ attempt * 1000 in
                let w3 := debug_error cfg "Batch send failed" w2 in
                let w4 := debug_log cfg "Retrying" w3 in
                sendBatch E cfg batch (attempt + 1) (emit (Delay delay) w4);
            | right _ :=
                (Throws error, debug_error cfg "Batch send failed" w2) } } }.
Proof. unfold attempts_left, maxAttempts in *. lia. Qed.

Record LogSentinelClient : Type := mkClient {
  config : LogSentinelConfig;
  logQueue : LogQueue;
  flushTimer : option nat
}.

Module Client.

Definition with_queue (q : LogQueue) (this : LogSentinelClient) : LogSentinelClient :=
  mkClient (config this) q (flushTimer this).

(** [splice(0, undefined)] deletes nothing. *)
Definition number_or_zero (n : option Z) : Z :=
  match n with Some z => z | None => 0 end.

(** [flush()].  The completion is that of the promise when it settles. *)
Definition flush (E : Env) (this : LogSentinelClient) (w : World)
  : Completion unit * LogSentinelClient * World :=
  if Queue.isEmpty (logQueue this) then (Returns tt, this, w)
  else
    let '(logs, q) :=
      Queue.dequeue (number_or_zero (batchSize (config this))) (logQueue this) in
    let this1 := with_queue q this in
    match logs with
    | [] => (Returns tt, this1, w)
    | _ :: _ =>
        let batch := mkBatch logs (generateBatchId E (batches w))
                             (toISOString E (batches w)) in
        let w1 := mkWorld (fetches w) (draws w) (S (batches w)) (timers w)
                          (intervals w) (trace w) in
        match sendBatch E (config this) batch 1 w1 with
        | (Returns _, w2) => (Returns tt, this1, w2)
        | (Throws error, w2) =>
            (Returns tt, this1,
             emit (ConsoleWarn ("[LogSentinel] Failed to send batch: " ++ errMessage error)) w2)
        end
    end.

(** [x > y] on numbers where [y] may be [undefined]: false then. *)
Definition gt_opt (x : QArith_base.Q) (y : option QArith_base.Q) : bool :=
  match y with
  | Some r => negb (QArith_base.Qle_bool x r)
  | None => false
  end.

Definition ge_opt (x : Z) (y : option Z) : bool :=
  match y with
  | Some b => x >=? b
  | None => false
  end.

(** [log(payload)].  The fire-and-forget [flush] is run to its end on
    the spot: all it does to the queue happens before its first
    [await]. *)
Definition log (E : Env) (payload : LogPayload) (this : LogSentinelClient) (w : World)
  : LogSentinelClient * World :=
  let w0 := mkWorld (fetches w) (S (draws w)) (batches w) (timers w)
                    (intervals w) (trace w) in
  if gt_opt (random E (draws w)) (sampleRate (config this))
  then (this, debug_log (config this) "Log skipped (sampling)" w0)
  else
    let '(q, warned) := Queue.enqueue payload (logQueue this) in
    let this1 := with_queue q this in
    let w1 := debug_log (config this) "Log queued" (emit_all warned w0) in
    if ge_opt (Queue.size q) (batchSize (config this))
    then
      let w2 := debug_log (config this) "Batch size reached, flushing immediately" w1 in
      let '(_, this2, w3) := flush E this1 w2 in
      (this2, w3)
    else (this1, w1).

(** [startBatchFlusher()] *)
Definition startBatchFlusher (this : LogSentinelClient) (w : World)
  : LogSentinelClient * World :=
  let id := timers w in
  (mkClient (config this) (logQueue this) (Some id),
   mkWorld (fetches w) (draws w) (batches w) (S id) (id :: intervals w)
           (trace w ++ [SetInterval id (batchInterval (config this))])%list).

(** [new LogSentinelClient(config)] *)
Definition new (cfg : LogSentinelConfig) (w : World) : LogSentinelClient * World :=
  let this := mkClient cfg (Queue.new (maxQueueSize cfg)) None in
  startBatchFlusher this (debug_log cfg "Client initialized" w).

Definition clearInterval (id : nat) (w : World) : World :=
  mkWorld (fetches w) (draws w) (batches w) (timers w)
          (filter (fun i => negb (Nat.eqb i id)) (intervals w))
          (trace w ++ [ClearInterval id])%list.

(** [destroy()] *)
Definition destroy (E : Env) (this : LogSentinelClient) (w : World)
  : Completion unit * LogSentinelClient * World :=
  let w1 := match flushTimer this with
            | Some id => clearInterval id w
            | None => w
            end in
  flush E this w1.

(** One firing of the interval timer of [startBatchFlusher]. *)
Definition tick (E : Env) (this : LogSentinelClient) (w : World)
  : LogSentinelClient * World :=
  match flushTimer this with
  | Some id =>
      if existsb (Nat.eqb id) (intervals w)
      then let '(_, this1, w1) := flush E this w in (this1, w1)
      else (this, w)
  | None => (this, w)
  end.

End Client.

(** *** The module-level singleton *)

(** The client objects allocated so far, each at the address that is its
    position in [heap]; [clientInstance] is the module variable. *)
Record Process : Type := mkProcess {
  heap : list LogSentinelClient;
  clientInstance : option nat;
  world : World
}.

Definition initial : Process := mkProcess [] None (mkWorld 0 0 0 0 [] []).

(** The object at address [r] overwritten. *)
Fixpoint store (r : nat) (c : LogSentinelClient) (h : list LogSentinelClient)
  : list LogSentinelClient :=
  match h, r with
  | [], _ => []
  | _ :: t, O => c :: t
  | x :: t, S r' => x :: store r' c t
  end.

Definition getClient (cfg : LogSentinelConfig) (p : Process) : nat * Process :=
  match clientInstance p with
  | Some r => (r, p)
  | None =>
      let '(c, w) := Client.new cfg (world p) in
      let r := List.length (heap p) in
      (r, mkProcess (heap p ++ [c])%list (Some r) w)
  end.

(** A method of the client at address [r] run on the process; a dangling
    address does nothing. *)
Definition on_client (r : nat)
  (m : LogSentinelClient -> World -> LogSentinelClient * World) (p : Process)
  : Process :=
  match nth_error (heap p) r with
  | Some c =>
      let '(c', w') := m c (world p) in
      mkProcess (store r c' (heap p)) (clientInstance p) w'
  | None => p
  end.

Definition destroy_method (E : Env) (c : LogSentinelClient) (w : World)
  : LogSentinelClient * World :=
  let '(_, c', w') := Client.destroy E c w in (c', w').

Definition resetClient (E : Env) (p : Process) : Process :=
  match clientInstance p with
  | Some r =>
      let p' := on_client r (destroy_method E) p in
      mkProcess (heap p') None (world p')
  | None => p
  end.

(** What the rest of the program can do with the module and with the
    clients it was handed. *)
Inductive Call : Type :=
| CallGetClient (cfg : LogSentinelConfig)
| CallResetClient
| CallLog (r : nat) (payload : LogPayload)
| CallDestroy (r : nat)
| TimerFires (r : nat).

Definition is_reset (c : Call) : bool :=
  match c with CallResetClient => true | _ => false end.

Definition step (E : Env) (c : Call) (p : Process) : Process :=
  match c with
  | CallGetClient cfg => snd (getClient cfg p)
  | CallResetClient => resetClient E p
  | CallLog r payload => on_client r (Client.log E payload) p
  | CallDestroy r => on_client r (destroy_method E) p
  | TimerFires r => on_client r (Client.tick E) p
  end.

Definition run (E : Env) (calls : list Call) (p : Process) : Process :=
  fold_left (fun acc c => step E c acc) calls p.

(** The configuration the client at address [r] operates under. *)
Definition config_at (r : nat) (p : Process) : option LogSentinelConfig :=
  option_map config (nth_error (heap p) r).

(** ** A reference [JSON] for the values of the model *)

Module RefJSON.

Definition hex_digit (n : nat) : ascii :=
  ascii_of_nat (if (n <? 10)%nat then 48 + n else 87 + n).

Definition dquote : ascii := ascii_of_nat 34.
Definition backslash : ascii := ascii_of_nat 92.

(** One code unit inside a JSON string literal. *)
Definition escape (c : ascii) : string :=
  let n := nat_of_ascii c in
  if (n =? 34)%nat then String backslash (String dquote "")
  else if (n =? 92)%nat then String backslash (String backslash "")
  else if (n =? 8)%nat then String backslash "b"
  else if (n =? 9)%nat then String backslash "t"
  else if (n =? 10)%nat then String backslash "n"
  else if (n =? 12)%nat then String backslash "f"
  else if (n =? 13)%nat then String backslash "r"
  else if (n <? 32)%nat
       then String backslash "u00"
            ++ String (hex_digit (n / 16)) (String (hex_digit (n mod 16)) "")
       else String c "".

Fixpoint escape_all (s : string) : string :=
  match s with
  | EmptyString => ""
  | String c r => escape c ++ escape_all r
  end.

Definition quote (s : string) : string :=
  String dquote (escape_all s ++ String dquote "").

(** [JSON.stringify(v)]; [None] is [undefined]. *)
Fixpoint stringify_value (v : JsValue) : option string :=
  match v with
  | JUndefined => None
  | JNull => Some "null"
  | JBool true => Some "true"
  | JBool false => Some "false"
  | JNumber n => Some (Str.of_Z n)
  | JString s => Some (quote s)
  | JArray items =>
      Some ("[" ++
            Str.join ","
              (map (fun x => match stringify_value x with
                             | Some s => s
                             | None => "null"
                             end) items) ++ "]")
  | JObject entries =>
      Some ("{" ++
            Str.join ","
              (flat_map (fun kv => match stringify_value (snd kv) with
                                   | Some s => [quote (fst kv) ++ ":" ++ s]
                                   | None => []
                                   end) entries) ++ "}")
  end.

Definition SyntaxError : JsError := mkError "SyntaxError" "Unexpected token in JSON".

Definition is_ws (c : ascii) : bool :=
  let n := nat_of_ascii c in
  ((n =? 32) || (n =? 9) || (n =? 10) || (n =? 13))%nat.

Fixpoint skip_ws (s : string) : string :=
  match s with
  | String c r => if is_ws c then skip_ws r else s
  | EmptyString => s
  end.

Definition digit_of (c : ascii) : option Z :=
  let n := nat_of_ascii c in
  if ((48 <=? n) && (n <=? 57))%nat then Some (Z.of_nat (n - 48)) else None.

Definition hex_of (c : ascii) : option nat :=
  let n := nat_of_ascii c in
  if ((48 <=? n) && (n <=? 57))%nat then Some (n - 48)%nat
  else if ((97 <=? n) && (n <=? 102))%nat then Some (n - 87)%nat
  else if ((65 <=? n) && (n <=? 70))%nat then Some (n - 55)%nat
  else None.

(** The digits at the head of [s] read onto [acc]. *)
Fixpoint read_digits (acc : Z) (s : string) : Z * string :=
  match s with
  | String c r =>
      match digit_of c with
      | Some d => read_digits (10 * acc + d) r
      | None => (acc, s)
      end
  | EmptyString => (acc, s)
  end.

(** A number the model has: an integer with no fraction or exponent. *)
Definition read_number (s : string) : option (Z * string) :=
  let '(neg, s1) := match s with
                    | String "-" r => (true, r)
                    | _ => (false, s)
                    end in
  match s1 with
  | String c r =>
      match digit_of c with
      | Some d =>
          let '(n, rest) := if d =? 0 then (0, r) else read_digits d r in
          match rest with
          | String "." _ | String "e" _ | String "E" _ => None
          | _ => Some (if neg then - n else n, rest)
          end
      | None => None
      end
  | EmptyString => None
  end.

(** The rest of a string literal after its opening quote. *)
Fixpoint read_string (s : string) : option (string * string) :=
  match s with
  | EmptyString => None
  | String c r =>
      if (nat_of_ascii c =? 34)%nat then Some ("", r)
      else if (nat_of_ascii c <? 32)%nat then None
      else if (nat_of_ascii c =? 92)%nat then
        match r with
        | String e r1 =>
            let plain (u : nat) (rest : string) :=
              match read_string rest with
              | Some (t, rest') => Some (String (ascii_of_nat u) t, rest')
              | None => None
              end in
            match nat_of_ascii e with
            | 34%nat => plain 34%nat r1
            | 92%nat => plain 92%nat r1
            | 47%nat => plain 47%nat r1
            | 98%nat => plain 8%nat r1
            | 102%nat => plain 12%nat r1
            | 110%nat => plain 10%nat r1
            | 114%nat => plain 13%nat r1
            | 116%nat => plain 9%nat r1
            | 117%nat =>
                match r1 with
                | String h1 (String h2 (String h3 (String h4 r2))) =>
                    match hex_of h1, hex_of h2, hex_of h3, hex_of h4 with
                    | Some 0%nat, Some 0%nat, Some a, Some b =>
                        plain (16 * a + b)%nat r2
                    | _, _, _, _ => None
                    end
                | _ => None
                end
            | _ => None
            end
        | EmptyString => None
        end
      else
        match read_string r with
        | Some (t, rest) => Some (String c t, rest)
        | None => None
        end
  end.

(** [s] without its first [n] code units. *)
Fixpoint drop (n : nat) (s : string) : string :=
  match n, s with
  | O, _ => s
  | S m, String _ r => drop m r
  | S _, EmptyString => EmptyString
  end.

(** The rest of [s] after the code unit [c] it starts with. *)
Definition after (c : ascii) (s : string) : option string :=
  match s with
  | String d r => if Ascii.eqb c d then Some r else None
  | EmptyString => None
  end.

Section Composite.
Variable read_value : string -> option (JsValue * string).

(** The items of an array after its first one, up to the bracket. *)
Fixpoint read_items (fuel : nat) (s : string) : option (list JsValue * string) :=
  match fuel with
  | O => None
  | S f =>
      match after "]" (skip_ws s), after "," (skip_ws s) with
      | Some r, _ => Some ([], r)
      | None, Some r =>
          match read_value r with
          | Some (v, r1) =>
              match read_items f r1 with
              | Some (vs, r2) => Some (v :: vs, r2)
              | None => None
              end
          | None => None
          end
      | None, None => None
      end
  end.

(** One [key : value] member. *)
Definition read_member (s : string) : option (string * JsValue * string) :=
  match after dquote (skip_ws s) with
  | Some r =>
      match read_string r with
      | Some (k, r1) =>
          match after ":" (skip_ws r1) with
          | Some r2 =>
              match read_value r2 with
              | Some (v, r3) => Some (k, v, r3)
              | None => None
              end
          | None => None
          end
      | None => None
      end
  | None => None
  end.

(** The members of an object after its first one, up to the brace. *)
Fixpoint read_members (fuel : nat) (s : string)
  : option (list (string * JsValue) * string) :=
  match fuel with
  | O => None
  | S f =>
      match after "}" (skip_ws s), after "," (skip_ws s) with
      | Some r, _ => Some ([], r)
      | None, Some r =>
          match read_member r with
          | Some (k, v, r1) =>
              match read_members f r1 with
              | Some (kvs, r2) => Some ((k, v) :: kvs, r2)
              | None => None
              end
          | None => None
          end
      | None, None => None
      end
  end.
End Composite.

(** A repeated key keeps its first place and its last value. *)
Definition object_of (members : list (string * JsValue)) : JsValue :=
  JObject (fold_left (fun obj kv => set_prop obj (fst kv) (snd kv)) members []).

Definition read_array (f : nat) (read : string -> option (JsValue * string))
  (r : string) : option (JsValue * string) :=
  match after "]" (skip_ws r) with
  | Some r1 => Some (JArray [], r1)
  | None =>
      match read r with
      | Some (v, r1) =>
          match read_items read f r1 with
          | Some (vs, r2) => Some (JArray (v :: vs), r2)
          | None => None
          end
      | None => None
      end
  end.

Definition read_object (f : nat) (read : string -> option (JsValue * string))
  (r : string) : option (JsValue * string) :=
  match after "}" (skip_ws r) with
  | Some r1 => Some (JObject [], r1)
  | None =>
      match read_member read r with
      | Some (k, v, r1) =>
          match read_members read f r1 with
          | Some (kvs, r2) => Some (object_of ((k, v) :: kvs), r2)
          | None => None
          end
      | None => None
      end
  end.

Fixpoint read_value (fuel : nat) (s : string) : option (JsValue * string) :=
  match fuel with
  | O => None
  | S f =>
      let t := skip_ws s in
      if prefix "null" t then Some (JNull, drop 4 t)
      else if prefix "true" t then Some (JBool true, drop 4 t)
      else if prefix "false" t then Some (JBool false, drop 5 t)
      else
        match after "[" t, after "{" t, after dquote t with
        | Some r, _, _ => read_array f (read_value f) r
        | None, Some r, _ => read_object f (read_value f) r
        | None, None, Some r =>
            match read_string r with
            | Some (text, r1) => Some (JString text, r1)
            | None => None
            end
        | None, None, None =>
            match read_number t with
            | Some (n, r1) => Some (JNumber n, r1)
            | None => None
            end
        end
  end.

(** [JSON.parse(s)]: one value, and nothing but white space after it. *)
Definition parse_text (s : string) : Completion JsValue :=
  match read_value (S (String.length s)) s with
  | Some (v, rest) =>
      match skip_ws rest with
      | EmptyString => Returns v
      | _ => Throws SyntaxError
      end
  | None => Throws SyntaxError
  end.

Definition json : JSON :=
  mkJSON (fun v => Returns (stringify_value v)) parse_text.

End RefJSON.

(** ** Notions the statements use *)

(** What [redactSensitiveFields] makes of one property. *)
Definition redact_entry (kv : string * JsValue) : string * JsValue :=
  (fst kv,
   if is_sensitive (fst kv) then REDACTED else redactSensitiveFields (snd kv)).

(** The string whose length [sanitizeBody] measures: a string body itself,
    the [JSON.stringify] text of any other body. *)
Definition is_string (v : JsValue) : bool :=
  match v with JString _ => true | _ => false end.

Definition serialized (J : JSON) (body : JsValue) : Completion string :=
  match body with
  | JString s => Returns s
  | _ =>
      match stringify J body with
      | Returns (Some s) => Returns s
      | Returns None => Throws (TypeError "Cannot read properties of undefined (reading 'length')")
      | Throws e => Throws e
      end
  end.

(** The last [n] elements of a list, in order. *)
Definition lastn {A : Type} (n : nat) (l : list A) : list A :=
  skipn (List.length l - n) l.

(** What a queue of capacity [cap] still holds of the sequence [logs]
    enqueued into it: a queue never holds fewer than one element once one
    was enqueued, whatever [cap] is. *)
Definition survivors (cap : Z) (logs : list LogPayload) : list LogPayload :=
  lastn (Z.to_nat (Z.max 1 cap)) logs.

(** The network side of a trace: the [fetch] calls and the waits between
    them, without the console. *)
Definition is_network (ev : Event) : bool :=
  match ev with
  | Fetch _ _ _ | Delay _ => true
  | _ => false
  end.

Definition network (t : list Event) : list Event := filter is_network t.

(** Whether a [fetch] outcome lets the [try] block of [sendBatch] through,
    and the error it throws when it does not: a response that is not
    [ok] throws a [NetworkError] like a rejection throws its own error. *)
Definition succeeds (o : FetchOutcome) : bool :=
  match o with
  | Responds status _ => ok status
  | Rejects _ => false
  end.

Definition failure (o : FetchOutcome) : JsError :=
  match o with
  | Responds status statusText =>
      NetworkError ("Server returned " ++ Str.of_Z status ++ ": " ++ statusText)
  | Rejects e => e
  end.

(** The world after [n] more [fetch] calls, [m] more batches and the
    events [tr]. *)
Definition appended (tr : list Event) (n m : nat) (w : World) : World :=
  mkWorld (n + fetches w) (draws w) (m + batches w) (timers w) (intervals w)
          (trace w ++ tr).

(** The request [sendBatch] issues for a batch. *)
Definition request (cfg : LogSentinelConfig) (batch : LogBatch) : Event :=
  Fetch (baseUrl cfg) ("Bearer " ++ apiKey cfg) batch.

(** A [fetch] call of a trace carries a batch of at least one event and of
    at most [batchSize] events, for the [batchSize] of one of [cfgs]. *)
Definition batch_within (cfgs : list LogSentinelConfig) (ev : Event) : Prop :=
  match ev with
  | Fetch _ _ batch =>
      (1 <= List.length (logs batch))%nat
      /\ exists cfg b,
           In cfg cfgs /\ batchSize cfg = Some b
           /\ Z.of_nat (List.length (logs batch)) <= b
  | _ => True
  end.

(** A method of the client that leaves its configuration alone and adds to
    the trace only requests with batches within its [batchSize]. *)
Definition well_behaved
  (m : LogSentinelClient -> World -> LogSentinelClient * World) : Prop :=
  forall c w,
    config (fst (m c w)) = config c
    /\ flushTimer (fst (m c w)) = flushTimer c
    /\ exists tr, trace (snd (m c w)) = (trace w ++ tr)%list
                  /\ Forall (batch_within [config c]) tr.

(** ** Sample inputs *)

Module Sample.

(** [{username, Password, items: [{access_token}, 7]}] *)
Definition login : JsValue :=
  JObject
    [ ("username", JString "john");
      ("Password", JString "secret123");
      ("items", JArray [JObject [("access_token", JString "abc")]; JNumber 7]) ].

(** [{password, token}] *)
Definition credentials : JsValue :=
  JObject [("password", JString "hunter2"); ("token", JString "abc")].

(** [{user: {PASSWORD, name}}] *)
Definition profile : JsValue :=
  JObject
    [("user", JObject [("PASSWORD", JString "hunter2"); ("name", JString "john")])].

(** [{auth: {password, user}}] *)
Definition guarded : JsValue :=
  JObject
    [("auth", JObject [("password", JString "hunter2"); ("user", JString "john")])].

(** ['x'.repeat(n)] *)
Fixpoint xs (n : nat) : string :=
  match n with
  | O => ""
  | S m => String "x" (xs m)
  end.

(** [{password, data: 'x'.repeat(10000)}] *)
Definition upload : JsValue :=
  JObject [("password", JString "hunter2"); ("data", JString (xs (100 * 100)))].

(** An event that stands out by its trace identifier. *)
Definition event (id : string) : LogPayload :=
  mkPayload id "2024-01-01T00:00:00.000Z" "GET" "/api" 200 12
            None None JUndefined JUndefined None None.

(** A configuration with the defaults of [src/config.ts]. *)
Definition settings : LogSentinelConfig :=
  mkConfig "key" "https://logs.example.com" (Some true)
           (Some (QArith_base.Qmake 1 1)) (Some 10) (Some 5000) (Some 1000)
           (Some 5000) None.

Definition down : JsError := mkError "TypeError" "fetch failed".

(** A transport that fails twice, then answers 200. *)
Definition flaky : Env :=
  mkEnv (fun k => if (k <? 2)%nat then Rejects down else Responds 200 "OK")
        (fun _ => QArith_base.Qmake 0 1)
        (fun _ => "batch_1700000000000_abc123def")
        (fun _ => "2024-01-01T00:00:00.000Z")
        false.

(** A transport that answers 503 every time. *)
Definition unavailable : Env :=
  mkEnv (fun _ => Responds 503 "Service Unavailable")
        (fun _ => QArith_base.Qmake 0 1)
        (fun _ => "batch_1700000000000_abc123def")
        (fun _ => "2024-01-01T00:00:00.000Z")
        false.

(** A transport that answers 200 every time. *)
Definition healthy : Env :=
  mkEnv (fun _ => Responds 200 "OK")
        (fun _ => QArith_base.Qmake 0 1)
        (fun _ => "batch_1700000000000_abc123def")
        (fun _ => "2024-01-01T00:00:00.000Z")
        false.

Definition idle : World := mkWorld 0 0 0 0 [] [].

(** [log] called on the client at address 0 once for each name. *)
Definition logged (names : list string) : list Call :=
  map (fun id => CallLog 0 (event id)) names.

(** The text the reference [JSON.stringify] gives a value. *)
Definition text (v : JsValue) : string :=
  match RefJSON.stringify_value v with
  | Some s => s
  | None => ""
  end.

End Sample.

(** ** [src/utils.ts]: [sanitizeHeaders] *)

Definition sensitiveKeys : list string :=
  ["authorization"; "cookie"; "x-api-key"; "x-auth-token"; "api-key"].

(** [sanitized[key] = v] on a record of strings. *)
Fixpoint set_header (obj : list (string * string)) (key v : string)
  : list (string * string) :=
  match obj with
  | [] => [(key, v)]
  | (k, w) :: r =>
      if String.eqb k key then (k, v) :: r else (k, w) :: set_header r key v
  end.

Fixpoint get_header (obj : list (string * string)) (key : string) : option string :=
  match obj with
  | [] => None
  | (k, w) :: r => if String.eqb k key then Some w else get_header r key
  end.

(** [items.join(sep)]: [undefined] and [null] are joined as empty strings. *)
Definition array_join (sep : string) (items : list JsValue) : string :=
  Str.join sep
    (map (fun x => match x with
                   | JUndefined | JNull => ""
                   | _ => ToString x
                   end) items).

(** [sensitiveKeys.includes(key.toLowerCase())] *)
Definition is_sensitive_header (key : string) : bool :=
  let lowerKey := Str.toLowerCase key in
  existsb (fun k => String.eqb k lowerKey) sensitiveKeys.

Definition sanitizeHeaders (headers : list (string * JsValue))
  : list (string * string) :=
  fold_left
    (fun sanitized kv =>
       let key := fst kv in
       let value := snd kv in
       if is_sensitive_header key then set_header sanitized key "[REDACTED]"
       else match value with
            | JArray items => set_header sanitized key (array_join ", " items)
            | _ => set_header sanitized key (ToString value)
            end)
    headers [].

(** What [sanitizeHeaders] makes of one header. *)
Definition sanitize_header (kv : string * JsValue) : string * string :=
  (fst kv,
   if is_sensitive_header (fst kv) then "[REDACTED]"
   else match snd kv with
        | JArray items => array_join ", " items
        | v => ToString v
        end).

(** A record of strings read as the record of values it is. *)
Definition as_values (headers : list (string * string)) : list (string * JsValue) :=
  map (fun kv => (fst kv, JString (snd kv))) headers.

(** What every record that [sanitizeHeaders] builds satisfies: no name
    twice, and the marker under every sensitive name. *)
Definition sanitized_record (acc : list (string * string)) : Prop :=
  distinct (map fst acc) = true
  /\ Forall (fun kv => is_sensitive_header (fst kv) = true ->
                       snd kv = "[REDACTED]") acc.

(** What one property satisfies once [redactSensitiveFields] has gone over
    it: going over it again changes nothing, and its value is well formed. *)
Definition settled (kv : string * JsValue) : Prop :=
  redact_entry kv = kv /\ well_formed (snd kv) = true.

(** No key of the value, at any depth, is a sensitive one. *)
Fixpoint sensitive_free (v : JsValue) : bool :=
  match v with
  | JArray items => forallb sensitive_free items
  | JObject entries =>
      forallb (fun kv => negb (is_sensitive (fst kv)) && sensitive_free (snd kv))
              entries
  | _ => true
  end.

(** ** The queue and the client over sequences of calls *)

(** A sequence of [enqueue] calls: the queue afterwards and all that was
    written to the console. *)
Definition enqueue_each (logs : list LogPayload) (q : LogQueue)
  : LogQueue * list Event :=
  fold_left
    (fun acc log =>
       let '(q', warned) := Queue.enqueue log (fst acc) in
       (q', (snd acc ++ warned)%list))
    logs (q, []).

Definition queue_full : Event :=
  ConsoleWarn "[LogSentinel] Queue full. Dropping oldest log.".

(** What the program does with one client: it logs an event, or the
    interval timer of the client fires. *)
Inductive Use : Type :=
| UseLog (payload : LogPayload)
| UseTick.

Definition use (E : Env) (u : Use) (this : LogSentinelClient) (w : World)
  : LogSentinelClient * World :=
  match u with
  | UseLog payload => Client.log E payload this w
  | UseTick => Client.tick E this w
  end.

Definition use_each (E : Env) (us : list Use) (this : LogSentinelClient) (w : World)
  : LogSentinelClient * World :=
  fold_left (fun acc u => use E u (fst acc) (snd acc)) us (this, w).

(** The events of a sequence of uses that sampling lets through, when the
    next sampling test is the [k]-th: [log] tests once a call. *)
Fixpoint accepted (E : Env) (rate : option QArith_base.Q) (us : list Use) (k : nat)
  : list LogPayload :=
  match us with
  | [] => []
  | UseLog payload :: r =>
      if Client.gt_opt (random E k) rate then accepted E rate r (S k)
      else payload :: accepted E rate r (S k)
  | UseTick :: r => accepted E rate r k
  end.

(** The world after one more sampling test. *)
Definition drawn (w : World) : World :=
  mkWorld (fetches w) (S (draws w)) (batches w) (timers w) (intervals w) (trace w).

(** The warnings of a trace, and the events its requests carry, in the
    order of the requests. *)
Definition is_warning (ev : Event) : bool :=
  match ev with ConsoleWarn _ => true | _ => false end.

Definition warnings (t : list Event) : list Event := filter is_warning t.

Definition delivered (t : list Event) : list LogPayload :=
  flat_map (fun ev => match ev with
                      | Fetch _ _ batch => logs batch
                      | _ => []
                      end) t.

Definition failed_to_send (error : JsError) : Event :=
  ConsoleWarn ("[LogSentinel] Failed to send batch: " ++ errMessage error).

(** A client whose [batchSize] is positive and within the capacity of its
    queue, and whose queue holds fewer events than a batch. *)
Definition roomy (b : Z) (this : LogSentinelClient) : Prop :=
  batchSize (config this) = Some b
  /\ 0 < b <= maxSize (logQueue this)
  /\ Queue.size (logQueue this) < b.

(** The waits of a trace, added up, and the test for its requests. *)
Fixpoint total_delay (t : list Event) : Z :=
  match t with
  | [] => 0
  | Delay ms :: r => ms + total_delay r
  | _ :: r => total_delay r
  end.

Definition is_fetch (ev : Event) : bool :=
  match ev with Fetch _ _ _ => true | _ => false end.

(** ** [src/config.ts] *)

(** [process.env]: a variable is a string or is not set. *)
Definition ProcessEnv : Type := string -> option string.

(** The platform's [parseInt(s, 10)] and [parseFloat(s)]; [None] is [NaN],
    which the numbers of the model do not have. *)
Record Numbers : Type := mkNumbers {
  parseInt : string -> option Z;
  parseFloat : string -> option QArith_base.Q
}.

(** [a || b] on values that are a string or [undefined]. *)
Definition or_else (a b : option string) : option string :=
  match a with
  | Some (String _ _) => a
  | _ => b
  end.

(** [!a] on a value that is a string or [undefined]. *)
Definition missing (a : option string) : bool :=
  match a with
  | Some (String _ _) => false
  | _ => true
  end.

(** [a === 'true'] *)
Definition is_true (a : option string) : bool :=
  match a with
  | Some s => String.eqb s "true"
  | None => false
  end.

Definition text_or (a : option string) (default : string) : string :=
  match or_else a (Some default) with
  | Some s => s
  | None => default
  end.

Definition newline : string := String (ascii_of_nat 10) "".

(** What [getConfig()] returns: [null], or the configuration with the
    [captureResponseBody] property it carries besides, or, outside the
    model, a configuration with a [NaN] in it. *)
Inductive Loaded : Type :=
| Disabled
| Enabled (cfg : LogSentinelConfig) (captureResponseBody : bool)
| WithNaN.

Definition getConfig (N : Numbers) (env : ProcessEnv) (w : World) : Loaded * World :=
  let apiKey := or_else (env "LOGSENTINEL_API_KEY")
                        (env "NEXT_PUBLIC_LOGSENTINEL_API_KEY") in
  let baseUrl := or_else (env "LOGSENTINEL_BASE_URL")
                         (env "NEXT_PUBLIC_LOGSENTINEL_BASE_URL") in
  let debug := is_true (env "LOGSENTINEL_DEBUG")
               || is_true (env "NEXT_PUBLIC_LOGSENTINEL_DEBUG") in
  match apiKey, baseUrl with
  | Some (String a0 a), Some (String b0 b) =>
      let w1 := if debug
                then emit (ConsoleLog "[LogSentinel Debug] Configuration loaded:") w
                else w in
      match parseFloat N (text_or (env "LOGSENTINEL_SAMPLE_RATE") "1.0"),
            parseInt N (text_or (env "LOGSENTINEL_BATCH_SIZE") "10"),
            parseInt N (text_or (env "LOGSENTINEL_BATCH_INTERVAL") "5000"),
            parseInt N (text_or (env "LOGSENTINEL_MAX_QUEUE_SIZE") "1000"),
            parseInt N (text_or (env "LOGSENTINEL_TIMEOUT") "5000") with
      | Some rate, Some size, Some interval, Some room, Some limit =>
          (Enabled
             (mkConfig (String a0 a) (String b0 b) (Some true) (Some rate)
                       (Some size) (Some interval) (Some room) (Some limit)
                       (Some debug))
             (is_true (env "LOGSENTINEL_CAPTURE_RESPONSE_BODY")),
           w1)
      | _, _, _, _, _ => (WithNaN, w1)
      end
  | _, _ =>
      let names :=
        ((if missing apiKey then ["LOGSENTINEL_API_KEY"] else [])
         ++ (if missing baseUrl then ["LOGSENTINEL_BASE_URL"] else []))%list in
      (Disabled,
       emit (ConsoleWarn
               ("[LogSentinel] SDK disabled - missing environment variables: "
                ++ Str.join ", " names ++ newline
                ++ "Please add to your .env.local file:" ++ newline
                ++ "  LOGSENTINEL_API_KEY=your_api_key" ++ newline
                ++ "  LOGSENTINEL_BASE_URL=https://your-logging-server.com")) w)
  end.

(** The module variable [cachedConfig]: [None] is [undefined]. *)
Definition getCachedConfig (N : Numbers) (env : ProcessEnv)
  (cachedConfig : option Loaded) (w : World) : Loaded * option Loaded * World :=
  match cachedConfig with
  | None =>
      let '(loaded, w') := getConfig N env w in
      (loaded, Some loaded, w')
  | Some loaded => (loaded, cachedConfig, w)
  end.

Definition resetConfig (cachedConfig : option Loaded) : option Loaded := None.

(** [getCachedConfig()] called once under each of [envs], the environment
    changing between the calls: what the calls return, and the module
    variable and the world afterwards. *)
Fixpoint getCachedConfig_each (N : Numbers) (envs : list ProcessEnv)
  (cachedConfig : option Loaded) (w : World)
  : list Loaded * option Loaded * World :=
  match envs with
  | [] => ([], cachedConfig, w)
  | env :: rest =>
      let '(loaded, c1, w1) := getCachedConfig N env cachedConfig w in
      let '(ls, c2, w2) := getCachedConfig_each N rest c1 w1 in
      (loaded :: ls, c2, w2)
  end.

(** An environment that sets the two variables the SDK needs and no
    other. *)
Definition minimal_env (key url : string) : ProcessEnv :=
  fun name =>
    if String.eqb name "LOGSENTINEL_API_KEY" then Some key
    else if String.eqb name "LOGSENTINEL_BASE_URL" then Some url
    else None.

(** *** Reference numbers *)

Module RefNumbers.

(** [parseInt(s, 10)]: white space, a sign, then the digits there are. *)
Definition is_space (c : ascii) : bool :=
  let n := nat_of_ascii c in
  (((9 <=? n) && (n <=? 13)) || (n =? 32) || (n =? 160))%nat.

Fixpoint trim_start (s : string) : string :=
  match s with
  | String c r => if is_space c then trim_start r else s
  | EmptyString => s
  end.

Definition unsigned (s : string) : option Z :=
  match s with
  | String c r =>
      match RefJSON.digit_of c with
      | Some d => Some (fst (RefJSON.read_digits d r))
      | None => None
      end
  | EmptyString => None
  end.

Definition parseInt10 (s : string) : option Z :=
  match trim_start s with
  | String "-" r => option_map Z.opp (unsigned r)
  | String "+" r => unsigned r
  | t => unsigned t
  end.

(** [parseFloat(s)]: white space, a sign, then the longest decimal
    literal there is: digits, a fraction, an exponent.  [Infinity] is not a
    number of the model. *)
Fixpoint read_fraction (num : Z) (den : positive) (s : string)
  : Z * positive * string :=
  match s with
  | String c r =>
      match RefJSON.digit_of c with
      | Some d => read_fraction (10 * num + d) (10 * den) r
      | None => (num, den, s)
      end
  | EmptyString => (num, den, s)
  end.

Definition scale (num : Z) (den : positive) (e : Z) : QArith_base.Q :=
  match e with
  | Z0 => QArith_base.Qmake num den
  | Zpos p => QArith_base.Qmake (num * Z.pow_pos 10 p) den
  | Zneg p => QArith_base.Qmake num (den * Pos.pow 10 p)
  end.

Definition is_e (c : ascii) : bool :=
  let n := nat_of_ascii c in ((n =? 101) || (n =? 69))%nat.

(** The exponent part, when there is a whole one. *)
Definition read_exponent (s : string) : Z :=
  match s with
  | String e (String c r) =>
      if is_e e then
        match RefJSON.digit_of c with
        | Some d => fst (RefJSON.read_digits d r)
        | None =>
            match r with
            | String c' r' =>
                match RefJSON.digit_of c' with
                | Some d =>
                    if (nat_of_ascii c =? 45)%nat
                    then - fst (RefJSON.read_digits d r')
                    else if (nat_of_ascii c =? 43)%nat
                    then fst (RefJSON.read_digits d r')
                    else 0
                | None => 0
                end
            | EmptyString => 0
            end
        end
      else 0
  | _ => 0
  end.

Definition unsigned_float (s : string) : option QArith_base.Q :=
  match s with
  | String c r =>
      match RefJSON.digit_of c with
      | Some d =>
          let '(i, rest) := RefJSON.read_digits d r in
          match rest with
          | String "." f =>
              let '(num, den, rest') := read_fraction i 1 f in
              Some (scale num den (read_exponent rest'))
          | _ => Some (scale i 1 (read_exponent rest))
          end
      | None =>
          match c, r with
          | "."%char, String c' r' =>
              match RefJSON.digit_of c' with
              | Some d =>
                  let '(num, den, rest') := read_fraction d 10 r' in
                  Some (scale num den (read_exponent rest'))
              | None => None
              end
          | _, _ => None
          end
      end
  | EmptyString => None
  end.

Definition parseFloat10 (s : string) : option QArith_base.Q :=
  match trim_start s with
  | String "-" r => option_map QArith_base.Qopp (unsigned_float r)
  | String "+" r => unsigned_float r
  | t => unsigned_float t
  end.

Definition numbers : Numbers := mkNumbers parseInt10 parseFloat10.

End RefNumbers.

(** * Properties *)

Local Open Scope list_scope.

(** ** Strings *)

Lemma prefix_spec (t s : string) :
  prefix t s = true <-> exists post, s = (t ++ post)%string.
Proof.
  revert s; induction t as [|a t IH]; intros s; simpl.
  - split; [intros _; exists s; reflexivity | intros _; destruct s; reflexivity].
  - destruct s as [|b s]; simpl;
      [split; [discriminate | intros [post H]; discriminate]|].
    destruct (ascii_dec a b) as [->|Hne].
    + rewrite IH. split; intros [post H]; exists post.
      * now rewrite H.
      * now inversion H.
    + split; [discriminate | intros [post H]; inversion H; congruence].
Qed.

Lemma includes_unfold (s t : string) :
  Str.includes s t
  = if prefix t s then true
    else match s with
         | EmptyString => false
         | String _ r => Str.includes r t
         end.
Proof. destruct s; reflexivity. Qed.

Lemma includes_spec (s t : string) :
  Str.includes s t = true <-> Substring t s.
Proof.
  unfold Substring. induction s as [|c s IH]; rewrite includes_unfold.
  - destruct (prefix t "") eqn:Hp.
    + split; [intros _ | reflexivity].
      apply prefix_spec in Hp. destruct Hp as [post H]. now exists "", post.
    + split; [discriminate|]. intros (pre & post & H).
      destruct pre; [|discriminate]. simpl in H.
      assert (prefix t "" = true) by (apply prefix_spec; now exists post).
      congruence.
  - destruct (prefix t (String c s)) eqn:Hp.
    + split; [intros _ | reflexivity].
      apply prefix_spec in Hp. destruct Hp as [post H]. now exists "", post.
    + rewrite IH. split; intros (pre & post & H).
      * exists (String c pre), post. simpl. now rewrite H.
      * destruct pre as [|c' pre].
        -- simpl in H.
           assert (prefix t (String c s) = true) by (apply prefix_spec; now exists post).
           congruence.
        -- simpl in H. inversion H. now exists pre, post.
Qed.

Lemma is_sensitive_spec (key : string) :
  is_sensitive key = true <-> SensitiveKey key.
Proof.
  unfold is_sensitive, SensitiveKey. rewrite existsb_exists.
  split; intros (field & Hin & H); exists field; split; trivial;
    now apply includes_spec.
Qed.

Lemma password_is_sensitive (key : string) :
  Str.toLowerCase key = "password" -> is_sensitive key = true.
Proof. unfold is_sensitive. intros ->. reflexivity. Qed.

(** ** Properties of objects *)

Lemma get_prop_In (es : list (string * JsValue)) (k : string) (v : JsValue) :
  get_prop es k = Some v -> In (k, v) es.
Proof.
  induction es as [|[k' w] es IH]; simpl; [discriminate|].
  destruct (String.eqb k' k) eqn:Hk.
  - apply String.eqb_eq in Hk. intros [= ->]. left. now subst.
  - intros H. right. now apply IH.
Qed.

Lemma set_prop_fresh (acc : list (string * JsValue)) (k : string) (v : JsValue) :
  existsb (String.eqb k) (map fst acc) = false ->
  set_prop acc k v = acc ++ [(k, v)].
Proof.
  induction acc as [|[k' w] acc IH]; simpl; [reflexivity|].
  intros H. apply orb_false_iff in H. destruct H as [Hk Hr].
  rewrite String.eqb_sym, Hk. now rewrite IH.
Qed.

Lemma distinct_app_cons (ks : list string) (k : string) (r : list string) :
  distinct (ks ++ k :: r) = true ->
  existsb (String.eqb k) ks = false /\ distinct ((ks ++ [k]) ++ r) = true.
Proof.
  induction ks as [|a ks IH]; simpl.
  - intros H. split; [reflexivity | exact H].
  - rewrite !andb_true_iff, !negb_true_iff. intros [Ha Hd].
    destruct (IH Hd) as [Hk Hd']. rewrite <- !app_assoc in *. simpl in *.
    rewrite existsb_app in Ha. simpl in Ha.
    apply orb_false_iff in Ha. destruct Ha as [Ha1 Ha2].
    apply orb_false_iff in Ha2. destruct Ha2 as [Hak Ha2].
    repeat split.
    + rewrite String.eqb_sym, Hak. exact Hk.
    + rewrite existsb_app. simpl. now rewrite Ha1, Hak, Ha2.
    + exact Hd'.
Qed.

Lemma redact_scalar (v : JsValue) :
  is_object v = false -> redactSensitiveFields v = v.
Proof. destruct v; simpl; try reflexivity; discriminate. Qed.

Lemma redact_fold (es acc : list (string * JsValue)) :
  distinct (map fst acc ++ map fst es) = true ->
  fold_left
    (fun sanitized kv =>
       let key := fst kv in
       let value := snd kv in
       if is_sensitive key then set_prop sanitized key REDACTED
       else if is_object value
            then set_prop sanitized key (redactSensitiveFields value)
            else set_prop sanitized key value)
    es acc
  = acc ++ map redact_entry es.
Proof.
  revert acc; induction es as [|[k v] es IH]; intros acc Hd; simpl.
  - now rewrite app_nil_r.
  - simpl in Hd. apply distinct_app_cons in Hd. destruct Hd as [Hk Hd].
    assert (Hstep :
      (if is_sensitive k then set_prop acc k REDACTED
       else if is_object v then set_prop acc k (redactSensitiveFields v)
            else set_prop acc k v)
      = acc ++ [redact_entry (k, v)]).
    { unfold redact_entry; simpl. destruct (is_sensitive k).
      - now apply set_prop_fresh.
      - destruct (is_object v) eqn:Hv.
        + now apply set_prop_fresh.
        + rewrite (redact_scalar _ Hv). now apply set_prop_fresh. }
    rewrite Hstep, IH.
    + now rewrite <- app_assoc.
    + rewrite map_app. simpl. exact Hd.
Qed.

Lemma redact_object (entries : list (string * JsValue)) :
  distinct (map fst entries) = true ->
  redactSensitiveFields (JObject entries) = JObject (map redact_entry entries).
Proof.
  intros Hd. simpl. f_equal. now rewrite redact_fold.
Qed.

Lemma get_prop_redacted (es : list (string * JsValue)) (k : string) :
  get_prop (map redact_entry es) k
  = option_map
      (fun v => if is_sensitive k then REDACTED else redactSensitiveFields v)
      (get_prop es k).
Proof.
  induction es as [|[k' w] es IH]; simpl; [reflexivity|].
  destruct (String.eqb k' k) eqn:Hk; [|exact IH].
  apply String.eqb_eq in Hk. now subst.
Qed.

(** ** Paths *)

Lemma lookup_app (v : JsValue) (p q : list Step) :
  lookup v (p ++ q)
  = match lookup v p with Some w => lookup w q | None => None end.
Proof.
  revert v; induction p as [|st p IH]; intros v; simpl.
  - reflexivity.
  - destruct st as [k|i];
      destruct v as [| | b | n | s | items | entries]; try reflexivity.
    + destruct (get_prop entries k); [apply IH | reflexivity].
    + destruct (nth_error items i); [apply IH | reflexivity].
Qed.

Lemma well_formed_item (items : list JsValue) (i : nat) (w : JsValue) :
  well_formed (JArray items) = true ->
  nth_error items i = Some w -> well_formed w = true.
Proof.
  simpl. intros Hall Hn. apply nth_error_In in Hn.
  rewrite forallb_forall in Hall. now apply Hall.
Qed.

Lemma well_formed_prop (es : list (string * JsValue)) (k : string) (w : JsValue) :
  well_formed (JObject es) = true ->
  get_prop es k = Some w -> well_formed w = true.
Proof.
  simpl. intros Hwf Hg. apply andb_true_iff in Hwf. destruct Hwf as [_ Hall].
  apply get_prop_In in Hg. rewrite forallb_forall in Hall.
  exact (Hall (k, w) Hg).
Qed.

Lemma well_formed_distinct (es : list (string * JsValue)) :
  well_formed (JObject es) = true -> distinct (map fst es) = true.
Proof. simpl. intros H. now apply andb_true_iff in H. Qed.

Lemma well_formed_lookup (p : list Step) : forall v w,
  well_formed v = true -> lookup v p = Some w -> well_formed w = true.
Proof.
  induction p as [|st p IH]; intros v w Hwf; simpl.
  - now intros [= <-].
  - destruct st as [k|i];
      destruct v as [| | b | n | s | items | entries]; try discriminate.
    + destruct (get_prop entries k) as [x|] eqn:Hg; [|discriminate].
      apply IH. eapply well_formed_prop; eauto.
    + destruct (nth_error items i) as [x|] eqn:Hn; [|discriminate].
      apply IH. eapply well_formed_item; eauto.
Qed.

(** Along a path with no sensitive key, the sanitized value holds the
    sanitized form of what the input holds. *)
Lemma lookup_redact (p : list Step) : forall v w,
  well_formed v = true -> clear_path p = true ->
  lookup v p = Some w ->
  lookup (redactSensitiveFields v) p = Some (redactSensitiveFields w).
Proof.
  induction p as [|st p IH]; intros v w Hwf Hclear; simpl.
  - now intros [= <-].
  - simpl in Hclear. apply andb_true_iff in Hclear. destruct Hclear as [Hst Hclear].
    destruct st as [k|i];
      destruct v as [| | b | n | s | items | entries]; try discriminate.
    + destruct (get_prop entries k) as [x|] eqn:Hg; [|discriminate].
      intros Hl. rewrite (redact_object _ (well_formed_distinct _ Hwf)).
      rewrite get_prop_redacted, Hg. simpl.
      apply negb_true_iff in Hst. rewrite Hst.
      apply IH; trivial. eapply well_formed_prop; eauto.
    + destruct (nth_error items i) as [x|] eqn:Hn; [|discriminate].
      intros Hl. simpl. rewrite nth_error_map, Hn. simpl.
      apply IH; trivial. eapply well_formed_item; eauto.
Qed.

(** Whatever the sanitized value holds is the sanitized form of what the
    input holds there, or the marker. *)
Lemma lookup_redact_inv (p : list Step) : forall v w,
  well_formed v = true ->
  lookup (redactSensitiveFields v) p = Some w ->
  exists w0, lookup v p = Some w0 /\
             (w = redactSensitiveFields w0 \/ w = REDACTED).
Proof.
  induction p as [|st p IH]; intros v w Hwf; simpl.
  - intros [= <-]. exists v. auto.
  - destruct st as [k|i];
      destruct v as [| | b | n | s | items | entries]; try discriminate.
    + rewrite (redact_object _ (well_formed_distinct _ Hwf)).
      rewrite get_prop_redacted.
      destruct (get_prop entries k) as [x|] eqn:Hg; [|discriminate]. simpl.
      destruct (is_sensitive k).
      * destruct p as [|st' p]; simpl.
        -- intros [= <-]. exists x. auto.
        -- destruct st'; discriminate.
      * apply IH. eapply well_formed_prop; eauto.
    + simpl. rewrite nth_error_map.
      destruct (nth_error items i) as [x|] eqn:Hn; [|discriminate]. simpl.
      apply IH. eapply well_formed_item; eauto.
Qed.

(** A path with a sensitive key on it splits at the first such key. *)
Lemma first_sensitive_key (p : list Step) :
  clear_path p = false ->
  exists q k rest,
    p = q ++ Key k :: rest /\ clear_path q = true /\ is_sensitive k = true.
Proof.
  induction p as [|st p IH]; simpl; [discriminate|].
  destruct st as [k|i]; simpl.
  - destruct (is_sensitive k) eqn:Hk; simpl.
    + intros _. exists [], k, p. auto.
    + intros H. destruct (IH H) as (q & k' & rest & -> & Hq & Hk').
      exists (Key k :: q), k', rest. simpl. rewrite Hk. auto.
  - intros H. destruct (IH H) as (q & k' & rest & -> & Hq & Hk').
    exists (Index i :: q), k', rest. auto.
Qed.

(** A sensitive key reached through keys that are not sensitive holds the
    marker in the sanitized value. *)
Lemma lookup_sensitive_key (body : JsValue) (p : list Step) (key : string)
  (v : JsValue) :
  well_formed body = true ->
  clear_path p = true ->
  lookup body (p ++ [Key key]) = Some v ->
  is_sensitive key = true ->
  lookup (redactSensitiveFields body) (p ++ [Key key]) = Some REDACTED.
Proof.
  intros Hwf Hp Hl Hk. rewrite lookup_app in Hl.
  destruct (lookup body p) as [o|] eqn:Ho; [|discriminate].
  rewrite lookup_app, (lookup_redact _ _ _ Hwf Hp Ho).
  simpl in Hl. destruct o as [| | b | n | s | items | entries]; try discriminate.
  destruct (get_prop entries key) as [x|] eqn:Hg; [|discriminate].
  assert (Hwo : well_formed (JObject entries) = true)
    by (eapply well_formed_lookup; eauto).
  rewrite (redact_object _ (well_formed_distinct _ Hwo)).
  simpl. now rewrite get_prop_redacted, Hg, Hk.
Qed.

(** An object or array body within the threshold goes to
    [redactSensitiveFields] as it is. *)
Lemma sanitizeBody_object (J : JSON) (body : JsValue) (jsonString : string) :
  is_object body = true ->
  stringify J body = Returns (Some jsonString) ->
  Str.len jsonString <= 10000 ->
  sanitizeBody J body = redactSensitiveFields body.
Proof.
  intros Hobj Hs Hlen. unfold sanitizeBody, sanitizeBody_try.
  assert (Hgt : (Str.len jsonString >? 10000) = false)
    by (rewrite Z.gtb_ltb; apply Z.ltb_ge; exact Hlen).
  destruct body as [| | b | n | s | items | entries]; try discriminate;
    simpl falsy; cbv iota; rewrite Hs; simpl bind; rewrite Hgt; reflexivity.
Qed.

(** *** The fields that can match *)

Lemma lower_unit_idem (c : ascii) :
  Str.lower_unit (Str.lower_unit c) = Str.lower_unit c.
Proof.
  destruct c as [b0 b1 b2 b3 b4 b5 b6 b7].
  destruct b0, b1, b2, b3, b4, b5, b6, b7; reflexivity.
Qed.

Lemma toLowerCase_idem (s : string) :
  Str.toLowerCase (Str.toLowerCase s) = Str.toLowerCase s.
Proof.
  induction s as [|c s IH]; simpl; [reflexivity|].
  now rewrite lower_unit_idem, IH.
Qed.

Lemma lowered_app (a b : string) :
  Str.toLowerCase (a ++ b)%string = (a ++ b)%string ->
  Str.toLowerCase a = a /\ Str.toLowerCase b = b.
Proof.
  induction a as [|c a IH]; simpl; intros H; [now split|].
  injection H as Hc Hr. destruct (IH Hr) as [Ha Hb].
  split; [now rewrite Hc, Ha | exact Hb].
Qed.

(** What a lowercase form contains is its own lowercase form. *)
Lemma lowercase_substring (field key : string) :
  Substring field (Str.toLowerCase key) -> Str.toLowerCase field = field.
Proof.
  intros (pre & post & H).
  pose proof (toLowerCase_idem key) as Hk. rewrite H in Hk.
  apply lowered_app in Hk as [_ Hk]. now apply lowered_app in Hk as [Hk _].
Qed.

Lemma sensitive_by_lowercase (key : string) :
  SensitiveKey key
  <-> exists field,
        In field lowercaseFields /\ Substring field (Str.toLowerCase key).
Proof.
  unfold SensitiveKey, lowercaseFields.
  split; intros (field & Hin & Hsub); exists field; (split; [|exact Hsub]).
  - apply filter_In. split; [exact Hin|].
    apply String.eqb_eq. eapply lowercase_substring; eauto.
  - now apply filter_In in Hin.
Qed.

(** C3, as the spec words it, fails: in [{auth: {password, user}}] the key
    [password] is a sensitive one at depth two, and the result holds no
    marker under it: it is gone with the value of [auth], which holds the
    marker. *)
Lemma redaction_matching_counterexample :
  is_object Sample.guarded = true
  /\ well_formed Sample.guarded = true
  /\ stringify RefJSON.json Sample.guarded
     = Returns (Some (Sample.text Sample.guarded))
  /\ Str.len (Sample.text Sample.guarded) <= 10000
  /\ lookup Sample.guarded [Key "auth"; Key "password"]
     = Some (JString "hunter2")
  /\ is_sensitive "password" = true
  /\ sanitizeBody RefJSON.json Sample.guarded = JObject [("auth", REDACTED)]
  /\ lookup (sanitizeBody RefJSON.json Sample.guarded)
            [Key "auth"; Key "password"]
     = None
  /\ None <> Some REDACTED.
Proof.
  split; [reflexivity|]. split; [reflexivity|]. split; [reflexivity|].
  split; [vm_compute; discriminate|].
  split; [reflexivity|]. split; [reflexivity|].
  split; [reflexivity|]. split; [reflexivity | discriminate].
Qed.

(** C3, amended.  Body redaction matching.  For an object or array passed
    to [sanitizeBody] whose serialization is within 10,000 characters, the
    result is the recursive redaction of the body, and: a key whose
    lowercase form contains a sensitive field as a substring is a key the
    code matches; every such key of the input, at any depth, holds the
    redaction marker in the result when it is reached through keys that are
    not sensitive, and otherwise lies under such a key that holds the
    marker; no sensitive key of the result holds anything but the marker;
    an object keeps its keys in order, and an array keeps its length and
    order, each item being sanitized in place.  A lowercase form contains
    no capital letter: the keys of this statement are those whose lowercase
    form contains one of the nine fields written in lowercase.  Nothing of
    the input that lies under a sensitive key is left in the result. *)
Theorem sanitizeBody_redacts_sensitive_keys
  (J : JSON) (body : JsValue) (jsonString : string) :
  is_object body = true ->
  well_formed body = true ->
  stringify J body = Returns (Some jsonString) ->
  Str.len jsonString <= 10000 ->
  let result := sanitizeBody J body in
  result = redactSensitiveFields body
  /\ (forall key, SensitiveKey key <-> is_sensitive key = true)
  /\ (forall p key v,
        clear_path p = true ->
        lookup body (p ++ [Key key]) = Some v ->
        SensitiveKey key ->
        lookup result (p ++ [Key key]) = Some REDACTED)
  /\ (forall p key v,
        lookup body (p ++ [Key key]) = Some v ->
        SensitiveKey key ->
        exists q k rest,
          p ++ [Key key] = q ++ Key k :: rest /\ SensitiveKey k /\
          lookup result (q ++ [Key k]) = Some REDACTED)
  /\ (forall p key v,
        lookup result (p ++ [Key key]) = Some v ->
        SensitiveKey key -> v = REDACTED)
  /\ (forall p entries,
        clear_path p = true ->
        lookup body p = Some (JObject entries) ->
        lookup result p = Some (JObject (map redact_entry entries)))
  /\ (forall p items,
        clear_path p = true ->
        lookup body p = Some (JArray items) ->
        exists items',
          lookup result p = Some (JArray items') /\
          List.length items' = List.length items /\
          forall i x, nth_error items i = Some x ->
                      nth_error items' i = Some (redactSensitiveFields x))
  /\ (forall key,
        SensitiveKey key <->
        exists field,
          In field [ "password"; "token"; "api_key"; "secret"; "auth";
                     "authorization"; "credit_card"; "ssn"; "private_key" ]
          /\ Substring field (Str.toLowerCase key))
  /\ (forall p key v,
        clear_path p = false ->
        lookup body (p ++ [Key key]) = Some v ->
        lookup result (p ++ [Key key]) = None).
Proof.
  intros Hobj Hwf Hs Hlen result.
  assert (Hres : result = redactSensitiveFields body)
    by (eapply sanitizeBody_object; eauto).
  assert (Hkey : forall p key v,
            clear_path p = true ->
            lookup body (p ++ [Key key]) = Some v ->
            is_sensitive key = true ->
            lookup result (p ++ [Key key]) = Some REDACTED).
  { intros p key v Hp Hl Hk. rewrite Hres.
    eapply lookup_sensitive_key; eauto. }
  split; [exact Hres|].
  split; [intros key; symmetry; apply is_sensitive_spec|].
  split; [intros p key v Hp Hl Hk; apply is_sensitive_spec in Hk; eauto|].
  split.
  { intros p key v Hl Hk.
    destruct (clear_path p) eqn:Hp.
    - exists p, key, [].
      pose proof (proj2 (is_sensitive_spec key) Hk) as Hk'.
      repeat split; eauto.
    - destruct (first_sensitive_key _ Hp) as (q & k & rest & -> & Hq & Hk').
      exists q, k, (rest ++ [Key key]). split; [now rewrite <- app_assoc|].
      split; [now apply is_sensitive_spec|].
      replace ((q ++ Key k :: rest) ++ [Key key])
        with ((q ++ [Key k]) ++ rest ++ [Key key]) in Hl
        by (now rewrite <- !app_assoc).
      rewrite lookup_app in Hl.
      destruct (lookup body (q ++ [Key k])) as [x|] eqn:Hx; [|discriminate].
      eapply Hkey; eauto. }
  split.
  { intros p key v Hl Hk. apply is_sensitive_spec in Hk.
    rewrite Hres, lookup_app in Hl.
    destruct (lookup (redactSensitiveFields body) p) as [o|] eqn:Ho; [|discriminate].
    destruct (lookup_redact_inv _ _ _ Hwf Ho) as (o0 & Ho0 & [-> | ->]);
      [|discriminate].
    assert (Hwo : well_formed o0 = true) by (eapply well_formed_lookup; eauto).
    destruct o0 as [| | b | n | s | items | entries]; try discriminate.
    rewrite (redact_object _ (well_formed_distinct _ Hwo)) in Hl.
    simpl in Hl. rewrite get_prop_redacted in Hl.
    destruct (get_prop entries key); [|discriminate].
    simpl in Hl. rewrite Hk in Hl. now injection Hl as <-. }
  split.
  { intros p entries Hp Hl.
    rewrite Hres, (lookup_redact _ _ _ Hwf Hp Hl). f_equal.
    apply redact_object, well_formed_distinct. eapply well_formed_lookup; eauto. }
  split.
  { intros p items Hp Hl.
    exists (map redactSensitiveFields items).
    rewrite Hres, (lookup_redact _ _ _ Hwf Hp Hl). simpl.
    split; [reflexivity|]. split; [apply length_map|].
    intros i x Hx. now rewrite nth_error_map, Hx. }
  split; [exact sensitive_by_lowercase|].
  intros p key v Hp Hl.
  destruct (first_sensitive_key _ Hp) as (q & k & rest & -> & Hq & Hk).
  replace ((q ++ Key k :: rest) ++ [Key key])
    with ((q ++ [Key k]) ++ rest ++ [Key key]) in *
    by (now rewrite <- !app_assoc).
  rewrite lookup_app in Hl. rewrite lookup_app.
  destruct (lookup body (q ++ [Key k])) as [x|] eqn:Hx; [|discriminate].
  rewrite (Hkey q k x Hq Hx Hk). unfold REDACTED.
  now destruct rest as [|[k'|i] rest].
Qed.

Lemma sanitizeBody_redacts_sensitive_keys_witness :
  sanitizeBody RefJSON.json Sample.login = redactSensitiveFields Sample.login
  /\ lookup (sanitizeBody RefJSON.json Sample.login) [Key "Password"]
     = Some REDACTED
  /\ lookup (sanitizeBody RefJSON.json Sample.login)
            [Key "items"; Index 0; Key "access_token"]
     = Some REDACTED.
Proof.
  destruct (sanitizeBody_redacts_sensitive_keys
              RefJSON.json Sample.login (Sample.text Sample.login)
              eq_refl eq_refl eq_refl
              ltac:(vm_compute; discriminate))
    as (Hres & _ & Hkey & _).
  split; [exact Hres|]. split.
  - apply (Hkey [] "Password" (JString "secret123")); [reflexivity..|].
    apply is_sensitive_spec. reflexivity.
  - apply (Hkey [Key "items"; Index 0%nat] "access_token" (JString "abc"));
      [reflexivity..|].
    apply is_sensitive_spec. reflexivity.
Defined.

(** C9, as the spec words it, fails: next to [password], the key [token]
    of [{password, token}] does not keep its value. *)
Lemma redaction_frame_counterexample :
  lookup Sample.credentials [Key "token"] = Some (JString "abc")
  /\ Str.toLowerCase "token" <> "password"
  /\ lookup (sanitizeBody RefJSON.json Sample.credentials) [Key "token"]
     = Some REDACTED
  /\ REDACTED <> JString "abc".
Proof. repeat split; try reflexivity; discriminate. Qed.

(** C9, amended.  Redaction frame property.  For an object or array whose
    serialization is within the threshold: a key spelled [password] in any
    letter case, reached through keys that are not sensitive, holds the
    redaction marker in the result, and so does every other sensitive key
    reached likewise; a key that is not sensitive, reached likewise, holds
    the sanitized form of its value, which is the value itself when that
    is a scalar. *)
Theorem sanitizeBody_password_frame
  (J : JSON) (body : JsValue) (jsonString : string) :
  is_object body = true ->
  well_formed body = true ->
  stringify J body = Returns (Some jsonString) ->
  Str.len jsonString <= 10000 ->
  let result := sanitizeBody J body in
  (forall p key v,
     clear_path p = true ->
     lookup body (p ++ [Key key]) = Some v ->
     Str.toLowerCase key = "password" ->
     lookup result (p ++ [Key key]) = Some REDACTED)
  /\ (forall p key v,
        clear_path p = true ->
        lookup body (p ++ [Key key]) = Some v ->
        is_sensitive key = true ->
        lookup result (p ++ [Key key]) = Some REDACTED)
  /\ (forall p key v,
        clear_path p = true ->
        lookup body (p ++ [Key key]) = Some v ->
        is_sensitive key = false ->
        lookup result (p ++ [Key key]) = Some (redactSensitiveFields v)
        /\ (is_object v = false -> lookup result (p ++ [Key key]) = Some v)).
Proof.
  intros Hobj Hwf Hs Hlen result.
  assert (Hres : result = redactSensitiveFields body)
    by (eapply sanitizeBody_object; eauto).
  rewrite Hres. split; [|split].
  - intros p key v Hp Hl Hk.
    eapply lookup_sensitive_key; eauto using password_is_sensitive.
  - intros p key v Hp Hl Hk. eapply lookup_sensitive_key; eauto.
  - intros p key v Hp Hl Hk.
    assert (Hv : lookup (redactSensitiveFields body) (p ++ [Key key])
                 = Some (redactSensitiveFields v)).
    { apply lookup_redact; trivial.
      unfold clear_path in *. rewrite forallb_app, Hp. simpl. now rewrite Hk. }
    split; [exact Hv|]. intros Hsc. now rewrite Hv, redact_scalar.
Qed.

Lemma sanitizeBody_password_frame_witness :
  lookup (sanitizeBody RefJSON.json Sample.profile) [Key "user"; Key "PASSWORD"]
  = Some REDACTED
  /\ lookup (sanitizeBody RefJSON.json Sample.profile) [Key "user"; Key "name"]
     = Some (JString "john").
Proof.
  destruct (sanitizeBody_password_frame
              RefJSON.json Sample.profile (Sample.text Sample.profile)
              eq_refl eq_refl eq_refl
              ltac:(vm_compute; discriminate))
    as (Hpw & _ & Hframe).
  split.
  - apply (Hpw [Key "user"] "PASSWORD" (JString "hunter2")); reflexivity.
  - apply (Hframe [Key "user"] "name" (JString "john")); reflexivity.
Defined.

(** ** [sanitizeBody] *)

Lemma sanitizeBody_try_serialized (J : JSON) (body : JsValue) :
  sanitizeBody_try J body
  = bind (serialized J body) (fun jsonString =>
      if Str.len jsonString >? 10000 then Returns (truncation_marker jsonString)
      else
        bind (match body with
              | JString _ => parse J jsonString
              | _ => Returns body
              end)
             (fun parsed =>
                if is_object parsed then Returns (redactSensitiveFields parsed)
                else Returns parsed)).
Proof.
  unfold sanitizeBody_try, serialized.
  destruct body; try reflexivity;
    destruct (stringify J _) as [[s|]|e]; reflexivity.
Qed.

Lemma sanitizeBody_falsy (J : JSON) (body : JsValue) :
  falsy body = true -> sanitizeBody J body = JUndefined.
Proof. unfold sanitizeBody. now intros ->. Qed.

Lemma gtb_false (x y : Z) : x <= y -> (x >? y) = false.
Proof. intros H. rewrite Z.gtb_ltb. now apply Z.ltb_ge. Qed.

Lemma gtb_true (x y : Z) : y < x -> (x >? y) = true.
Proof. intros H. rewrite Z.gtb_ltb. now apply Z.ltb_lt. Qed.

Lemma sanitizeBody_over (J : JSON) (body : JsValue) (jsonString : string) :
  falsy body = false ->
  serialized J body = Returns jsonString ->
  10000 < Str.len jsonString ->
  sanitizeBody J body = truncation_marker jsonString.
Proof.
  intros Ht Hs Hlen. unfold sanitizeBody.
  rewrite Ht, sanitizeBody_try_serialized, Hs. simpl.
  now rewrite (gtb_true _ _ Hlen).
Qed.

Lemma sanitizeBody_plain (J : JSON) (body : JsValue) (jsonString : string) :
  falsy body = false ->
  is_string body = false ->
  serialized J body = Returns jsonString ->
  Str.len jsonString <= 10000 ->
  sanitizeBody J body = redactSensitiveFields body.
Proof.
  intros Ht Hstr Hs Hlen. unfold sanitizeBody.
  rewrite Ht, sanitizeBody_try_serialized, Hs. simpl.
  rewrite (gtb_false _ _ Hlen).
  destruct body; try discriminate; reflexivity.
Qed.

Lemma sanitizeBody_parsed (J : JSON) (s : string) (parsed : JsValue) :
  falsy (JString s) = false ->
  Str.len s <= 10000 ->
  parse J s = Returns parsed ->
  sanitizeBody J (JString s) = redactSensitiveFields parsed.
Proof.
  intros Ht Hlen Hp. unfold sanitizeBody.
  rewrite Ht, sanitizeBody_try_serialized. simpl.
  rewrite (gtb_false _ _ Hlen), Hp. simpl.
  destruct (is_object parsed) eqn:Ho; [reflexivity|].
  now rewrite redact_scalar.
Qed.

Lemma sanitizeBody_unparsed (J : JSON) (s : string) (e : JsError) :
  falsy (JString s) = false ->
  Str.len s <= 10000 ->
  parse J s = Throws e ->
  sanitizeBody J (JString s)
  = JString (if Str.len s >? 500 then substring 0 500 s ++ "..." else s).
Proof.
  intros Ht Hlen Hp. unfold sanitizeBody.
  rewrite Ht, sanitizeBody_try_serialized. simpl.
  rewrite (gtb_false _ _ Hlen), Hp. simpl.
  now destruct (Str.len s >? 500).
Qed.

(** C4, as the spec words it, fails: a string of 600 characters that is
    not JSON is under the threshold, and comes back cut to 500 characters
    and an ellipsis. *)
Lemma truncation_threshold_counterexample :
  serialized RefJSON.json (JString (Sample.xs 600)) = Returns (Sample.xs 600)
  /\ Str.len (Sample.xs 600) <= 10000
  /\ sanitizeBody RefJSON.json (JString (Sample.xs 600))
     = JString (Sample.xs 500 ++ "...")
  /\ sanitizeBody RefJSON.json (JString (Sample.xs 600))
     <> redactSensitiveFields (JString (Sample.xs 600)).
Proof.
  split; [reflexivity|]. split; [vm_compute; discriminate|].
  split; [vm_compute; reflexivity|].
  intros H.
  apply (f_equal (fun v => match v with
                           | JString s => String.length s
                           | _ => O
                           end)) in H.
  vm_compute in H. discriminate H.
Qed.

(** C4, amended.  Truncation threshold.  The serialized form of a body is
    the body itself when it is a string and its [JSON.stringify] text
    otherwise.  When it exceeds 10,000 characters, [sanitizeBody] returns
    the truncation marker: [_truncated] true, [_originalSize] the exact
    length, [_preview] the first 500 characters and an ellipsis, with no
    field-level redaction.  When it is at or under 10,000 characters and
    the body is truthy: a body that is not a string comes back fully
    redacted; a string that [JSON.parse] accepts comes back as the redacted
    parsed value; a string that [JSON.parse] rejects comes back as it is,
    cut to its first 500 characters and an ellipsis when it is longer. *)
Theorem sanitizeBody_truncation_threshold
  (J : JSON) (body : JsValue) (jsonString : string) :
  serialized J body = Returns jsonString ->
  (falsy body = true -> Str.len jsonString <= 10000) ->
  (10000 < Str.len jsonString ->
   sanitizeBody J body
   = JObject [ ("_truncated", JBool true);
               ("_originalSize", JNumber (Str.len jsonString));
               ("_preview", JString (substring 0 500 jsonString ++ "...")) ])
  /\ (Str.len jsonString <= 10000 ->
      falsy body = false ->
      (is_string body = false ->
       sanitizeBody J body = redactSensitiveFields body)
      /\ (forall parsed,
            is_string body = true ->
            parse J jsonString = Returns parsed ->
            sanitizeBody J body = redactSensitiveFields parsed)
      /\ (forall e,
            is_string body = true ->
            parse J jsonString = Throws e ->
            sanitizeBody J body
            = JString (if Str.len jsonString >? 500
                       then substring 0 500 jsonString ++ "..."
                       else jsonString))).
Proof.
  intros Hs Hfalsy. split.
  - intros Hlen. apply sanitizeBody_over; trivial.
    destruct (falsy body); [|reflexivity].
    specialize (Hfalsy eq_refl). lia.
  - intros Hlen Ht. split; [|split].
    + intros Hstr. eapply sanitizeBody_plain; eauto.
    + intros parsed Hstr Hp.
      destruct body; try discriminate. simpl in Hs. injection Hs as ->.
      now apply sanitizeBody_parsed.
    + intros e Hstr Hp.
      destruct body; try discriminate. simpl in Hs. injection Hs as ->.
      now apply sanitizeBody_unparsed with (e := e).
Qed.

Lemma sanitizeBody_truncation_threshold_witness :
  10000 < Str.len (Sample.text Sample.upload)
  /\ sanitizeBody RefJSON.json Sample.upload
     = JObject [ ("_truncated", JBool true);
                 ("_originalSize", JNumber (Str.len (Sample.text Sample.upload)));
                 ("_preview",
                  JString (substring 0 500 (Sample.text Sample.upload) ++ "...")) ].
Proof.
  assert (Hlen : 10000 < Str.len (Sample.text Sample.upload))
    by (vm_compute; reflexivity).
  assert (Hs : serialized RefJSON.json Sample.upload
               = Returns (Sample.text Sample.upload))
    by (vm_compute; reflexivity).
  assert (Hfalsy : falsy Sample.upload = true ->
                   Str.len (Sample.text Sample.upload) <= 10000)
    by (intros H; cbv [Sample.upload falsy] in H; discriminate H).
  split; [exact Hlen|].
  exact (proj1 (sanitizeBody_truncation_threshold
                  RefJSON.json Sample.upload (Sample.text Sample.upload)
                  Hs Hfalsy)
               Hlen).
Defined.

(** Only a falsy input, or a string that [JSON.parse] answers with
    [undefined], yields [undefined]. *)
Lemma sanitizeBody_undefined (J : JSON) (body : JsValue) :
  sanitizeBody J body = JUndefined ->
  falsy body = true
  \/ exists s, body = JString s /\ parse J s = Returns JUndefined.
Proof.
  intros Hu. destruct (falsy body) eqn:Ht; [now left | right].
  unfold sanitizeBody in Hu. rewrite Ht, sanitizeBody_try_serialized in Hu.
  destruct (serialized J body) as [jsonString|e] eqn:Hs; simpl in Hu.
  - destruct (Str.len jsonString >? 10000); [discriminate|].
    destruct body as [| | b | n | s | items | entries];
      simpl in Hu; try discriminate.
    simpl in Hs. injection Hs as <-.
    destruct (parse J s) as [parsed|e] eqn:Hp; simpl in Hu.
    + exists s. split; [reflexivity|].
      destruct parsed; simpl in Hu; try discriminate. exact Hp.
    + destruct (Str.len s >? 500); discriminate.
  - destruct (Str.len (ToString body) >? 500); discriminate.
Qed.

(** C7, as the spec words it, fails: the number [0] is neither [undefined]
    nor [null] and yields [undefined]; the string [123] is a scalar and
    comes back as the number 123. *)
Lemma sanitizeBody_boundary_counterexample :
  JNumber 0 <> JUndefined
  /\ JNumber 0 <> JNull
  /\ sanitizeBody RefJSON.json (JNumber 0) = JUndefined
  /\ sanitizeBody RefJSON.json (JString "123") = JNumber 123
  /\ JNumber 123 <> JString "123".
Proof. repeat split; try reflexivity; discriminate. Qed.

(** C7, amended.  [sanitizeBody] boundary behaviour.  [undefined] and
    [null] map to [undefined], and so does every other falsy input
    ([false], [0], the empty string).  A truthy number or boolean whose
    serialization is within the threshold passes through unchanged.  A
    non-empty string of at most 10,000 characters that [JSON.parse]
    rejects passes through unchanged when it has at most 500 characters,
    and is cut to its first 500 characters and an ellipsis otherwise; one
    that [JSON.parse] accepts is replaced by the redacted parsed value; a
    string of more than 10,000 characters yields the truncation marker.
    An input that yields [undefined] is falsy, or is a string that
    [JSON.parse] answers with [undefined]. *)
Theorem sanitizeBody_boundary (J : JSON) (body : JsValue) :
  sanitizeBody J JUndefined = JUndefined
  /\ sanitizeBody J JNull = JUndefined
  /\ (falsy body = true -> sanitizeBody J body = JUndefined)
  /\ (forall jsonString,
        falsy body = false ->
        is_object body = false ->
        is_string body = false ->
        serialized J body = Returns jsonString ->
        Str.len jsonString <= 10000 ->
        sanitizeBody J body = body)
  /\ (forall s e,
        body = JString s ->
        falsy body = false ->
        Str.len s <= 10000 ->
        parse J s = Throws e ->
        sanitizeBody J body
        = JString (if Str.len s >? 500 then substring 0 500 s ++ "..." else s))
  /\ (forall s parsed,
        body = JString s ->
        falsy body = false ->
        Str.len s <= 10000 ->
        parse J s = Returns parsed ->
        sanitizeBody J body = redactSensitiveFields parsed)
  /\ (forall s,
        body = JString s ->
        10000 < Str.len s ->
        sanitizeBody J body = truncation_marker s)
  /\ (sanitizeBody J body = JUndefined ->
      falsy body = true
      \/ exists s, body = JString s /\ parse J s = Returns JUndefined).
Proof.
  split; [reflexivity|]. split; [reflexivity|].
  split; [apply sanitizeBody_falsy|].
  split.
  { intros jsonString Ht Ho Hstr Hs Hlen.
    rewrite (sanitizeBody_plain J body jsonString Ht Hstr Hs Hlen).
    now apply redact_scalar. }
  split.
  { intros s e -> Ht Hlen Hp. now apply sanitizeBody_unparsed with (e := e). }
  split.
  { intros s parsed -> Ht Hlen Hp. now apply sanitizeBody_parsed. }
  split.
  { intros s -> Hlen. apply sanitizeBody_over; [|reflexivity|exact Hlen].
    destruct s; [vm_compute in Hlen; discriminate | reflexivity]. }
  apply sanitizeBody_undefined.
Qed.

Lemma sanitizeBody_boundary_witness :
  sanitizeBody RefJSON.json (JNumber 42) = JNumber 42
  /\ sanitizeBody RefJSON.json (JString "not json") = JString "not json"
  /\ sanitizeBody RefJSON.json (JString "") = JUndefined.
Proof.
  split; [|split].
  - destruct (sanitizeBody_boundary RefJSON.json (JNumber 42))
      as (_ & _ & _ & Hscalar & _).
    apply (Hscalar "42"); try reflexivity. vm_compute. discriminate.
  - destruct (sanitizeBody_boundary RefJSON.json (JString "not json"))
      as (_ & _ & _ & _ & Hraw & _).
    apply (Hraw "not json" RefJSON.SyntaxError); try reflexivity.
    vm_compute. discriminate.
  - destruct (sanitizeBody_boundary RefJSON.json (JString ""))
      as (_ & _ & Hfalsy & _).
    apply Hfalsy. reflexivity.
Defined.

(** *** On the reference [JSON] *)

Lemma read_value_defined (fuel : nat) (s : string) (v : JsValue) (r : string) :
  RefJSON.read_value fuel s = Some (v, r) -> v <> JUndefined.
Proof.
  destruct fuel as [|f]; simpl; [discriminate|].
  unfold RefJSON.read_array, RefJSON.read_object, RefJSON.object_of.
  repeat match goal with
         | |- context [if ?b then _ else _] => destruct b
         | |- context [match ?x with _ => _ end] => destruct x
         end;
    intros H; try discriminate H.
  all: injection H as <- <-; discriminate.
Qed.

Lemma parse_text_defined (s : string) :
  RefJSON.parse_text s <> Returns JUndefined.
Proof.
  unfold RefJSON.parse_text.
  destruct (RefJSON.read_value _ s) as [[v r]|] eqn:Hv; [|discriminate].
  destruct (RefJSON.skip_ws r); [|discriminate].
  intros [= ->]. now apply read_value_defined in Hv.
Qed.

Lemma serialized_falsy_short (body : JsValue) (s : string) :
  falsy body = true ->
  serialized RefJSON.json body = Returns s ->
  Str.len s <= 10000.
Proof.
  destruct body as [| | [|] | n | [|c t] | items | entries];
    simpl; try discriminate; intros Hf;
    try (intros [= <-]; vm_compute; discriminate).
  apply Z.eqb_eq in Hf. subst n.
  intros [= <-]. vm_compute. discriminate.
Qed.

(** With the reference [JSON], the inputs that yield [undefined] are the
    falsy ones and no other. *)
Lemma sanitizeBody_undefined_iff_falsy (body : JsValue) :
  sanitizeBody RefJSON.json body = JUndefined <-> falsy body = true.
Proof.
  split; [|apply sanitizeBody_falsy].
  intros Hu. destruct (sanitizeBody_undefined _ _ Hu) as [Hf | (s & _ & Hp)];
    [exact Hf|].
  now apply parse_text_defined in Hp.
Qed.

(** The entries of the sensitive-field list that hold a capital letter are
    contained in no lowercase key: a key spelled [apiKey], [creditCard] or
    [privateKey] is matched by none of them, and goes unredacted unless
    another entry matches. *)
Remark camel_case_fields_match_nothing :
  is_sensitive "apiKey" = false
  /\ is_sensitive "creditCard" = false
  /\ is_sensitive "privateKey" = false
  /\ is_sensitive "api_key" = true
  /\ is_sensitive "X-Auth-Token" = true.
Proof. repeat split. Qed.

(** ** The event queue *)

Section QueueFacts.
Variable log : LogPayload.
Variable q : LogQueue.

Lemma enqueue_queue :
  queue (fst (Queue.enqueue log q))
  = (if Queue.size q >=? maxSize q then tl (queue q) else queue q) ++ [log].
Proof. unfold Queue.enqueue. now destruct (Queue.size q >=? maxSize q). Qed.

Lemma enqueue_maxSize : maxSize (fst (Queue.enqueue log q)) = maxSize q.
Proof. unfold Queue.enqueue. now destruct (Queue.size q >=? maxSize q). Qed.

Lemma enqueue_size_bound :
  Queue.size q <= Z.max 1 (maxSize q) ->
  Queue.size (fst (Queue.enqueue log q)) <= Z.max 1 (maxSize q).
Proof.
  change (Queue.size (fst (Queue.enqueue log q)))
    with (Z.of_nat (List.length (queue (fst (Queue.enqueue log q))))).
  rewrite enqueue_queue. unfold Queue.size.
  destruct (Z.geb_spec (Z.of_nat (List.length (queue q))) (maxSize q)) as [Hge|Hlt];
    rewrite length_app; cbn [List.length].
  - destruct (queue q); cbn [List.length tl] in *; lia.
  - lia.
Qed.
End QueueFacts.

Lemma enqueue_all_cons (log : LogPayload) (logs : list LogPayload) (q : LogQueue) :
  Queue.enqueue_all (log :: logs) q
  = Queue.enqueue_all logs (fst (Queue.enqueue log q)).
Proof. reflexivity. Qed.

Lemma enqueue_all_maxSize (logs : list LogPayload) : forall q,
  maxSize (Queue.enqueue_all logs q) = maxSize q.
Proof.
  induction logs as [|x logs IH]; intros q; [reflexivity|].
  now rewrite enqueue_all_cons, IH, enqueue_maxSize.
Qed.

Lemma enqueue_all_size_bound (logs : list LogPayload) : forall q,
  Queue.size q <= Z.max 1 (maxSize q) ->
  Queue.size (Queue.enqueue_all logs q) <= Z.max 1 (maxSize q).
Proof.
  induction logs as [|x logs IH]; intros q Hq; [exact Hq|].
  rewrite enqueue_all_cons.
  rewrite <- (enqueue_maxSize x q). apply IH.
  rewrite enqueue_maxSize. now apply enqueue_size_bound.
Qed.

Lemma lastn_all {A : Type} (n : nat) (l : list A) :
  (List.length l <= n)%nat -> lastn n l = l.
Proof.
  intros H. unfold lastn.
  replace (List.length l - n)%nat with O by lia. reflexivity.
Qed.

Lemma lastn_app {A : Type} (n : nat) (a b : list A) :
  lastn n (lastn n a ++ b) = lastn n (a ++ b).
Proof.
  unfold lastn. destruct (Nat.le_gt_cases (List.length a) n) as [Hle|Hgt].
  - replace (List.length a - n)%nat with O by lia. reflexivity.
  - assert (Hk : skipn (List.length a - n) a ++ b
                 = skipn (List.length a - n) (a ++ b)).
    { rewrite skipn_app.
      replace (List.length a - n - List.length a)%nat with O by lia.
      reflexivity. }
    rewrite Hk, skipn_skipn, length_skipn, length_app. f_equal. lia.
Qed.

(** One [enqueue] keeps the last [max 1 maxSize] of what was ever put in. *)
Lemma enqueue_lastn (log : LogPayload) (q : LogQueue) :
  Queue.size q <= Z.max 1 (maxSize q) ->
  queue (fst (Queue.enqueue log q))
  = lastn (Z.to_nat (Z.max 1 (maxSize q))) (queue q ++ [log]).
Proof.
  intros Hq. rewrite enqueue_queue. unfold Queue.size in *. unfold lastn.
  rewrite length_app. cbn [List.length].
  destruct (Z.geb_spec (Z.of_nat (List.length (queue q))) (maxSize q)) as [Hge|Hlt].
  - destruct (queue q) as [|x l]; cbn [List.length tl app] in *.
    + match goal with |- context [skipn ?k _] => replace k with O by lia end.
      reflexivity.
    + match goal with |- context [skipn ?k _] => replace k with 1%nat by lia end.
      reflexivity.
  - match goal with |- context [skipn ?k _] => replace k with O by lia end.
    reflexivity.
Qed.

Lemma enqueue_all_lastn (logs : list LogPayload) : forall q,
  Queue.size q <= Z.max 1 (maxSize q) ->
  queue (Queue.enqueue_all logs q)
  = lastn (Z.to_nat (Z.max 1 (maxSize q))) (queue q ++ logs).
Proof.
  induction logs as [|x logs IH]; intros q Hq.
  - simpl. rewrite app_nil_r. symmetry. apply lastn_all.
    unfold Queue.size in Hq. lia.
  - rewrite enqueue_all_cons, IH, enqueue_maxSize, enqueue_lastn by
      (try rewrite enqueue_maxSize; try apply enqueue_size_bound; assumption).
    rewrite lastn_app, <- app_assoc. reflexivity.
Qed.

Lemma fresh_queue_survivors (maxSize : option Z) (logs : list LogPayload) :
  queue (Queue.enqueue_all logs (Queue.new maxSize))
  = survivors (Queue.maxSize_or_default maxSize) logs.
Proof.
  unfold survivors. rewrite enqueue_all_lastn; [reflexivity|].
  unfold Queue.size. simpl. lia.
Qed.

(** C1.  Queue bound invariant.  For a queue created with a positive
    capacity and any sequence of [enqueue] calls, [size() <= capacity]
    holds after each call; an [enqueue] at capacity evicts exactly the
    oldest element still present, one below capacity evicts nothing, and
    in both cases the new element is admitted as the newest ([enqueue] is
    a total function: it neither blocks nor fails). *)
Theorem queue_bound_invariant
  (capacity : Z) (logs : list LogPayload) (log : LogPayload) :
  0 < capacity ->
  let q := Queue.enqueue_all logs (Queue.new (Some capacity)) in
  let q' := fst (Queue.enqueue log q) in
  Queue.size q <= capacity
  /\ Queue.size q' <= capacity
  /\ (Queue.size q = capacity ->
      exists oldest rest,
        queue q = oldest :: rest /\ queue q' = rest ++ [log])
  /\ (Queue.size q < capacity -> queue q' = queue q ++ [log])
  /\ (exists kept, queue q' = kept ++ [log]).
Proof.
  intros Hcap q q'.
  assert (Hmax : maxSize q = capacity) by (apply enqueue_all_maxSize).
  assert (Hq : Queue.size q <= capacity).
  { pose proof (enqueue_all_size_bound logs (Queue.new (Some capacity))) as H.
    simpl in H. unfold Queue.size at 1 in H. simpl in H.
    fold q in H. lia. }
  assert (Hq' : Queue.size q' <= capacity).
  { pose proof (enqueue_size_bound log q) as H. fold q' in H. lia. }
  split; [exact Hq|]. split; [exact Hq'|].
  subst q'. rewrite enqueue_queue, Hmax.
  split; [|split].
  - intros Hfull. rewrite Hfull, (proj2 (Z.geb_le _ _)) by lia.
    unfold Queue.size in Hfull.
    destruct (queue q) as [|oldest rest]; [simpl in Hfull; lia|].
    now exists oldest, rest.
  - intros Hroom.
    destruct (Z.geb_spec (Queue.size q) capacity); [lia | reflexivity].
  - eexists. reflexivity.
Qed.

Lemma queue_bound_invariant_witness :
  let q := Queue.enqueue_all [Sample.event "a"; Sample.event "b"]
                             (Queue.new (Some 2)) in
  Queue.size q <= 2
  /\ queue (fst (Queue.enqueue (Sample.event "c") q))
     = [Sample.event "b"; Sample.event "c"].
Proof.
  destruct (queue_bound_invariant
              2 [Sample.event "a"; Sample.event "b"] (Sample.event "c")
              ltac:(reflexivity))
    as (Hsize & _ & Hfull & _).
  split; [exact Hsize|].
  destruct (Hfull eq_refl) as (oldest & rest & Hq & Hq').
  injection Hq as <- <-. exact Hq'.
Defined.

(** C2, as the spec words it, fails: a queue of capacity 1 that was given
    [a] then [b] answers [dequeue(2)] with [b] alone, 2 being no less than
    the number of enqueued elements. *)
Lemma fifo_dequeue_counterexample :
  Z.of_nat (List.length [Sample.event "a"; Sample.event "b"]) <= 2
  /\ fst (Queue.dequeue 2
            (Queue.enqueue_all [Sample.event "a"; Sample.event "b"]
                               (Queue.new (Some 1))))
     = [Sample.event "b"]
  /\ [Sample.event "b"] <> [Sample.event "a"; Sample.event "b"].
Proof.
  split; [vm_compute; discriminate|]. split; [reflexivity | discriminate].
Qed.

(** C2, amended.  FIFO dequeue law.  After any sequence of [enqueue] calls
    into a fresh queue, the queue holds the last [max 1 capacity] of the
    enqueued elements in the enqueued order, and [dequeue(n)] returns the
    [n] oldest of those in that order and removes them; with fewer than [n]
    present it returns all of them, and on an empty queue the empty
    sequence, never an error ([dequeue] is a total function).  In
    particular, when the number of enqueued elements exceeds neither the
    capacity nor [n], the result is the enqueued sequence itself. *)
Theorem fifo_dequeue
  (maxSize : option Z) (logs : list LogPayload) (n : Z) :
  let q := Queue.enqueue_all logs (Queue.new maxSize) in
  let out := fst (Queue.dequeue n q) in
  let q' := snd (Queue.dequeue n q) in
  queue q = survivors (Queue.maxSize_or_default maxSize) logs
  /\ out = firstn (Z.to_nat n) (queue q)
  /\ queue q = out ++ queue q'
  /\ List.length out = Nat.min (Z.to_nat n) (List.length (queue q))
  /\ (Queue.size q <= n -> out = queue q /\ queue q' = [])
  /\ (queue q = [] -> out = [])
  /\ (Z.of_nat (List.length logs) <= Queue.maxSize_or_default maxSize ->
      Z.of_nat (List.length logs) <= n ->
      out = logs /\ queue q' = []).
Proof.
  intros q out q'.
  assert (Hall : Queue.size q <= n -> out = queue q /\ queue q' = []).
  { unfold Queue.size. intros Hn. subst out q'. simpl. split.
    - apply firstn_all2. lia.
    - apply skipn_all2. lia. }
  assert (Hq : queue q = survivors (Queue.maxSize_or_default maxSize) logs)
    by apply fresh_queue_survivors.
  split; [exact Hq|].
  split; [reflexivity|].
  split; [symmetry; apply firstn_skipn|].
  split; [apply length_firstn|].
  split; [exact Hall|].
  split.
  - intros Hnil. subst out. simpl. rewrite Hnil. now destruct (Z.to_nat n).
  - intros Hcap Hn.
    assert (Hlogs : queue q = logs).
    { rewrite Hq. apply lastn_all. lia. }
    rewrite <- Hlogs at 1. apply Hall. unfold Queue.size. rewrite Hlogs. exact Hn.
Qed.

Lemma fifo_dequeue_witness :
  fst (Queue.dequeue 5
         (Queue.enqueue_all [Sample.event "a"; Sample.event "b"; Sample.event "c"]
                            (Queue.new (Some 3))))
  = [Sample.event "a"; Sample.event "b"; Sample.event "c"].
Proof.
  destruct (fifo_dequeue (Some 3)
              [Sample.event "a"; Sample.event "b"; Sample.event "c"] 5)
    as (_ & _ & _ & _ & _ & _ & Hexact).
  apply Hexact; vm_compute; discriminate.
Defined.

(** ** The batch dispatcher *)

Lemma sendBatch_body (E : Env) (cfg : LogSentinelConfig) (batch : LogBatch)
  (attempt : Z) (w : World) :
  sendBatch E cfg batch attempt w
  = match sendBatch_notices E cfg batch w with
    | (Throws e, w1) => (Throws e, w1)
    | (Returns _, w1) =>
        match sendBatch_try E cfg batch w1 with
        | (Returns _, w2) => (Returns tt, w2)
        | (Throws error, w2) =>
            if Z_lt_dec attempt maxAttempts
            then sendBatch E cfg batch (attempt + 1)
                   (emit (Delay (2 ^ attempt * 1000))
                      (debug_log cfg "Retrying"
                         (debug_error cfg "Batch send failed" w2)))
            else (Throws error, debug_error cfg "Batch send failed" w2)
        end
    end.
Proof.
  simp sendBatch.
  destruct (sendBatch_notices E cfg batch w) as [[u|e] w1]; simpl; [|reflexivity].
  destruct (sendBatch_try E cfg batch w1) as [[u'|error] w2]; simpl; [reflexivity|].
  destruct (Z_lt_dec attempt maxAttempts); reflexivity.
Qed.

(** *** How the dispatcher moves the world on *)

Lemma appended_nil (w : World) : appended [] 0 0 w = w.
Proof. destruct w. unfold appended. simpl. now rewrite app_nil_r. Qed.

Lemma appended_appended (t1 t2 : list Event) (n1 n2 m1 m2 : nat) (w : World) :
  appended t2 n2 m2 (appended t1 n1 m1 w) = appended (t1 ++ t2) (n2 + n1) (m2 + m1) w.
Proof.
  unfold appended. simpl. f_equal; try lia. now rewrite app_assoc.
Qed.

Lemma emit_appended (ev : Event) (w : World) : emit ev w = appended [ev] 0 0 w.
Proof. reflexivity. Qed.

Lemma network_app (t1 t2 : list Event) :
  network (t1 ++ t2) = network t1 ++ network t2.
Proof. apply filter_app. Qed.

Lemma debug_log_appended (cfg : LogSentinelConfig) (label : string) (w : World) :
  exists tr, debug_log cfg label w = appended tr 0 0 w
             /\ network tr = [] /\ Forall (fun ev => is_network ev = false) tr.
Proof.
  unfold debug_log. destruct (debug cfg) as [[|]|].
  - exists [ConsoleLog label]. repeat split. now constructor.
  - exists []. now rewrite appended_nil.
  - exists []. now rewrite appended_nil.
Qed.

Lemma debug_error_appended (cfg : LogSentinelConfig) (label : string) (w : World) :
  exists tr, debug_error cfg label w = appended tr 0 0 w
             /\ network tr = [] /\ Forall (fun ev => is_network ev = false) tr.
Proof.
  unfold debug_error. destruct (debug cfg) as [[|]|].
  - exists [ConsoleError label]. repeat split. now constructor.
  - exists []. now rewrite appended_nil.
  - exists []. now rewrite appended_nil.
Qed.

(** With a batch that is not empty the notices are only notices. *)
Lemma sendBatch_notices_appended
  (E : Env) (cfg : LogSentinelConfig) (batch : LogBatch) (w : World) :
  logs batch <> [] ->
  exists tr, sendBatch_notices E cfg batch w = (Returns tt, appended tr 0 0 w)
             /\ network tr = [] /\ Forall (fun ev => is_network ev = false) tr.
Proof.
  intros Hne. unfold sendBatch_notices.
  destruct (debug cfg) as [[|]|];
    try (exists []; rewrite appended_nil; repeat split; constructor).
  destruct (logs batch) as [|sampleLog rest]; [contradiction|].
  destruct (falsy (requestBody sampleLog)); destruct (verboseDebug E);
    rewrite !emit_appended, !appended_appended.
  all: eexists; (split; [reflexivity|]).
  all: split; [reflexivity | simpl; repeat constructor].
Qed.

(** The [try] block issues one request and ends as the transport says. *)
Lemma sendBatch_try_appended
  (E : Env) (cfg : LogSentinelConfig) (batch : LogBatch) (w : World) :
  exists tr,
    sendBatch_try E cfg batch w
    = (if succeeds (transport E (fetches w)) then Returns tt
       else Throws (failure (transport E (fetches w))),
       appended (request cfg batch :: tr) 1 0 w)
    /\ network tr = [] /\ Forall (fun ev => is_network ev = false) tr.
Proof.
  unfold sendBatch_try. cbv zeta.
  change (mkWorld (S (fetches w)) (draws w) (batches w) (timers w) (intervals w)
            (trace w ++ [Fetch (baseUrl cfg) ("Bearer " ++ apiKey cfg) batch]))
    with (appended [request cfg batch] 1 0 w).
  destruct (transport E (fetches w)) as [status statusText|e]; simpl succeeds.
  - destruct (ok status).
    + destruct (debug_log_appended cfg "Batch sent successfully"
                  (appended [request cfg batch] 1 0 w)) as (tr & -> & Hn & Hc).
      exists tr. rewrite appended_appended. now split.
    + exists []. repeat split. constructor.
  - exists []. repeat split. constructor.
Qed.

Section OneAttempt.
Variable E : Env.
Variable cfg : LogSentinelConfig.
Variable batch : LogBatch.
Hypothesis batch_not_empty : logs batch <> [].

(** An attempt that goes through ends [sendBatch]. *)
Lemma sendBatch_success (attempt : Z) (w : World) :
  succeeds (transport E (fetches w)) = true ->
  exists tr,
    sendBatch E cfg batch attempt w = (Returns tt, appended tr 1 0 w)
    /\ network tr = [request cfg batch].
Proof.
  intros Hok. rewrite sendBatch_body.
  destruct (sendBatch_notices_appended E cfg batch w batch_not_empty)
    as (t0 & -> & Hn0 & _).
  destruct (sendBatch_try_appended E cfg batch (appended t0 0 0 w))
    as (t1 & -> & Hn1 & _).
  simpl fetches. rewrite Hok, appended_appended.
  eexists. split; [reflexivity|].
  rewrite network_app, Hn0. simpl. now rewrite Hn1.
Qed.

(** A failed attempt before the last waits [2 ^ attempt] seconds and goes
    on with the next attempt. *)
Lemma sendBatch_retry (attempt : Z) (w : World) :
  succeeds (transport E (fetches w)) = false ->
  attempt < maxAttempts ->
  exists tr,
    sendBatch E cfg batch attempt w
    = sendBatch E cfg batch (attempt + 1) (appended tr 1 0 w)
    /\ network tr = [request cfg batch; Delay (2 ^ attempt * 1000)].
Proof.
  intros Hko Hlt. rewrite sendBatch_body.
  destruct (sendBatch_notices_appended E cfg batch w batch_not_empty)
    as (t0 & -> & Hn0 & _).
  destruct (sendBatch_try_appended E cfg batch (appended t0 0 0 w))
    as (t1 & -> & Hn1 & _).
  simpl fetches. rewrite Hko.
  destruct (Z_lt_dec attempt maxAttempts) as [_|Hge]; [|contradiction].
  destruct (debug_error_appended cfg "Batch send failed"
              (appended (request cfg batch :: t1) 1 0 (appended t0 0 0 w)))
    as (t2 & -> & Hn2 & _).
  destruct (debug_log_appended cfg "Retrying"
              (appended t2 0 0
                 (appended (request cfg batch :: t1) 1 0 (appended t0 0 0 w))))
    as (t3 & -> & Hn3 & _).
  rewrite emit_appended, !appended_appended.
  eexists. split; [reflexivity|].
  rewrite !network_app, Hn0, Hn2, Hn3. simpl. now rewrite Hn1.
Qed.

(** A failed last attempt surfaces its error. *)
Lemma sendBatch_give_up (attempt : Z) (w : World) :
  succeeds (transport E (fetches w)) = false ->
  maxAttempts <= attempt ->
  exists tr,
    sendBatch E cfg batch attempt w
    = (Throws (failure (transport E (fetches w))), appended tr 1 0 w)
    /\ network tr = [request cfg batch].
Proof.
  intros Hko Hge. rewrite sendBatch_body.
  destruct (sendBatch_notices_appended E cfg batch w batch_not_empty)
    as (t0 & -> & Hn0 & _).
  destruct (sendBatch_try_appended E cfg batch (appended t0 0 0 w))
    as (t1 & -> & Hn1 & _).
  simpl fetches. rewrite Hko.
  destruct (Z_lt_dec attempt maxAttempts) as [Hlt|_]; [lia|].
  destruct (debug_error_appended cfg "Batch send failed"
              (appended (request cfg batch :: t1) 1 0 (appended t0 0 0 w)))
    as (t2 & -> & Hn2 & _).
  rewrite !appended_appended.
  eexists. split; [reflexivity|].
  rewrite !network_app, Hn0, Hn2. simpl. now rewrite Hn1.
Qed.

(** Whatever the transport does, [sendBatch] ends, having issued requests
    for this batch and waits, and nothing else on the network. *)
Lemma sendBatch_appended (attempt : Z) (w : World) :
  exists r tr n,
    sendBatch E cfg batch attempt w = (r, appended tr n 0 w)
    /\ Forall (fun ev => ev = request cfg batch \/ exists ms, ev = Delay ms)
              (network tr).
Proof.
  remember (attempts_left attempt) as k eqn:Hk.
  revert attempt w Hk. induction k as [k IH] using lt_wf_ind. intros attempt w Hk.
  destruct (succeeds (transport E (fetches w))) eqn:Hs.
  - destruct (sendBatch_success attempt w Hs) as (tr & -> & Hn).
    exists (Returns tt), tr, 1%nat. split; [reflexivity|].
    rewrite Hn. constructor; [now left | constructor].
  - destruct (Z_lt_dec attempt maxAttempts) as [Hlt|Hge].
    + destruct (sendBatch_retry attempt w Hs Hlt) as (t1 & -> & Hn1).
      destruct (IH (attempts_left (attempt + 1))
                  ltac:(subst k; unfold attempts_left, maxAttempts in *; lia)
                  (attempt + 1) (appended t1 1 0 w) eq_refl)
        as (r & t2 & n & -> & Hn2).
      exists r, (t1 ++ t2), (n + 1)%nat. rewrite appended_appended.
      split; [reflexivity|].
      rewrite network_app, Hn1. apply Forall_app. split; [|exact Hn2].
      constructor; [now left|]. constructor; [right; now eexists|]. constructor.
    + destruct (sendBatch_give_up attempt w Hs ltac:(lia)) as (tr & -> & Hn).
      eexists _, tr, 1%nat. split; [reflexivity|].
      rewrite Hn. constructor; [now left | constructor].
Qed.
End OneAttempt.

(** C5.  Retry and backoff schedule, as the code runs it.  With a
    transport that fails on the first two attempts and succeeds on the
    third, [sendBatch] makes exactly 3 send attempts and completes without
    error, waiting [2 ^ attempt] seconds after a failed attempt: 2000 ms
    after the first failure and 4000 ms after the second, where the claim
    and the comment in the source give 1 s and 2 s. *)
Theorem sendBatch_retry_schedule
  (E : Env) (cfg : LogSentinelConfig) (batch : LogBatch) (w : World) :
  logs batch <> [] ->
  succeeds (transport E (fetches w)) = false ->
  succeeds (transport E (1 + fetches w)) = false ->
  succeeds (transport E (2 + fetches w)) = true ->
  exists tr,
    sendBatch E cfg batch 1 w = (Returns tt, appended tr 3 0 w)
    /\ network tr
       = [ request cfg batch; Delay 2000;
           request cfg batch; Delay 4000;
           request cfg batch ].
Proof.
  intros Hne H1 H2 H3.
  destruct (sendBatch_retry E cfg batch Hne 1 w H1 ltac:(reflexivity))
    as (t1 & -> & Hn1).
  destruct (sendBatch_retry E cfg batch Hne (1 + 1) (appended t1 1 0 w) H2
              ltac:(reflexivity))
    as (t2 & -> & Hn2).
  destruct (sendBatch_success E cfg batch Hne (1 + 1 + 1)
              (appended t2 1 0 (appended t1 1 0 w)) H3)
    as (t3 & -> & Hn3).
  rewrite !appended_appended.
  eexists. split; [reflexivity|].
  now rewrite !network_app, Hn1, Hn2, Hn3.
Qed.

Lemma sendBatch_retry_schedule_witness :
  network (trace (snd (sendBatch Sample.flaky Sample.settings
                         (mkBatch [Sample.event "a"] "batch_1" "now") 1
                         Sample.idle)))
  = [ request Sample.settings (mkBatch [Sample.event "a"] "batch_1" "now");
      Delay 2000;
      request Sample.settings (mkBatch [Sample.event "a"] "batch_1" "now");
      Delay 4000;
      request Sample.settings (mkBatch [Sample.event "a"] "batch_1" "now") ].
Proof.
  destruct (sendBatch_retry_schedule
              Sample.flaky Sample.settings
              (mkBatch [Sample.event "a"] "batch_1" "now") Sample.idle
              ltac:(discriminate) eq_refl eq_refl eq_refl)
    as (tr & -> & Hn).
  exact Hn.
Defined.

(** *** [flush] *)

Lemma batch_counted (w : World) :
  mkWorld (fetches w) (draws w) (S (batches w)) (timers w) (intervals w) (trace w)
  = appended [] 0 1 w.
Proof. unfold appended. simpl. now rewrite app_nil_r. Qed.

Lemma flush_empty (E : Env) (this : LogSentinelClient) (w : World) :
  Queue.isEmpty (logQueue this) = true ->
  Client.flush E this w = (Returns tt, this, w).
Proof. unfold Client.flush. now intros ->. Qed.

(** The promise of [flush] never rejects. *)
Lemma flush_returns (E : Env) (this : LogSentinelClient) (w : World) :
  fst (fst (Client.flush E this w)) = Returns tt.
Proof.
  unfold Client.flush.
  destruct (Queue.isEmpty (logQueue this)); [reflexivity|].
  destruct (Queue.dequeue _ _) as [logs q].
  destruct logs as [|x logs]; [reflexivity|].
  destruct (sendBatch _ _ _ _ _) as [[u|error] w2]; reflexivity.
Qed.

(** What [flush] does with a queue that is not empty and a positive
    [batchSize]: it takes the oldest events, at least one, and hands them
    to [sendBatch] as one batch. *)
Lemma flush_sends (E : Env) (this : LogSentinelClient) (w : World) (b : Z) :
  Queue.isEmpty (logQueue this) = false ->
  batchSize (config this) = Some b ->
  0 < b ->
  let batch := mkBatch (firstn (Z.to_nat b) (queue (logQueue this)))
                       (generateBatchId E (batches w))
                       (toISOString E (batches w)) in
  let this1 := Client.with_queue (snd (Queue.dequeue b (logQueue this))) this in
  logs batch <> []
  /\ Client.flush E this w
     = match sendBatch E (config this) batch 1 (appended [] 0 1 w) with
       | (Returns _, w2) => (Returns tt, this1, w2)
       | (Throws error, w2) =>
           (Returns tt, this1,
            emit (ConsoleWarn ("[LogSentinel] Failed to send batch: "
                               ++ errMessage error)) w2)
       end.
Proof.
  intros Hne Hb Hpos batch this1.
  assert (Hlogs : logs batch <> []).
  { unfold Queue.isEmpty, Queue.size in Hne. apply Z.eqb_neq in Hne.
    subst batch. simpl.
    destruct (queue (logQueue this)) as [|x l]; [simpl in Hne; lia|].
    destruct (Z.to_nat b) eqn:Hn; [lia | discriminate]. }
  split; [exact Hlogs|].
  unfold Client.flush. rewrite Hne, Hb. simpl Client.number_or_zero.
  unfold Queue.dequeue at 1. subst this1. simpl snd.
  subst batch. simpl in Hlogs.
  destruct (firstn (Z.to_nat b) (queue (logQueue this))) as [|x l] eqn:Hf;
    [contradiction|].
  now rewrite batch_counted.
Qed.

(** C6.  Exhausted retries.  With a transport that fails on every attempt,
    a response that is not [ok] counting as a failure like a transport
    error, [sendBatch] makes exactly 3 attempts and then surfaces the
    failure of the third; [flush] catches it, warns, and drops the batch:
    the client is left with the queue as [dequeue] left it, the dequeued
    events are not put back; and [flush] never rejects, whatever the
    transport does. *)
Theorem flush_exhausted_retries
  (E : Env) (this : LogSentinelClient) (w : World) (b : Z) :
  (forall k, succeeds (transport E k) = false) ->
  Queue.isEmpty (logQueue this) = false ->
  batchSize (config this) = Some b ->
  0 < b ->
  let batch := mkBatch (firstn (Z.to_nat b) (queue (logQueue this)))
                       (generateBatchId E (batches w))
                       (toISOString E (batches w)) in
  let error := failure (transport E (2 + fetches w)) in
  let schedule := [ request (config this) batch; Delay 2000;
                    request (config this) batch; Delay 4000;
                    request (config this) batch ] in
  (exists tr,
     sendBatch E (config this) batch 1 w = (Throws error, appended tr 3 0 w)
     /\ network tr = schedule)
  /\ (exists tr this',
        Client.flush E this w
        = (Returns tt, this',
           appended (tr ++ [ConsoleWarn ("[LogSentinel] Failed to send batch: "
                                         ++ errMessage error)]) 3 1 w)
        /\ network tr = schedule
        /\ config this' = config this
        /\ logQueue this' = snd (Queue.dequeue b (logQueue this))
        /\ queue (logQueue this')
           = skipn (Z.to_nat b) (queue (logQueue this)))
  /\ (forall E' this' w', fst (fst (Client.flush E' this' w')) = Returns tt).
Proof.
  intros Hfail Hne Hb Hpos batch error schedule.
  destruct (flush_sends E this w b Hne Hb Hpos) as (Hlogs & Hflush).
  fold batch in Hlogs, Hflush.
  assert (Hsend : forall w0,
            exists tr,
              sendBatch E (config this) batch 1 w0
              = (Throws (failure (transport E (2 + fetches w0))),
                 appended tr 3 0 w0)
              /\ network tr = schedule).
  { intros w0.
    destruct (sendBatch_retry E (config this) batch Hlogs 1 w0 (Hfail _)
                ltac:(reflexivity)) as (t1 & -> & Hn1).
    destruct (sendBatch_retry E (config this) batch Hlogs (1 + 1)
                (appended t1 1 0 w0) (Hfail _) ltac:(reflexivity))
      as (t2 & -> & Hn2).
    destruct (sendBatch_give_up E (config this) batch Hlogs (1 + 1 + 1)
                (appended t2 1 0 (appended t1 1 0 w0)) (Hfail _)
                ltac:(unfold maxAttempts; lia))
      as (t3 & -> & Hn3).
    rewrite !appended_appended.
    eexists. split; [reflexivity|].
    now rewrite !network_app, Hn1, Hn2, Hn3. }
  split; [apply Hsend|]. split; [|intros; apply flush_returns].
  destruct (Hsend (appended [] 0 1 w)) as (tr & Htr & Hn).
  rewrite Htr in Hflush.
  exists tr, (Client.with_queue (snd (Queue.dequeue b (logQueue this))) this).
  split; [|repeat split; trivial].
  rewrite Hflush, emit_appended, !appended_appended. reflexivity.
Qed.

Lemma flush_exhausted_retries_witness :
  let this := mkClient Sample.settings
                (mkQueue [Sample.event "a"; Sample.event "b"] 1000) (Some 0%nat) in
  fst (fst (Client.flush Sample.unavailable this Sample.idle)) = Returns tt
  /\ queue (logQueue (snd (fst (Client.flush Sample.unavailable this Sample.idle))))
     = []
  /\ fetches (snd (Client.flush Sample.unavailable this Sample.idle)) = 3%nat.
Proof.
  intros this.
  destruct (flush_exhausted_retries Sample.unavailable this Sample.idle 10
              ltac:(reflexivity) eq_refl eq_refl ltac:(reflexivity))
    as (_ & (tr & this' & Hflush & _ & _ & _ & Hq) & _).
  rewrite Hflush. simpl. split; [reflexivity|]. split; [exact Hq | reflexivity].
Defined.

(** *** Every batch sent is within bounds *)

Lemma batch_within_incl (cfgs cfgs' : list LogSentinelConfig) (ev : Event) :
  (forall cfg, In cfg cfgs -> In cfg cfgs') ->
  batch_within cfgs ev -> batch_within cfgs' ev.
Proof.
  intros Hincl. destruct ev; simpl; trivial.
  intros (Hlen & cfg & b & Hin & Hb & Hle). split; [exact Hlen|].
  exists cfg, b. auto.
Qed.

Lemma batch_within_network (cfgs : list LogSentinelConfig) (req : Event)
  (tr : list Event) :
  batch_within cfgs req ->
  Forall (fun ev => ev = req \/ exists ms, ev = Delay ms) (network tr) ->
  Forall (batch_within cfgs) tr.
Proof.
  intros Hreq. induction tr as [|ev tr IH]; intros Hall; [constructor|].
  unfold network in Hall. simpl in Hall.
  destruct (is_network ev) eqn:Hnet.
  - inversion Hall as [|? ? Hev Hrest]; subst. constructor; [|now apply IH].
    destruct Hev as [-> | (ms & ->)]; [exact Hreq | exact I].
  - constructor; [|now apply IH].
    destruct ev; try exact I; discriminate.
Qed.

(** The batch [flush] builds is within the client's [batchSize]. *)
Lemma flush_batch_within (E : Env) (cfg : LogSentinelConfig)
  (l : list LogPayload) (x : LogPayload) (rest : list LogPayload)
  (id at_ : string) :
  firstn (Z.to_nat (Client.number_or_zero (batchSize cfg))) l = x :: rest ->
  batch_within [cfg] (request cfg (mkBatch (x :: rest) id at_)).
Proof.
  intros Hf. simpl. split; [lia|].
  destruct (batchSize cfg) as [b|] eqn:Hb; simpl in Hf; [|discriminate].
  exists cfg, b. split; [now left|]. split; [exact Hb|].
  pose proof (length_firstn (Z.to_nat b) l) as Hlen.
  rewrite Hf in Hlen. simpl in Hlen. lia.
Qed.

(** All that [flush] does: it resolves, touches neither the configuration
    nor the timer of the client, and moves the world on by requests that
    carry batches within bounds. *)
Lemma flush_appended (E : Env) (this : LogSentinelClient) (w : World) :
  exists this' tr n m,
    Client.flush E this w = (Returns tt, this', appended tr n m w)
    /\ config this' = config this
    /\ flushTimer this' = flushTimer this
    /\ Forall (batch_within [config this]) tr.
Proof.
  unfold Client.flush.
  destruct (Queue.isEmpty (logQueue this)).
  { exists this, [], 0%nat, 0%nat. rewrite appended_nil. repeat split. constructor. }
  unfold Queue.dequeue.
  destruct (firstn _ (queue (logQueue this))) as [|x rest] eqn:Hf.
  { eexists _, [], 0%nat, 0%nat. rewrite appended_nil. repeat split. constructor. }
  rewrite batch_counted.
  set (batch := mkBatch (x :: rest) _ _).
  assert (Hreq : batch_within [config this] (request (config this) batch))
    by (eapply flush_batch_within; eauto).
  destruct (sendBatch_appended E (config this) batch ltac:(discriminate) 1
              (appended [] 0 1 w)) as (r & tr & n & -> & Hall).
  pose proof (batch_within_network _ _ _ Hreq Hall) as Htr.
  destruct r as [u|error].
  - rewrite appended_appended. eexists _, _, _, _.
    split; [reflexivity|]. repeat split. exact Htr.
  - rewrite emit_appended, !appended_appended. eexists _, _, _, _.
    split; [reflexivity|]. repeat split. simpl.
    apply Forall_app. split; [exact Htr|]. repeat constructor.
Qed.

Lemma debug_log_trace (cfg : LogSentinelConfig) (label : string) (w : World) :
  exists tr, debug_log cfg label w = appended tr 0 0 w
             /\ Forall (batch_within [cfg]) tr.
Proof.
  destruct (debug_log_appended cfg label w) as (tr & Htr & _ & Hc).
  exists tr. split; [exact Htr|].
  eapply Forall_impl; [|exact Hc].
  intros ev Hev. destruct ev; try exact I; discriminate.
Qed.

Lemma destroy_well_behaved (E : Env) : well_behaved (destroy_method E).
Proof.
  intros c w. unfold destroy_method, Client.destroy.
  set (w1 := match flushTimer c with
             | Some id => Client.clearInterval id w
             | None => w
             end).
  assert (Hw1 : exists t1, trace w1 = trace w ++ t1
                           /\ Forall (batch_within [config c]) t1).
  { subst w1. destruct (flushTimer c) as [id|].
    - exists [ClearInterval id]. split; [reflexivity | repeat constructor].
    - exists []. split; [now rewrite app_nil_r | constructor]. }
  destruct Hw1 as (t1 & Ht1 & Hall1).
  destruct (flush_appended E c w1) as (c' & tr & n & m & -> & Hc & Ht & Hall).
  simpl. repeat split; trivial.
  exists (t1 ++ tr). rewrite Ht1, <- app_assoc. split; [reflexivity|].
  apply Forall_app. now split.
Qed.

Lemma tick_well_behaved (E : Env) : well_behaved (Client.tick E).
Proof.
  intros c w. unfold Client.tick.
  assert (Hidle : config (fst (c, w)) = config c
                  /\ flushTimer (fst (c, w)) = flushTimer c
                  /\ exists tr, trace (snd (c, w)) = trace w ++ tr
                                /\ Forall (batch_within [config c]) tr).
  { repeat split. exists []. split; [simpl; now rewrite app_nil_r | constructor]. }
  destruct (flushTimer c) as [id|] eqn:Hid; [|exact Hidle].
  destruct (existsb (Nat.eqb id) (intervals w)); [|exact Hidle].
  destruct (flush_appended E c w) as (c' & tr & n & m & -> & Hc & Ht & Hall).
  simpl. repeat split; trivial.
  - congruence.
  - now exists tr.
Qed.

Lemma log_well_behaved (E : Env) (payload : LogPayload) :
  well_behaved (Client.log E payload).
Proof.
  intros c w. unfold Client.log.
  set (w0 := mkWorld _ _ _ _ _ _).
  destruct (Client.gt_opt _ _).
  { destruct (debug_log_trace (config c) "Log skipped (sampling)" w0)
      as (tr & -> & Hall).
    simpl. repeat split. now exists tr. }
  destruct (Queue.enqueue payload (logQueue c)) as [q warned] eqn:Henq.
  assert (Hwarned : Forall (batch_within [config c]) warned).
  { unfold Queue.enqueue in Henq.
    destruct (Queue.size (logQueue c) >=? maxSize (logQueue c));
      injection Henq as <- <-; repeat constructor. }
  assert (Hemit : forall evs w', trace (emit_all evs w') = trace w' ++ evs).
  { induction evs as [|ev evs IH]; intros w'; simpl.
    - now rewrite app_nil_r.
    - rewrite IH. simpl. now rewrite <- app_assoc. }
  destruct (debug_log_trace (config c) "Log queued" (emit_all warned w0))
    as (t1 & Ht1 & Hall1).
  rewrite Ht1.
  destruct (Client.ge_opt _ _).
  - destruct (debug_log_trace (config c) "Batch size reached, flushing immediately"
                (appended t1 0 0 (emit_all warned w0))) as (t2 & -> & Hall2).
    destruct (flush_appended E (Client.with_queue q c)
                (appended t2 0 0 (appended t1 0 0 (emit_all warned w0))))
      as (c' & tr & n & m & -> & Hc & Ht & Hall).
    simpl in *. repeat split; trivial.
    exists (warned ++ t1 ++ t2 ++ tr).
    rewrite Hemit; subst w0; cbn [trace]; rewrite <- !app_assoc. split; [reflexivity|].
    repeat (apply Forall_app; split); trivial.
  - simpl. repeat split.
    exists (warned ++ t1). rewrite Hemit; subst w0; cbn [trace]; rewrite <- !app_assoc.
    split; [reflexivity|]. apply Forall_app. now split.
Qed.

(** ** The process and its singleton *)

Lemma store_configs (r : nat) (c c' : LogSentinelClient) : forall h,
  nth_error h r = Some c -> config c' = config c ->
  map config (store r c' h) = map config h.
Proof.
  induction r as [|r IH]; intros [|x h]; simpl; try discriminate.
  - intros [= ->] Hc. now rewrite Hc.
  - intros Hn Hc. f_equal. now apply IH.
Qed.

Lemma store_lookup (r : nat) (c c' : LogSentinelClient) : forall h,
  nth_error h r = Some c -> nth_error (store r c' h) r = Some c'.
Proof.
  induction r as [|r IH]; intros [|x h]; simpl; try discriminate.
  - reflexivity.
  - apply IH.
Qed.

Lemma config_at_configs (r : nat) (p : Process) :
  config_at r p = nth_error (map config (heap p)) r.
Proof. unfold config_at. now rewrite nth_error_map. Qed.

(** A well-behaved method run on a client of the process. *)
Lemma on_client_well_behaved
  (m : LogSentinelClient -> World -> LogSentinelClient * World)
  (r : nat) (p : Process) :
  well_behaved m ->
  clientInstance (on_client r m p) = clientInstance p
  /\ map config (heap (on_client r m p)) = map config (heap p)
  /\ exists tr, trace (world (on_client r m p)) = trace (world p) ++ tr
                /\ Forall (batch_within (map config (heap p))) tr.
Proof.
  intros Hm. unfold on_client.
  destruct (nth_error (heap p) r) as [c|] eqn:Hr.
  - destruct (Hm c (world p)) as (Hc & _ & tr & Htr & Hall).
    destruct (m c (world p)) as [c' w']. simpl in *.
    split; [reflexivity|]. split; [eapply store_configs; eauto|].
    exists tr. split; [exact Htr|].
    eapply Forall_impl; [|exact Hall].
    intros ev. apply batch_within_incl.
    intros cfg [<- | []]. apply in_map. eapply nth_error_In; eauto.
  - split; [reflexivity|]. split; [reflexivity|].
    exists []. split; [now rewrite app_nil_r | constructor].
Qed.

(** [new LogSentinelClient(cfg)] operates under [cfg], holds a fresh timer,
    and sends nothing. *)
Lemma new_client (cfg : LogSentinelConfig) (w : World) :
  config (fst (Client.new cfg w)) = cfg
  /\ flushTimer (fst (Client.new cfg w)) = Some (timers w)
  /\ exists tr, trace (snd (Client.new cfg w)) = trace w ++ tr
                /\ Forall (fun ev => is_network ev = false) tr.
Proof.
  unfold Client.new, Client.startBatchFlusher.
  destruct (debug_log_appended cfg "Client initialized" w) as (tr & -> & _ & Hc).
  simpl. repeat split.
  exists (tr ++ [SetInterval (timers w) (batchInterval cfg)]).
  rewrite app_assoc. split; [reflexivity|].
  apply Forall_app. split; [exact Hc | repeat constructor].
Qed.

Lemma getClient_existing (cfg : LogSentinelConfig) (p : Process) (r : nat) :
  clientInstance p = Some r -> getClient cfg p = (r, p).
Proof. unfold getClient. now intros ->. Qed.

Lemma getClient_fresh (cfg : LogSentinelConfig) (p : Process) :
  clientInstance p = None ->
  fst (getClient cfg p) = List.length (heap p)
  /\ clientInstance (snd (getClient cfg p)) = Some (List.length (heap p))
  /\ map config (heap (snd (getClient cfg p))) = map config (heap p) ++ [cfg]
  /\ exists tr, trace (world (snd (getClient cfg p))) = trace (world p) ++ tr
                /\ Forall (fun ev => is_network ev = false) tr.
Proof.
  intros Hnone. unfold getClient. rewrite Hnone.
  destruct (new_client cfg (world p)) as (Hc & _ & tr & Htr & Hall).
  destruct (Client.new cfg (world p)) as [c w']. simpl in *.
  repeat split; trivial.
  - rewrite map_app. simpl. now rewrite Hc.
  - now exists tr.
Qed.

Lemma resetClient_configs (E : Env) (p : Process) :
  clientInstance (resetClient E p) = None
  /\ map config (heap (resetClient E p)) = map config (heap p)
  /\ exists tr, trace (world (resetClient E p)) = trace (world p) ++ tr
                /\ Forall (batch_within (map config (heap p))) tr.
Proof.
  unfold resetClient. destruct (clientInstance p) as [r|] eqn:Hr.
  - destruct (on_client_well_behaved (destroy_method E) r p
                (destroy_well_behaved E)) as (_ & Hh & Htr).
    simpl. split; [reflexivity|]. now split.
  - split; [exact Hr|]. split; [reflexivity|].
    exists []. split; [now rewrite app_nil_r | constructor].
Qed.

(** One call: the configurations of the clients allocated so far stay as
    they are, a new client may join them, and the trace grows by requests
    within bounds. *)
Lemma step_configs (E : Env) (c : Call) (p : Process) :
  exists more tr,
    map config (heap (step E c p)) = map config (heap p) ++ more
    /\ trace (world (step E c p)) = trace (world p) ++ tr
    /\ Forall (batch_within (map config (heap p))) tr.
Proof.
  destruct c as [cfg| |r payload|r|r]; simpl.
  - destruct (clientInstance p) as [r|] eqn:Hr.
    + rewrite (getClient_existing cfg p r Hr). simpl.
      exists [], []. rewrite !app_nil_r. repeat split. constructor.
    + destruct (getClient_fresh cfg p Hr) as (_ & _ & Hh & tr & Htr & Hall).
      exists [cfg], tr. repeat split; trivial.
      eapply Forall_impl; [|exact Hall].
      intros ev Hev. destruct ev; try exact I; discriminate.
  - destruct (resetClient_configs E p) as (_ & Hh & tr & Htr & Hall).
    exists [], tr. rewrite app_nil_r. now repeat split.
  - destruct (on_client_well_behaved (Client.log E payload) r p
                (log_well_behaved E payload)) as (_ & Hh & tr & Htr & Hall).
    exists [], tr. rewrite app_nil_r. now repeat split.
  - destruct (on_client_well_behaved (destroy_method E) r p
                (destroy_well_behaved E)) as (_ & Hh & tr & Htr & Hall).
    exists [], tr. rewrite app_nil_r. now repeat split.
  - destruct (on_client_well_behaved (Client.tick E) r p
                (tick_well_behaved E)) as (_ & Hh & tr & Htr & Hall).
    exists [], tr. rewrite app_nil_r. now repeat split.
Qed.

Lemma run_cons (E : Env) (c : Call) (calls : list Call) (p : Process) :
  run E (c :: calls) p = run E calls (step E c p).
Proof. reflexivity. Qed.

Lemma run_bounded (E : Env) (calls : list Call) : forall p,
  Forall (batch_within (map config (heap p))) (trace (world p)) ->
  Forall (batch_within (map config (heap (run E calls p))))
         (trace (world (run E calls p))).
Proof.
  induction calls as [|c calls IH]; intros p Hp; [exact Hp|].
  rewrite run_cons. apply IH.
  destruct (step_configs E c p) as (more & tr & -> & -> & Hall).
  apply Forall_app. split.
  - eapply Forall_impl; [|exact Hp].
    intros ev. apply batch_within_incl. intros cfg Hin. apply in_or_app. now left.
  - eapply Forall_impl; [|exact Hall].
    intros ev. apply batch_within_incl. intros cfg Hin. apply in_or_app. now left.
Qed.

(** C8.  Empty-flush no-op and non-empty batches.  [flush()] on an empty
    queue returns at once: the client and the world are as before, no batch
    is built and no request is made.  Every request [flush] makes carries a
    batch of at least 1 and at most [batchSize] events; and so does every
    request ever made by a process that started with no client, whatever
    calls it went through. *)
Theorem batches_never_empty (E : Env) :
  (forall this w,
     Queue.isEmpty (logQueue this) = true ->
     Client.flush E this w = (Returns tt, this, w))
  /\ (forall this w,
        exists this' tr n m,
          Client.flush E this w = (Returns tt, this', appended tr n m w)
          /\ forall url bearer batch,
               In (Fetch url bearer batch) tr ->
               (1 <= List.length (logs batch))%nat
               /\ exists b, batchSize (config this) = Some b
                            /\ Z.of_nat (List.length (logs batch)) <= b)
  /\ (forall calls url bearer batch,
        In (Fetch url bearer batch) (trace (world (run E calls initial))) ->
        (1 <= List.length (logs batch))%nat
        /\ exists c b,
             In c (heap (run E calls initial))
             /\ batchSize (config c) = Some b
             /\ Z.of_nat (List.length (logs batch)) <= b).
Proof.
  split; [intros this w; apply flush_empty|]. split.
  - intros this w.
    destruct (flush_appended E this w) as (this' & tr & n & m & Hf & _ & _ & Hall).
    exists this', tr, n, m. split; [exact Hf|].
    intros url bearer batch Hin.
    rewrite Forall_forall in Hall. specialize (Hall _ Hin). simpl in Hall.
    destruct Hall as (Hlen & cfg & b & [<- | []] & Hb & Hle).
    split; [exact Hlen|]. now exists b.
  - intros calls url bearer batch Hin.
    pose proof (run_bounded E calls initial ltac:(constructor)) as Hall.
    rewrite Forall_forall in Hall. specialize (Hall _ Hin). simpl in Hall.
    destruct Hall as (Hlen & cfg & b & Hcfg & Hb & Hle).
    split; [exact Hlen|].
    apply in_map_iff in Hcfg. destruct Hcfg as (c & <- & Hc).
    now exists c, b.
Qed.

Lemma batches_never_empty_witness :
  Client.flush Sample.flaky
    (mkClient Sample.settings (Queue.new None) None) Sample.idle
  = (Returns tt, mkClient Sample.settings (Queue.new None) None, Sample.idle)
  /\ (forall url bearer batch,
        In (Fetch url bearer batch)
           (trace (world (run Sample.healthy
                            (CallGetClient Sample.settings
                             :: Sample.logged ["1"; "2"; "3"] ++ [TimerFires 0])
                            initial))) ->
        (1 <= List.length (logs batch))%nat).
Proof.
  split.
  - apply (proj1 (batches_never_empty Sample.flaky)). reflexivity.
  - intros url bearer batch Hin.
    exact (proj1 (proj2 (proj2 (batches_never_empty Sample.healthy))
                    _ url bearer batch Hin)).
Defined.

(** *** The singleton *)

(** No call changes the configuration a client operates under. *)
Lemma step_config_at (E : Env) (c : Call) (p : Process) (r : nat)
  (cfg : LogSentinelConfig) :
  config_at r p = Some cfg -> config_at r (step E c p) = Some cfg.
Proof.
  rewrite !config_at_configs.
  destruct (step_configs E c p) as (more & tr & -> & _ & _).
  intros Hr. rewrite nth_error_app1; [exact Hr|].
  apply nth_error_Some. congruence.
Qed.

Lemma run_config_at (E : Env) (calls : list Call) (r : nat)
  (cfg : LogSentinelConfig) : forall p,
  config_at r p = Some cfg -> config_at r (run E calls p) = Some cfg.
Proof.
  induction calls as [|c calls IH]; intros p Hp; [exact Hp|].
  rewrite run_cons. apply IH. now apply step_config_at.
Qed.

(** No call but [resetClient] changes the module variable once it is set. *)
Lemma step_singleton (E : Env) (c : Call) (p : Process) (r : nat) :
  is_reset c = false ->
  clientInstance p = Some r -> clientInstance (step E c p) = Some r.
Proof.
  intros Hc Hr. destruct c as [cfg| |r' payload|r'|r']; simpl;
    try discriminate.
  - now rewrite (getClient_existing cfg p r Hr).
  - now rewrite (proj1 (on_client_well_behaved _ r' p (log_well_behaved E payload))).
  - now rewrite (proj1 (on_client_well_behaved _ r' p (destroy_well_behaved E))).
  - now rewrite (proj1 (on_client_well_behaved _ r' p (tick_well_behaved E))).
Qed.

Lemma run_singleton (E : Env) (calls : list Call) (r : nat) : forall p,
  forallb (fun c => negb (is_reset c)) calls = true ->
  clientInstance p = Some r -> clientInstance (run E calls p) = Some r.
Proof.
  induction calls as [|c calls IH]; intros p Hcalls Hp; [exact Hp|].
  simpl in Hcalls. apply andb_true_iff in Hcalls. destruct Hcalls as [Hc Hcalls].
  rewrite run_cons. apply IH; [exact Hcalls|].
  apply step_singleton; [now apply negb_true_iff | exact Hp].
Qed.

(** [destroy()] clears the interval of the client. *)
Lemma destroy_clears (E : Env) (c : LogSentinelClient) (w : World) (id : nat) :
  flushTimer c = Some id ->
  flushTimer (fst (destroy_method E c w)) = Some id
  /\ ~ In id (intervals (snd (destroy_method E c w))).
Proof.
  intros Hid. unfold destroy_method, Client.destroy. rewrite Hid.
  destruct (flush_appended E c (Client.clearInterval id w))
    as (c' & tr & n & m & -> & _ & Ht & _).
  simpl. split; [congruence|].
  intros Hin. apply filter_In in Hin. destruct Hin as [_ Hne].
  now rewrite Nat.eqb_refl in Hne.
Qed.

(** C10.  Singleton configuration.  Once [getClient(c1)] has built the
    process-wide client, every later [getClient(c2)], whatever [c2] is and
    whatever calls other than [resetClient()] came in between, returns that
    same client and changes nothing: the client still operates under [c1].
    [resetClient()] destroys the client (its interval is cleared) and sets
    the module variable to null; only then does [getClient(c2)] build
    another client, one that operates under [c2]. *)
Theorem singleton_config
  (E : Env) (p : Process) (c1 : LogSentinelConfig) (calls : list Call) :
  clientInstance p = None ->
  forallb (fun c => negb (is_reset c)) calls = true ->
  let r1 := fst (getClient c1 p) in
  let p1 := snd (getClient c1 p) in
  let p2 := run E calls p1 in
  let p3 := resetClient E p2 in
  (clientInstance p1 = Some r1 /\ config_at r1 p1 = Some c1)
  /\ (forall c2, getClient c2 p1 = (r1, p1))
  /\ (clientInstance p2 = Some r1 /\ config_at r1 p2 = Some c1)
  /\ (forall c2, getClient c2 p2 = (r1, p2))
  /\ (clientInstance p3 = None /\ config_at r1 p3 = Some c1)
  /\ (forall c id,
        nth_error (heap p3) r1 = Some c -> flushTimer c = Some id ->
        ~ In id (intervals (world p3)))
  /\ (forall c2,
        let r2 := fst (getClient c2 p3) in
        let p4 := snd (getClient c2 p3) in
        r2 <> r1
        /\ clientInstance p4 = Some r2
        /\ config_at r2 p4 = Some c2
        /\ config_at r1 p4 = Some c1).
Proof.
  intros Hnone Hcalls r1 p1 p2 p3.
  destruct (getClient_fresh c1 p Hnone) as (Hr1 & Hp1 & Hh1 & _).
  fold r1 in Hr1. fold p1 in Hp1, Hh1. rewrite <- Hr1 in Hp1.
  assert (Hc1 : config_at r1 p1 = Some c1).
  { rewrite config_at_configs, Hh1, Hr1, nth_error_app2; rewrite length_map;
      [now rewrite Nat.sub_diag | lia]. }
  assert (Hp2 : clientInstance p2 = Some r1) by (now apply run_singleton).
  assert (Hc2 : config_at r1 p2 = Some c1) by (now apply run_config_at).
  destruct (resetClient_configs E p2) as (Hp3 & Hh3 & _). fold p3 in Hp3, Hh3.
  assert (Hc3 : config_at r1 p3 = Some c1).
  { rewrite config_at_configs, Hh3, <- config_at_configs. exact Hc2. }
  split; [now split|].
  split; [intros c2; now apply getClient_existing|].
  split; [now split|].
  split; [intros c2; now apply getClient_existing|].
  split; [now split|].
  split.
  { intros c id Hc Hid.
    unfold p3, resetClient in *. rewrite Hp2 in *. simpl in *.
    unfold on_client in *.
    destruct (nth_error (heap p2) r1) as [c0|] eqn:Hc0.
    - pose proof (destroy_clears E c0 (world p2)) as Hclear.
      destruct (destroy_well_behaved E c0 (world p2)) as (_ & Hkeep & _).
      destruct (destroy_method E c0 (world p2)) as [c' w']. simpl in *.
      rewrite (store_lookup r1 c0 c' _ Hc0) in Hc. injection Hc as ->.
      rewrite Hid in Hkeep. symmetry in Hkeep.
      exact (proj2 (Hclear id Hkeep)).
    - unfold config_at in Hc2. rewrite Hc0 in Hc2. discriminate. }
  intros c2 r2 p4.
  destruct (getClient_fresh c2 p3 Hp3) as (Hr2 & Hp4 & Hh4 & _).
  fold r2 in Hr2. fold p4 in Hp4, Hh4.
  assert (Hlt : (r1 < List.length (heap p3))%nat).
  { rewrite <- (length_map config). apply nth_error_Some.
    rewrite <- config_at_configs. congruence. }
  split; [lia|]. split; [congruence|]. split.
  - rewrite config_at_configs, Hh4, Hr2, nth_error_app2; rewrite length_map;
      [now rewrite Nat.sub_diag | lia].
  - rewrite config_at_configs, Hh4, nth_error_app1;
      [now rewrite <- config_at_configs | now rewrite length_map].
Qed.

Lemma singleton_config_witness :
  let other := mkConfig "other" "https://elsewhere.example.com" None None
                        (Some 2) None (Some 5) None (Some true) in
  let p1 := snd (getClient Sample.settings initial) in
  getClient other p1 = (0%nat, p1)
  /\ config_at 0 (run Sample.flaky [CallLog 0 (Sample.event "a"); TimerFires 0] p1)
     = Some Sample.settings
  /\ config_at 1 (snd (getClient other (resetClient Sample.flaky p1)))
     = Some other.
Proof.
  intros other p1.
  destruct (singleton_config Sample.flaky initial Sample.settings
              [CallLog 0 (Sample.event "a"); TimerFires 0] eq_refl eq_refl)
    as (_ & Hsame & (_ & Hcfg) & _).
  destruct (singleton_config Sample.flaky initial Sample.settings
              [] eq_refl eq_refl)
    as (_ & _ & _ & _ & _ & _ & Hnext).
  split; [apply Hsame|]. split; [exact Hcfg|].
  exact (proj1 (proj2 (proj2 (Hnext other)))).
Defined.

(** ** The scenarios of the spec, run on the model *)

(** Nine events with [batchSize = 10]: nothing is sent, nine are queued. *)
Lemma scenario_nine_events_no_flush :
  let p := run Sample.healthy
             (CallGetClient Sample.settings
              :: Sample.logged ["1"; "2"; "3"; "4"; "5"; "6"; "7"; "8"; "9"])
             initial in
  network (trace (world p)) = []
  /\ option_map (fun c => Queue.size (logQueue c)) (nth_error (heap p) 0)
     = Some 9.
Proof. vm_compute. split; reflexivity. Qed.

(** The tenth event triggers a flush: one batch of the ten, in order, and
    the queue is empty. *)
Lemma scenario_tenth_event_flushes :
  let p := run Sample.healthy
             (CallGetClient Sample.settings
              :: Sample.logged ["1"; "2"; "3"; "4"; "5"; "6"; "7"; "8"; "9"; "10"])
             initial in
  map (fun ev => match ev with
                 | Fetch _ _ batch => map traceId (logs batch)
                 | _ => []
                 end) (network (trace (world p)))
  = [["1"; "2"; "3"; "4"; "5"; "6"; "7"; "8"; "9"; "10"]]
  /\ option_map (fun c => Queue.size (logQueue c)) (nth_error (heap p) 0)
     = Some 0.
Proof. vm_compute. split; reflexivity. Qed.

(** Three events, then the interval timer fires: one batch of the three. *)
Lemma scenario_timer_sends_partial_batch :
  let p := run Sample.healthy
             (CallGetClient Sample.settings
              :: Sample.logged ["1"; "2"; "3"] ++ [TimerFires 0])
             initial in
  map (fun ev => match ev with
                 | Fetch _ _ batch => map traceId (logs batch)
                 | _ => []
                 end) (network (trace (world p)))
  = [["1"; "2"; "3"]]
  /\ option_map (fun c => Queue.size (logQueue c)) (nth_error (heap p) 0)
     = Some 0.
Proof. vm_compute. split; reflexivity. Qed.

(** The nested object of the repository's test of [sanitizeBody], run on
    the model: [password] is redacted, [apiKey] is not. *)
Lemma scenario_nested_credentials :
  sanitizeBody RefJSON.json
    (JObject
       [("user",
         JObject
           [("name", JString "john");
            ("credentials",
             JObject [("password", JString "secret");
                      ("apiKey", JString "key123")])])])
  = JObject
      [("user",
        JObject
          [("name", JString "john");
           ("credentials",
            JObject [("password", JString "[REDACTED]");
                     ("apiKey", JString "key123")])])].
Proof. vm_compute. reflexivity. Qed.

(** * More of the sanitizer *)

(** ** [sanitizeHeaders] *)

Lemma is_sensitive_header_spec (key : string) :
  is_sensitive_header key = true <-> In (Str.toLowerCase key) sensitiveKeys.
Proof.
  unfold is_sensitive_header. rewrite existsb_exists. split.
  - intros (k & Hin & Hk). apply String.eqb_eq in Hk. now subst.
  - intros Hin. exists (Str.toLowerCase key). split; [exact Hin|].
    apply String.eqb_refl.
Qed.

Lemma set_header_keys (acc : list (string * string)) (k v : string) :
  map fst (set_header acc k v)
  = if existsb (String.eqb k) (map fst acc) then map fst acc
    else map fst acc ++ [k].
Proof.
  induction acc as [|[k' w] acc IH]; simpl; [reflexivity|].
  rewrite (String.eqb_sym k k').
  destruct (String.eqb k' k) eqn:Hk; simpl; [reflexivity|].
  rewrite IH. now destruct (existsb (String.eqb k) (map fst acc)).
Qed.

Lemma set_header_fresh (acc : list (string * string)) (k v : string) :
  existsb (String.eqb k) (map fst acc) = false ->
  set_header acc k v = acc ++ [(k, v)].
Proof.
  induction acc as [|[k' w] acc IH]; simpl; [reflexivity|].
  intros H. apply orb_false_iff in H. destruct H as [Hk Hr].
  rewrite String.eqb_sym, Hk. now rewrite IH.
Qed.

(** The step of the loop of [sanitizeHeaders] sets one header. *)
Lemma sanitizeHeaders_step (acc : list (string * string)) (kv : string * JsValue) :
  (if is_sensitive_header (fst kv) then set_header acc (fst kv) "[REDACTED]"
   else match snd kv with
        | JArray items => set_header acc (fst kv) (array_join ", " items)
        | _ => set_header acc (fst kv) (ToString (snd kv))
        end)
  = set_header acc (fst (sanitize_header kv)) (snd (sanitize_header kv)).
Proof.
  unfold sanitize_header. simpl.
  destruct (is_sensitive_header (fst kv)); [reflexivity|].
  now destruct (snd kv).
Qed.

Lemma sanitizeHeaders_fold (hs : list (string * JsValue)) : forall acc,
  distinct (map fst acc ++ map fst hs) = true ->
  fold_left
    (fun sanitized kv =>
       let key := fst kv in
       let value := snd kv in
       if is_sensitive_header key then set_header sanitized key "[REDACTED]"
       else match value with
            | JArray items => set_header sanitized key (array_join ", " items)
            | _ => set_header sanitized key (ToString value)
            end)
    hs acc
  = acc ++ map sanitize_header hs.
Proof.
  induction hs as [|kv hs IH]; intros acc Hd; simpl.
  - now rewrite app_nil_r.
  - simpl in Hd. apply distinct_app_cons in Hd. destruct Hd as [Hk Hd].
    rewrite sanitizeHeaders_step, set_header_fresh by exact Hk.
    rewrite IH.
    + now rewrite <- app_assoc.
    + rewrite map_app. simpl. exact Hd.
Qed.

Lemma sanitizeHeaders_map (hs : list (string * JsValue)) :
  distinct (map fst hs) = true ->
  sanitizeHeaders hs = map sanitize_header hs.
Proof. intros Hd. unfold sanitizeHeaders. now rewrite sanitizeHeaders_fold. Qed.

Lemma get_header_sanitized (hs : list (string * JsValue)) (key : string) :
  get_header (map sanitize_header hs) key
  = option_map (fun v => snd (sanitize_header (key, v))) (get_prop hs key).
Proof.
  induction hs as [|[k w] hs IH]; simpl; [reflexivity|].
  destruct (String.eqb k key) eqn:Hk; [|exact IH].
  apply String.eqb_eq in Hk. now subst.
Qed.

(** X1.  [sanitizeHeaders] keeps the header names and their order; a
    header whose lowercase name is one of [authorization], [cookie],
    [x-api-key], [x-auth-token], [api-key] (the whole name, not a part of
    it) gets the marker as its value; any other header gets its array value
    joined with a comma and a space, or its value as a string; and no
    header is added. *)
Theorem sanitizeHeaders_redacts_by_name (headers : list (string * JsValue)) :
  distinct (map fst headers) = true ->
  map fst (sanitizeHeaders headers) = map fst headers
  /\ (forall key value,
        get_prop headers key = Some value ->
        In (Str.toLowerCase key) sensitiveKeys ->
        get_header (sanitizeHeaders headers) key = Some "[REDACTED]")
  /\ (forall key value,
        get_prop headers key = Some value ->
        ~ In (Str.toLowerCase key) sensitiveKeys ->
        get_header (sanitizeHeaders headers) key
        = Some (match value with
                | JArray items => array_join ", " items
                | _ => ToString value
                end))
  /\ (forall key,
        get_prop headers key = None ->
        get_header (sanitizeHeaders headers) key = None).
Proof.
  intros Hd. rewrite (sanitizeHeaders_map _ Hd).
  split; [rewrite map_map; reflexivity|].
  split; [|split].
  - intros key value Hg Hin. rewrite get_header_sanitized, Hg. simpl.
    apply is_sensitive_header_spec in Hin. now rewrite Hin.
  - intros key value Hg Hin. rewrite get_header_sanitized, Hg. simpl.
    destruct (is_sensitive_header key) eqn:Hs.
    + apply is_sensitive_header_spec in Hs. contradiction.
    + now destruct value.
  - intros key Hg. now rewrite get_header_sanitized, Hg.
Qed.

Lemma sanitizeHeaders_redacts_by_name_witness :
  sanitizeHeaders
    [ ("Content-Type", JString "application/json");
      ("Authorization", JString "Bearer abc");
      ("accept", JArray [JString "application/json"; JString "text/html"]);
      ("x-authorization-hint", JNumber 7) ]
  = [ ("Content-Type", "application/json");
      ("Authorization", "[REDACTED]");
      ("accept", "application/json, text/html");
      ("x-authorization-hint", "7") ]
  /\ get_header
       (sanitizeHeaders
          [ ("Content-Type", JString "application/json");
            ("Authorization", JString "Bearer abc");
            ("accept", JArray [JString "application/json"; JString "text/html"]);
            ("x-authorization-hint", JNumber 7) ])
       "Authorization"
     = Some "[REDACTED]".
Proof.
  split; [reflexivity|].
  destruct (sanitizeHeaders_redacts_by_name
              [ ("Content-Type", JString "application/json");
                ("Authorization", JString "Bearer abc");
                ("accept", JArray [JString "application/json"; JString "text/html"]);
                ("x-authorization-hint", JNumber 7) ]
              eq_refl) as (_ & Hred & _).
  apply (Hred "Authorization" (JString "Bearer abc")); [reflexivity|].
  simpl. auto.
Defined.

Lemma distinct_snoc (ks : list string) (k : string) :
  distinct ks = true -> existsb (String.eqb k) ks = false ->
  distinct (ks ++ [k]) = true.
Proof.
  induction ks as [|a ks IH]; simpl; [reflexivity|].
  rewrite !andb_true_iff, !negb_true_iff, orb_false_iff.
  intros [Ha Hd] [Hka Hk]. split; [|now apply IH].
  rewrite existsb_app. simpl. now rewrite Ha, String.eqb_sym, Hka.
Qed.

Lemma set_header_sanitized (acc : list (string * string)) (k v : string) :
  sanitized_record acc ->
  (is_sensitive_header k = true -> v = "[REDACTED]") ->
  sanitized_record (set_header acc k v).
Proof.
  intros [Hd Hall] Hv. split.
  - rewrite set_header_keys.
    destruct (existsb (String.eqb k) (map fst acc)) eqn:Hk; [exact Hd|].
    now apply distinct_snoc.
  - clear Hd. induction acc as [|[k' w] acc IH]; simpl.
    + constructor; [exact Hv | constructor].
    + inversion Hall as [|? ? Hkw Hrest]; subst.
      destruct (String.eqb k' k) eqn:Hk.
      * apply String.eqb_eq in Hk. subst k'. constructor; [exact Hv | exact Hrest].
      * constructor; [exact Hkw | now apply IH].
Qed.

Lemma sanitizeHeaders_sanitized (hs : list (string * JsValue)) :
  sanitized_record (sanitizeHeaders hs).
Proof.
  unfold sanitizeHeaders.
  assert (Hnil : sanitized_record []) by (split; [reflexivity | constructor]).
  revert Hnil. generalize (@nil (string * string)) as acc.
  induction hs as [|kv hs IH]; intros acc Hacc; simpl; [exact Hacc|].
  apply IH. rewrite sanitizeHeaders_step. apply set_header_sanitized; [exact Hacc|].
  unfold sanitize_header. simpl. now intros ->.
Qed.

(** X2.  [sanitizeHeaders] is idempotent: run on its own result, it gives
    that result back, whatever the headers were. *)
Theorem sanitizeHeaders_idempotent (headers : list (string * JsValue)) :
  sanitizeHeaders (as_values (sanitizeHeaders headers)) = sanitizeHeaders headers.
Proof.
  destruct (sanitizeHeaders_sanitized headers) as [Hd Hall].
  generalize dependent (sanitizeHeaders headers). intros out Hd Hall.
  rewrite sanitizeHeaders_map
    by (unfold as_values; rewrite map_map; simpl; exact Hd).
  unfold as_values. rewrite map_map.
  rewrite <- (map_id out) at 2. apply map_ext_in.
  intros [k v] Hin. unfold sanitize_header. simpl.
  rewrite Forall_forall in Hall. specialize (Hall _ Hin). simpl in Hall.
  destruct (is_sensitive_header k); [now rewrite Hall | reflexivity].
Qed.

(** ** [redactSensitiveFields] *)

Lemma set_prop_keys (acc : list (string * JsValue)) (k : string) (v : JsValue) :
  map fst (set_prop acc k v)
  = if existsb (String.eqb k) (map fst acc) then map fst acc
    else map fst acc ++ [k].
Proof.
  induction acc as [|[k' w] acc IH]; simpl; [reflexivity|].
  rewrite (String.eqb_sym k k').
  destruct (String.eqb k' k) eqn:Hk; simpl; [reflexivity|].
  rewrite IH. now destruct (existsb (String.eqb k) (map fst acc)).
Qed.

Lemma set_prop_settled (acc : list (string * JsValue)) (k : string) (v : JsValue) :
  distinct (map fst acc) = true -> Forall settled acc -> settled (k, v) ->
  distinct (map fst (set_prop acc k v)) = true
  /\ Forall settled (set_prop acc k v).
Proof.
  intros Hd Hall Hv. split.
  - rewrite set_prop_keys.
    destruct (existsb (String.eqb k) (map fst acc)) eqn:Hk; [exact Hd|].
    now apply distinct_snoc.
  - clear Hd. induction acc as [|[k' w] acc IH]; simpl.
    + constructor; [exact Hv | constructor].
    + inversion Hall as [|? ? Hkw Hrest]; subst.
      destruct (String.eqb k' k) eqn:Hk.
      * apply String.eqb_eq in Hk. subst k'. constructor; [exact Hv | exact Hrest].
      * constructor; [exact Hkw | now apply IH].
Qed.

Lemma well_formed_object (es : list (string * JsValue)) :
  distinct (map fst es) = true -> Forall settled es ->
  well_formed (JObject es) = true
  /\ redactSensitiveFields (JObject es) = JObject es.
Proof.
  intros Hd Hall. split.
  - simpl. rewrite Hd. simpl. apply forallb_forall.
    rewrite Forall_forall in Hall. intros kv Hin. exact (proj2 (Hall kv Hin)).
  - rewrite (redact_object _ Hd). f_equal.
    rewrite <- (map_id es) at 2. apply map_ext_in.
    rewrite Forall_forall in Hall. intros kv Hin. exact (proj1 (Hall kv Hin)).
Qed.

Lemma well_formed_scalar (v : JsValue) : is_object v = false -> well_formed v = true.
Proof. destruct v; simpl; try reflexivity; discriminate. Qed.

(** The loop of [redactSensitiveFields] keeps its record settled. *)
Lemma redact_fold_settled (es : list (string * JsValue)) :
  Forall (fun kv =>
            well_formed (redactSensitiveFields (snd kv)) = true
            /\ redactSensitiveFields (redactSensitiveFields (snd kv))
               = redactSensitiveFields (snd kv)) es ->
  forall acc,
    distinct (map fst acc) = true -> Forall settled acc ->
    let out :=
      fold_left
        (fun sanitized kv =>
           let key := fst kv in
           let value := snd kv in
           if is_sensitive key then set_prop sanitized key REDACTED
           else if is_object value
                then set_prop sanitized key (redactSensitiveFields value)
                else set_prop sanitized key value)
        es acc in
    distinct (map fst out) = true /\ Forall settled out.
Proof.
  induction es as [|[k v] es IH]; intros Hes acc Hd Hall; simpl; [now split|].
  inversion Hes as [|? ? [Hwf Hv] Hrest]; subst. simpl in Hwf, Hv.
  assert (Hstep : exists x,
            (if is_sensitive k then set_prop acc k REDACTED
             else if is_object v then set_prop acc k (redactSensitiveFields v)
                  else set_prop acc k v) = set_prop acc k x
            /\ settled (k, x)).
  { unfold settled, redact_entry. simpl.
    destruct (is_sensitive k) eqn:Hk.
    - exists REDACTED. now repeat split.
    - destruct (is_object v) eqn:Ho.
      + exists (redactSensitiveFields v). rewrite Hv. now repeat split.
      + exists v. rewrite (redact_scalar _ Ho). repeat split.
        now apply well_formed_scalar. }
  destruct Hstep as (x & -> & Hx).
  destruct (set_prop_settled acc k x Hd Hall Hx) as [Hd' Hall'].
  now apply IH.
Qed.

(** X3.  [redactSensitiveFields] is idempotent, and what it returns is well
    formed: redacting a value that was redacted changes nothing, whatever
    the value was. *)
Theorem redactSensitiveFields_idempotent (v : JsValue) :
  well_formed (redactSensitiveFields v) = true
  /\ redactSensitiveFields (redactSensitiveFields v) = redactSensitiveFields v.
Proof.
  induction v as [| | b | n | s | items IH | entries IH] using JsValue_ind;
    try (split; reflexivity).
  - simpl. split.
    + apply forallb_forall. rewrite Forall_forall in IH.
      intros y Hy. apply in_map_iff in Hy. destruct Hy as (x & <- & Hx).
      exact (proj1 (IH x Hx)).
    + f_equal. rewrite map_map. apply map_ext_in.
      rewrite Forall_forall in IH. intros x Hx. exact (proj2 (IH x Hx)).
  - cbn [redactSensitiveFields].
    destruct (redact_fold_settled entries IH [] eq_refl (Forall_nil _))
      as [Hd Hall].
    now apply well_formed_object.
Qed.

(** X4.  [redactSensitiveFields] leaves alone a value that has no sensitive
    key at any depth: it returns the value as it is. *)
Theorem redactSensitiveFields_identity (v : JsValue) :
  well_formed v = true ->
  sensitive_free v = true ->
  redactSensitiveFields v = v.
Proof.
  induction v as [| | b | n | s | items IH | entries IH] using JsValue_ind;
    try reflexivity.
  - simpl. intros Hwf Hfree. f_equal.
    rewrite <- (map_id items) at 2. apply map_ext_in.
    rewrite Forall_forall in IH. rewrite forallb_forall in Hwf, Hfree.
    intros x Hx. apply IH; auto.
  - intros Hwf Hfree. rewrite (redact_object _ (well_formed_distinct _ Hwf)).
    f_equal. rewrite <- (map_id entries) at 2. apply map_ext_in.
    simpl in Hwf, Hfree. apply andb_true_iff in Hwf. destruct Hwf as [_ Hwf].
    rewrite Forall_forall in IH. rewrite forallb_forall in Hwf, Hfree.
    intros [k x] Hin. specialize (IH _ Hin). specialize (Hwf _ Hin).
    specialize (Hfree _ Hin). simpl in *.
    apply andb_true_iff in Hfree. destruct Hfree as [Hk Hx].
    apply negb_true_iff in Hk. unfold redact_entry. simpl.
    now rewrite Hk, IH.
Qed.

Lemma redactSensitiveFields_identity_witness :
  redactSensitiveFields
    (JObject [("users", JArray [JObject [("id", JNumber 1);
                                         ("name", JString "Okeyo")]])])
  = JObject [("users", JArray [JObject [("id", JNumber 1);
                                        ("name", JString "Okeyo")]])].
Proof.
  apply redactSensitiveFields_identity; reflexivity.
Defined.

(** ** The size of what [sanitizeBody] returns *)

Lemma length_append (a b : string) :
  String.length (a ++ b)%string = (String.length a + String.length b)%nat.
Proof. induction a as [|c a IH]; simpl; [reflexivity | now rewrite IH]. Qed.

Lemma length_substring_0 (n : nat) : forall s,
  String.length (substring 0 n s) = Nat.min n (String.length s).
Proof.
  induction n as [|n IH]; intros [|c s]; simpl; try reflexivity.
  now rewrite IH.
Qed.

(** X5.  What [sanitizeBody] cuts is short.  For a body whose serialization
    exceeds 10,000 characters, the preview of the truncation marker is the
    first 500 characters of the serialization followed by the ellipsis,
    503 characters in all.  When the [try] block throws, the result is
    [String(body)] as it is exactly when that has at most 500 characters,
    and otherwise its first 500 characters followed by the ellipsis, 503
    characters in all; so the string is never longer than 503
    characters. *)
Theorem sanitizeBody_bounded_output (J : JSON) (body : JsValue) :
  falsy body = false ->
  (forall jsonString,
     serialized J body = Returns jsonString ->
     10000 < Str.len jsonString ->
     sanitizeBody J body
     = JObject [ ("_truncated", JBool true);
                 ("_originalSize", JNumber (Str.len jsonString));
                 ("_preview",
                  JString (substring 0 500 jsonString ++ "...")%string) ]
     /\ String.length (substring 0 500 jsonString ++ "...")%string = 503%nat)
  /\ (forall e,
        sanitizeBody_try J body = Throws e ->
        ((String.length (ToString body) <= 500)%nat
         /\ sanitizeBody J body = JString (ToString body))
        \/ ((500 < String.length (ToString body))%nat
            /\ sanitizeBody J body
               = JString (substring 0 500 (ToString body) ++ "...")%string
            /\ String.length (substring 0 500 (ToString body) ++ "...")%string
               = 503%nat))
  /\ (forall e text,
        sanitizeBody_try J body = Throws e ->
        sanitizeBody J body = JString text ->
        (String.length text <= 503)%nat).
Proof.
  intros Ht.
  assert (Hcut : forall s,
            (500 < String.length s)%nat ->
            String.length (substring 0 500 s ++ "...")%string = 503%nat).
  { intros s Hs. rewrite length_append, length_substring_0.
    change (String.length "...") with 3%nat. lia. }
  assert (Hcatch : forall e,
            sanitizeBody_try J body = Throws e ->
            ((String.length (ToString body) <= 500)%nat
             /\ sanitizeBody J body = JString (ToString body))
            \/ ((500 < String.length (ToString body))%nat
                /\ sanitizeBody J body
                   = JString (substring 0 500 (ToString body) ++ "...")%string
                /\ String.length (substring 0 500 (ToString body) ++ "...")%string
                   = 503%nat)).
  { intros e He. unfold sanitizeBody. rewrite Ht, He.
    unfold Str.len.
    destruct (Z.of_nat (String.length (ToString body)) >? 500) eqn:Hgt;
      rewrite Z.gtb_ltb in Hgt.
    - apply Z.ltb_lt in Hgt. right.
      split; [lia|]. split; [reflexivity | apply Hcut; lia].
    - apply Z.ltb_ge in Hgt. left. split; [lia | reflexivity]. }
  split; [|split; [exact Hcatch|]].
  - intros jsonString Hs Hlen.
    split; [now apply sanitizeBody_over|].
    apply Hcut. unfold Str.len in Hlen. lia.
  - intros e text He Htext.
    destruct (Hcatch e He) as [(Hshort & Heq) | (_ & Heq & Hlong)];
      rewrite Heq in Htext; injection Htext as <-; lia.
Qed.

Lemma sanitizeBody_bounded_output_witness :
  sanitizeBody RefJSON.json (JString (Sample.xs 502))
  = JString (substring 0 500 (Sample.xs 502) ++ "...")%string.
Proof.
  destruct (sanitizeBody_bounded_output RefJSON.json (JString (Sample.xs 502))
              eq_refl) as (_ & Hcatch & _).
  destruct (Hcatch RefJSON.SyntaxError ltac:(vm_compute; reflexivity))
    as [(Hshort & _) | (_ & Heq & _)]; [|exact Heq].
  vm_compute in Hshort. lia.
Defined.

(** * More of the queue *)

Lemma firstn_plus {A : Type} (n m : nat) : forall l : list A,
  firstn (n + m) l = firstn n l ++ firstn m (skipn n l).
Proof.
  induction n as [|n IH]; intros [|x l]; simpl; try reflexivity.
  - now destruct m.
  - now rewrite IH.
Qed.

(** X6.  Successive [dequeue] calls take consecutive slices of the queue:
    [dequeue(a)] then [dequeue(b)] return together what [dequeue(a + b)]
    returns, in the same order, and leave the same queue; the two results
    and what is left make up the queue as it was.  A count that is not
    positive takes nothing and leaves the queue as it is. *)
Theorem dequeue_consecutive (a b : Z) (q : LogQueue) :
  (a <= 0 -> Queue.dequeue a q = ([], q))
  /\ (0 <= a -> 0 <= b ->
      let first := Queue.dequeue a q in
      let second := Queue.dequeue b (snd first) in
      fst first ++ fst second = fst (Queue.dequeue (a + b) q)
      /\ snd second = snd (Queue.dequeue (a + b) q)
      /\ queue q = fst first ++ fst second ++ queue (snd second)).
Proof.
  split.
  - intros Ha. unfold Queue.dequeue.
    replace (Z.to_nat a) with O by lia. now destruct q.
  - intros Ha Hb. unfold Queue.dequeue. simpl.
    rewrite Z2Nat.inj_add by assumption.
    split; [symmetry; apply firstn_plus|].
    split; [now rewrite skipn_skipn, Nat.add_comm|].
    now rewrite !firstn_skipn.
Qed.

Lemma dequeue_consecutive_witness :
  let q := mkQueue [Sample.event "a"; Sample.event "b"; Sample.event "c"] 10 in
  fst (Queue.dequeue 1 q) ++ fst (Queue.dequeue 1 (snd (Queue.dequeue 1 q)))
  = [Sample.event "a"; Sample.event "b"]
  /\ Queue.dequeue (-1) q = ([], q).
Proof.
  intros q.
  destruct (dequeue_consecutive 1 1 q) as (_ & Hcons).
  destruct (Hcons ltac:(lia) ltac:(lia)) as (Hout & _).
  split; [exact Hout|].
  apply (proj1 (dequeue_consecutive (-1) 0 q)). lia.
Defined.

(** *** What [enqueue] writes to the console *)

Lemma enqueue_each_from (logs : list LogPayload) : forall q evs,
  fold_left
    (fun acc log =>
       let '(q', warned) := Queue.enqueue log (fst acc) in
       (q', snd acc ++ warned))
    logs (q, evs)
  = (fst (enqueue_each logs q), evs ++ snd (enqueue_each logs q)).
Proof.
  unfold enqueue_each.
  induction logs as [|x logs IH]; intros q evs; simpl.
  - now rewrite app_nil_r.
  - destruct (Queue.enqueue x q) as [q1 w1]. simpl.
    rewrite (IH q1 (evs ++ w1)), (IH q1 w1). simpl.
    now rewrite app_assoc.
Qed.

Lemma enqueue_each_cons (x : LogPayload) (logs : list LogPayload) (q : LogQueue) :
  enqueue_each (x :: logs) q
  = (fst (enqueue_each logs (fst (Queue.enqueue x q))),
     snd (Queue.enqueue x q) ++ snd (enqueue_each logs (fst (Queue.enqueue x q)))).
Proof.
  unfold enqueue_each at 1. simpl.
  destruct (Queue.enqueue x q) as [q1 w1]. simpl.
  now rewrite enqueue_each_from.
Qed.

Lemma enqueue_each_queue (logs : list LogPayload) : forall q,
  fst (enqueue_each logs q) = Queue.enqueue_all logs q.
Proof.
  induction logs as [|x logs IH]; intros q; [reflexivity|].
  now rewrite enqueue_each_cons, enqueue_all_cons; simpl; rewrite IH.
Qed.

Lemma enqueue_warned (x : LogPayload) (q : LogQueue) :
  snd (Queue.enqueue x q)
  = if Queue.size q >=? maxSize q then [queue_full] else [].
Proof. unfold Queue.enqueue. now destruct (Queue.size q >=? maxSize q). Qed.

(** With room for at least one element, the warnings are as many as the
    elements beyond the capacity. *)
Lemma enqueue_each_warned (logs : list LogPayload) : forall q,
  0 < maxSize q ->
  Queue.size q <= maxSize q ->
  snd (enqueue_each logs q)
  = repeat queue_full
      (List.length (queue q) + List.length logs - Z.to_nat (maxSize q))
  /\ List.length (queue (fst (enqueue_each logs q)))
     = Nat.min (List.length (queue q) + List.length logs) (Z.to_nat (maxSize q)).
Proof.
  induction logs as [|x logs IH]; intros q Hcap Hq; unfold Queue.size in Hq.
  - simpl. rewrite Nat.add_0_r.
    replace (List.length (queue q) - Z.to_nat (maxSize q))%nat with O by lia.
    split; [reflexivity | lia].
  - rewrite enqueue_each_cons. simpl fst. simpl snd.
    assert (Hq1 : Queue.size (fst (Queue.enqueue x q)) <= maxSize q).
    { pose proof (enqueue_size_bound x q) as H. unfold Queue.size in H at 1. lia. }
    destruct (IH (fst (Queue.enqueue x q))
                ltac:(now rewrite enqueue_maxSize)
                ltac:(now rewrite enqueue_maxSize)) as [Hw Hl].
    rewrite Hw, Hl, enqueue_warned, enqueue_maxSize, enqueue_queue.
    unfold Queue.size. cbn [List.length].
    destruct (Z.geb_spec (Z.of_nat (List.length (queue q))) (maxSize q)) as [Hge|Hlt];
      rewrite length_app; cbn [List.length].
    + destruct (queue q) as [|y l]; cbn [List.length tl] in *; [lia|].
      split; [|lia].
      change ([queue_full] ++ repeat queue_full ?n) with (repeat queue_full (S n)).
      f_equal. lia.
    + split; [|lia]. simpl. f_equal. lia.
Qed.

(** X8.  The warning [Queue full. Dropping oldest log.] is written once for
    each element that is dropped: after any sequence of [enqueue] calls
    into a fresh queue of positive capacity, the warnings are as many as
    the elements enqueued beyond the capacity, and the queue holds
    [min(count, capacity)] elements. *)
Theorem overflow_warnings (capacity : Z) (logs : list LogPayload) :
  0 < capacity ->
  let q := fst (enqueue_each logs (Queue.new (Some capacity))) in
  let warned := snd (enqueue_each logs (Queue.new (Some capacity))) in
  q = Queue.enqueue_all logs (Queue.new (Some capacity))
  /\ warned = repeat queue_full (List.length logs - Z.to_nat capacity)
  /\ List.length (queue q) = Nat.min (List.length logs) (Z.to_nat capacity)
  /\ (List.length warned + List.length (queue q) = List.length logs)%nat.
Proof.
  intros Hcap q warned.
  destruct (enqueue_each_warned logs (Queue.new (Some capacity)) Hcap
              ltac:(unfold Queue.size; simpl; lia)) as [Hw Hl].
  simpl in Hw, Hl. fold warned in Hw. fold q in Hl.
  split; [apply enqueue_each_queue|]. split; [exact Hw|]. split; [exact Hl|].
  rewrite Hw, Hl, repeat_length. lia.
Qed.

Lemma overflow_warnings_witness :
  snd (enqueue_each [Sample.event "a"; Sample.event "b"; Sample.event "c"]
                    (Queue.new (Some 2)))
  = [queue_full].
Proof.
  destruct (overflow_warnings 2
              [Sample.event "a"; Sample.event "b"; Sample.event "c"]
              ltac:(reflexivity)) as (_ & Hw & _).
  exact Hw.
Defined.

Lemma lastn_one {A : Type} (l : list A) (x : A) : lastn 1 (l ++ [x]) = [x].
Proof.
  unfold lastn. rewrite length_app. simpl.
  replace (List.length l + 1 - 1)%nat with (List.length l) by lia.
  rewrite skipn_app, skipn_all, Nat.sub_diag. reflexivity.
Qed.

(** X7.  A capacity that is not positive is not honoured as "hold
    nothing": the queue then holds exactly the newest element, each
    [enqueue] replacing the one before, and every [enqueue] writes the
    warning, the first one too, which drops nothing. *)
Theorem queue_without_capacity
  (capacity : Z) (logs : list LogPayload) (newest : LogPayload) :
  capacity <= 0 ->
  queue (Queue.enqueue_all (logs ++ [newest]) (Queue.new (Some capacity)))
  = [newest]
  /\ (forall q, maxSize q = capacity ->
                snd (Queue.enqueue newest q) = [queue_full])
  /\ Queue.enqueue newest (Queue.new (Some capacity))
     = (mkQueue [newest] capacity, [queue_full]).
Proof.
  intros Hcap. split; [|split].
  - rewrite fresh_queue_survivors. unfold survivors. simpl.
    replace (Z.to_nat (Z.max 1 capacity)) with 1%nat by lia.
    apply lastn_one.
  - intros q Hq. rewrite enqueue_warned, Hq.
    unfold Queue.size. destruct (Z.geb_spec (Z.of_nat (List.length (queue q))) capacity);
      [reflexivity | lia].
  - unfold Queue.enqueue, Queue.size. simpl.
    destruct (Z.geb_spec 0 capacity); [reflexivity | lia].
Qed.

Lemma queue_without_capacity_witness :
  queue (Queue.enqueue_all [Sample.event "a"; Sample.event "b"]
                           (Queue.new (Some 0)))
  = [Sample.event "b"].
Proof.
  exact (proj1 (queue_without_capacity 0 [Sample.event "a"] (Sample.event "b")
                  ltac:(lia))).
Defined.

(** * More of the client *)

(** *** Projections of a trace *)

Lemma warnings_app (t1 t2 : list Event) :
  warnings (t1 ++ t2) = warnings t1 ++ warnings t2.
Proof. apply filter_app. Qed.

Lemma delivered_app (t1 t2 : list Event) :
  delivered (t1 ++ t2) = delivered t1 ++ delivered t2.
Proof. apply flat_map_app. Qed.

Lemma total_delay_app (t1 t2 : list Event) :
  total_delay (t1 ++ t2) = total_delay t1 + total_delay t2.
Proof.
  induction t1 as [|ev t1 IH]; [reflexivity|].
  destruct ev; simpl; rewrite IH; lia.
Qed.

(** The requests, the waits and the events delivered are read off the
    network side of a trace. *)
Lemma network_projections (t : list Event) :
  filter is_fetch t = filter is_fetch (network t)
  /\ total_delay t = total_delay (network t)
  /\ delivered t = delivered (network t).
Proof.
  induction t as [|ev t (IHf & IHd & IHl)]; [now repeat split|].
  destruct ev; simpl; rewrite ?IHf, ?IHd, ?IHl; now repeat split.
Qed.

Lemma appended_inj (tr tr' : list Event) (n n' m m' : nat) (w : World) :
  appended tr n m w = appended tr' n' m' w -> tr = tr' /\ n = n' /\ m = m'.
Proof.
  unfold appended. intros H. injection H as Hn Hm Ht.
  apply app_inv_head in Ht. repeat split; [exact Ht | lia | lia].
Qed.

Lemma emit_all_appended (evs : list Event) : forall w,
  emit_all evs w = appended evs 0 0 w.
Proof.
  induction evs as [|ev evs IH]; intros w; simpl.
  - now rewrite appended_nil.
  - unfold emit_all in IH. rewrite IH, emit_appended, appended_appended.
    reflexivity.
Qed.

(** *** The debug notices are no warnings *)

Lemma debug_log_silent (cfg : LogSentinelConfig) (label : string) (w : World) :
  exists tr, debug_log cfg label w = appended tr 0 0 w
             /\ network tr = [] /\ warnings tr = [].
Proof.
  unfold debug_log. destruct (debug cfg) as [[|]|].
  - exists [ConsoleLog label]. now repeat split.
  - exists []. now rewrite appended_nil.
  - exists []. now rewrite appended_nil.
Qed.

Lemma debug_error_silent (cfg : LogSentinelConfig) (label : string) (w : World) :
  exists tr, debug_error cfg label w = appended tr 0 0 w
             /\ network tr = [] /\ warnings tr = [].
Proof.
  unfold debug_error. destruct (debug cfg) as [[|]|].
  - exists [ConsoleError label]. now repeat split.
  - exists []. now rewrite appended_nil.
  - exists []. now rewrite appended_nil.
Qed.

Lemma sendBatch_notices_silent
  (E : Env) (cfg : LogSentinelConfig) (batch : LogBatch) (w : World) :
  logs batch <> [] ->
  exists tr, sendBatch_notices E cfg batch w = (Returns tt, appended tr 0 0 w)
             /\ warnings tr = [].
Proof.
  intros Hne. unfold sendBatch_notices.
  destruct (debug cfg) as [[|]|];
    try (exists []; rewrite appended_nil; now split).
  destruct (logs batch) as [|sampleLog rest]; [contradiction|].
  destruct (falsy (requestBody sampleLog)); destruct (verboseDebug E);
    rewrite !emit_appended, !appended_appended.
  all: eexists; (split; [reflexivity|]); reflexivity.
Qed.

Lemma sendBatch_try_silent
  (E : Env) (cfg : LogSentinelConfig) (batch : LogBatch) (w : World) :
  exists r tr,
    sendBatch_try E cfg batch w = (r, appended tr 1 0 w) /\ warnings tr = [].
Proof.
  unfold sendBatch_try. cbv zeta.
  change (mkWorld (S (fetches w)) (draws w) (batches w) (timers w) (intervals w)
            (trace w ++ [Fetch (baseUrl cfg) ("Bearer " ++ apiKey cfg) batch]))
    with (appended [request cfg batch] 1 0 w).
  destruct (transport E (fetches w)) as [status statusText|e].
  - destruct (ok status).
    + destruct (debug_log_silent cfg "Batch sent successfully"
                  (appended [request cfg batch] 1 0 w)) as (tr & -> & _ & Hw).
      rewrite appended_appended. eexists _, _. split; [reflexivity|].
      now rewrite warnings_app, Hw.
    + now eexists _, _.
  - now eexists _, _.
Qed.

(** [sendBatch] writes no warning, whatever the transport does. *)
Lemma sendBatch_silent
  (E : Env) (cfg : LogSentinelConfig) (batch : LogBatch) :
  logs batch <> [] ->
  forall attempt w,
  exists r tr n,
    sendBatch E cfg batch attempt w = (r, appended tr n 0 w)
    /\ warnings tr = [].
Proof.
  intros Hne attempt.
  remember (attempts_left attempt) as k eqn:Hk.
  revert attempt Hk. induction k as [k IH] using lt_wf_ind. intros attempt Hk w.
  rewrite sendBatch_body.
  destruct (sendBatch_notices_silent E cfg batch w Hne) as (t0 & -> & Hw0).
  destruct (sendBatch_try_silent E cfg batch (appended t0 0 0 w))
    as (r & t1 & -> & Hw1).
  destruct r as [u|error].
  - rewrite appended_appended.
    eexists _, _, _. split; [reflexivity|]. now rewrite warnings_app, Hw0, Hw1.
  - destruct (debug_error_silent cfg "Batch send failed"
                (appended t1 1 0 (appended t0 0 0 w))) as (t2 & -> & _ & Hw2).
    destruct (Z_lt_dec attempt maxAttempts) as [Hlt|Hge].
    + destruct (debug_log_silent cfg "Retrying"
                  (appended t2 0 0 (appended t1 1 0 (appended t0 0 0 w))))
        as (t3 & -> & _ & Hw3).
      rewrite emit_appended, !appended_appended.
      match goal with
      | |- context [sendBatch E cfg batch (attempt + 1) ?w0] =>
          destruct (IH (attempts_left (attempt + 1))
                      ltac:(subst k; unfold attempts_left, maxAttempts in *; lia)
                      (attempt + 1) eq_refl w0)
            as (r & t4 & n & -> & Hw4)
      end.
      rewrite appended_appended.
      eexists _, _, _. split; [reflexivity|].
      rewrite !warnings_app, Hw0, Hw1, Hw2, Hw3, Hw4. reflexivity.
    + rewrite !appended_appended.
      eexists _, _, _. split; [reflexivity|].
      now rewrite !warnings_app, Hw0, Hw1, Hw2.
Qed.

(** How a [sendBatch] call from the first attempt ends, whatever the
    transport does. *)
Lemma sendBatch_outcomes
  (E : Env) (cfg : LogSentinelConfig) (batch : LogBatch) (w : World) :
  logs batch <> [] ->
  exists r tr n,
    sendBatch E cfg batch 1 w = (r, appended tr n 0 w)
    /\ (1 <= n <= 3)%nat
    /\ filter is_fetch tr = repeat (request cfg batch) n
    /\ delivered tr = List.concat (repeat (logs batch) n)
    /\ total_delay tr = 2 ^ Z.of_nat n * 1000 - 2000
    /\ warnings tr = []
    /\ (forall k, (k < n - 1)%nat ->
                  succeeds (transport E (k + fetches w)) = false)
    /\ (succeeds (transport E (fetches w)) = true ->
        network tr = [request cfg batch])
    /\ match r with
       | Returns _ => succeeds (transport E (n - 1 + fetches w)) = true
       | Throws error =>
           n = 3%nat
           /\ succeeds (transport E (2 + fetches w)) = false
           /\ error = failure (transport E (2 + fetches w))
       end.
Proof.
  intros Hne.
  destruct (sendBatch_silent E cfg batch Hne 1 w) as (r0 & tr0 & n0 & Heq0 & Hw0).
  assert (Hdone : forall r tr n,
            sendBatch E cfg batch 1 w = (r, appended tr n 0 w) ->
            warnings tr = []).
  { intros r tr n Heq.
    assert (Hsame : appended tr n 0 w = appended tr0 n0 0 w) by congruence.
    apply appended_inj in Hsame as (-> & _). exact Hw0. }
  assert (Hshape : forall r tr n,
            sendBatch E cfg batch 1 w = (r, appended tr n 0 w) ->
            forall net, network tr = net ->
            filter is_fetch tr = filter is_fetch net
            /\ delivered tr = delivered net
            /\ total_delay tr = total_delay net
            /\ warnings tr = []).
  { intros r tr n Heq net <-.
    destruct (network_projections tr) as (Hf & Hd & Hl).
    repeat split; trivial. eapply Hdone; exact Heq. }
  destruct (succeeds (transport E (fetches w))) eqn:H1.
  { destruct (sendBatch_success E cfg batch Hne 1 w H1) as (tr & Heq & Hn).
    destruct (Hshape _ _ _ Heq _ Hn) as (Hf & Hl & Hd & Hw).
    exists (Returns tt), tr, 1%nat.
    split; [exact Heq|]. split; [lia|]. split; [exact Hf|].
    split; [rewrite Hl; simpl; now rewrite !app_nil_r|].
    split; [exact Hd|]. split; [exact Hw|].
    split; [intros k Hk; lia|]. split; [trivial | exact H1]. }
  destruct (sendBatch_retry E cfg batch Hne 1 w H1 ltac:(reflexivity))
    as (t1 & Heq1 & Hn1).
  destruct (succeeds (transport E (1 + fetches w))) eqn:H2.
  { destruct (sendBatch_success E cfg batch Hne (1 + 1) (appended t1 1 0 w) H2)
      as (t2 & Heq2 & Hn2).
    rewrite Heq2, appended_appended in Heq1.
    assert (Hn : network (t1 ++ t2)
                 = [request cfg batch; Delay 2000; request cfg batch])
      by now rewrite network_app, Hn1, Hn2.
    destruct (Hshape _ _ 2%nat Heq1 _ Hn) as (Hf & Hl & Hd & Hw).
    exists (Returns tt), (t1 ++ t2), 2%nat.
    split; [exact Heq1|]. split; [lia|]. split; [exact Hf|].
    split; [rewrite Hl; simpl; now rewrite !app_nil_r|].
    split; [exact Hd|]. split; [exact Hw|].
    split; [intros [|k] Hk; [exact H1 | lia]|].
    split; [discriminate | exact H2]. }
  destruct (sendBatch_retry E cfg batch Hne (1 + 1) (appended t1 1 0 w) H2
              ltac:(reflexivity)) as (t2 & Heq2 & Hn2).
  rewrite Heq2 in Heq1.
  assert (Hrest : forall k, (k < 3 - 1)%nat ->
                            succeeds (transport E (k + fetches w)) = false).
  { intros [|[|k]] Hk; [exact H1 | exact H2 | lia]. }
  destruct (succeeds (transport E (2 + fetches w))) eqn:H3.
  - destruct (sendBatch_success E cfg batch Hne (1 + 1 + 1)
                (appended t2 1 0 (appended t1 1 0 w)) H3) as (t3 & Heq3 & Hn3).
    rewrite Heq3, !appended_appended in Heq1.
    match type of Heq1 with
    | _ = (_, appended ?tr _ _ _) =>
        assert (Hn : network tr
                     = [request cfg batch; Delay 2000; request cfg batch;
                        Delay 4000; request cfg batch])
          by (now rewrite !network_app, Hn1, Hn2, Hn3);
        destruct (Hshape _ _ 3%nat Heq1 _ Hn) as (Hf & Hl & Hd & Hw);
        exists (Returns tt), tr, 3%nat
    end.
    split; [exact Heq1|]. split; [lia|]. split; [exact Hf|].
    split; [rewrite Hl; simpl; now rewrite !app_nil_r|].
    split; [exact Hd|]. split; [exact Hw|].
    split; [exact Hrest|]. split; [discriminate | exact H3].
  - destruct (sendBatch_give_up E cfg batch Hne (1 + 1 + 1)
                (appended t2 1 0 (appended t1 1 0 w)) H3
                ltac:(unfold maxAttempts; lia)) as (t3 & Heq3 & Hn3).
    rewrite Heq3, !appended_appended in Heq1.
    match type of Heq1 with
    | _ = (?r, appended ?tr _ _ _) =>
        assert (Hn : network tr
                     = [request cfg batch; Delay 2000; request cfg batch;
                        Delay 4000; request cfg batch])
          by (now rewrite !network_app, Hn1, Hn2, Hn3);
        destruct (Hshape _ _ 3%nat Heq1 _ Hn) as (Hf & Hl & Hd & Hw);
        exists r, tr, 3%nat
    end.
    split; [exact Heq1|]. split; [lia|]. split; [exact Hf|].
    split; [rewrite Hl; simpl; now rewrite !app_nil_r|].
    split; [exact Hd|]. split; [exact Hw|].
    split; [exact Hrest|]. split; [discriminate|].
    split; [reflexivity|]. split; reflexivity.
Qed.

(** X9.  [sendBatch] stops at the first attempt that goes through and
    never makes more than three: for every transport, a call from the first
    attempt issues [n] requests, [1 <= n <= 3], all for the same batch, the
    [n - 1] first of which failed; it waits [2 ^ n * 1000 - 2000] ms in
    all (nothing, 2 s or 6 s), writes no warning, and either returns, the
    [n]-th request having gone through, or throws the error of the third
    request after three failures. *)
Theorem sendBatch_bounded
  (E : Env) (cfg : LogSentinelConfig) (batch : LogBatch) (w : World) :
  logs batch <> [] ->
  exists r tr n,
    sendBatch E cfg batch 1 w = (r, appended tr n 0 w)
    /\ (1 <= n <= 3)%nat
    /\ filter is_fetch tr = repeat (request cfg batch) n
    /\ total_delay tr = 2 ^ Z.of_nat n * 1000 - 2000
    /\ 0 <= total_delay tr <= 6000
    /\ warnings tr = []
    /\ (forall k, (k < n - 1)%nat ->
                  succeeds (transport E (k + fetches w)) = false)
    /\ match r with
       | Returns _ => succeeds (transport E (n - 1 + fetches w)) = true
       | Throws error =>
           n = 3%nat
           /\ succeeds (transport E (2 + fetches w)) = false
           /\ error = failure (transport E (2 + fetches w))
       end.
Proof.
  intros Hne.
  destruct (sendBatch_outcomes E cfg batch w Hne)
    as (r & tr & n & Heq & Hn & Hf & _ & Hd & Hw & Hfail & _ & Hr).
  exists r, tr, n. repeat (split; trivial).
  - rewrite Hd. assert (Hc : n = 1%nat \/ n = 2%nat \/ n = 3%nat) by lia.
    destruct Hc as [-> | [-> | ->]]; simpl; lia.
  - rewrite Hd. assert (Hc : n = 1%nat \/ n = 2%nat \/ n = 3%nat) by lia.
    destruct Hc as [-> | [-> | ->]]; simpl; lia.
Qed.

Lemma sendBatch_bounded_witness :
  fetches (snd (sendBatch Sample.healthy Sample.settings
                  (mkBatch [Sample.event "a"] "batch_1" "now") 1 Sample.idle))
  = 1%nat.
Proof.
  destruct (sendBatch_bounded Sample.healthy Sample.settings
              (mkBatch [Sample.event "a"] "batch_1" "now") Sample.idle
              ltac:(discriminate))
    as (r & tr & n & Heq & Hn & _ & _ & _ & _ & Hfail & _).
  rewrite Heq. simpl.
  destruct n as [|[|n]]; [lia | reflexivity |].
  discriminate (Hfail O ltac:(lia)).
Defined.

(** *** [flush], whatever the transport does *)

Lemma isEmpty_queue (q : LogQueue) :
  Queue.isEmpty q = true <-> queue q = [].
Proof.
  unfold Queue.isEmpty, Queue.size. rewrite Z.eqb_eq.
  destruct (queue q); simpl; split; intros H; try reflexivity; try discriminate; lia.
Qed.

(** [flush] takes the oldest [batchSize] events off the queue, and, when
    there are any, sends them as one batch: between one and three requests,
    and one warning when all three failed. *)
Lemma flush_shape (E : Env) (this : LogSentinelClient) (w : World) :
  exists tr n m,
    Client.flush E this w
    = (Returns tt,
       Client.with_queue
         (mkQueue (skipn (Z.to_nat (Client.number_or_zero (batchSize (config this))))
                         (queue (logQueue this)))
                  (maxSize (logQueue this))) this,
       appended tr n m w)
    /\ (firstn (Z.to_nat (Client.number_or_zero (batchSize (config this))))
               (queue (logQueue this)) = [] ->
        tr = [] /\ n = 0%nat /\ m = 0%nat)
    /\ (firstn (Z.to_nat (Client.number_or_zero (batchSize (config this))))
               (queue (logQueue this)) <> [] ->
        let batch :=
          mkBatch (firstn (Z.to_nat (Client.number_or_zero (batchSize (config this))))
                          (queue (logQueue this)))
                  (generateBatchId E (batches w)) (toISOString E (batches w)) in
        m = 1%nat /\ (1 <= n <= 3)%nat
        /\ filter is_fetch tr = repeat (request (config this) batch) n
        /\ delivered tr = List.concat (repeat (logs batch) n)
        /\ Forall (fun ev => exists error, ev = failed_to_send error) (warnings tr)
        /\ (succeeds (transport E (fetches w)) = true ->
            network tr = [request (config this) batch] /\ warnings tr = [])).
Proof.
  unfold Client.flush.
  set (nb := Z.to_nat (Client.number_or_zero (batchSize (config this)))).
  destruct (Queue.isEmpty (logQueue this)) eqn:Hemp.
  { apply isEmpty_queue in Hemp. exists [], 0%nat, 0%nat.
    rewrite appended_nil, Hemp, firstn_nil, skipn_nil.
    split; [|split; [now intros _ | now intros []]].
    destruct this as [c [q mx] f]. simpl in *. now subst q. }
  unfold Queue.dequeue. fold nb.
  destruct (firstn nb (queue (logQueue this))) as [|x rest] eqn:Ht.
  { exists [], 0%nat, 0%nat. rewrite appended_nil.
    split; [reflexivity|]. split; [now intros _ | now intros []]. }
  rewrite batch_counted.
  set (batch := mkBatch (x :: rest) _ _).
  destruct (sendBatch_outcomes E (config this) batch (appended [] 0 1 w)
              ltac:(discriminate))
    as (r & tr & n & -> & Hn & Hf & Hl & _ & Hw & Hfail & Hfirst & Hr).
  destruct r as [u|error].
  - rewrite appended_appended. exists tr, (n + 0)%nat, (0 + 1)%nat.
    split; [reflexivity|]. split; [discriminate|]. intros _. cbv zeta.
    rewrite Nat.add_0_r, Hw. repeat (split; trivial); try lia.
    now apply Hfirst.
  - rewrite emit_appended, !appended_appended.
    eexists _, (0 + (n + 0))%nat, (0 + (0 + 1))%nat.
    split; [reflexivity|]. split; [discriminate|]. intros _. cbv zeta.
    destruct Hr as (-> & _ & _).
    rewrite !app_nil_l.
    rewrite filter_app, delivered_app, warnings_app, Hf, Hl, Hw.
    cbn [filter is_fetch is_warning warnings delivered flat_map Nat.add app].
    rewrite !app_nil_r.
    split; [reflexivity|]. split; [lia|]. split; [reflexivity|].
    split; [reflexivity|].
    split; [constructor; [now exists error | constructor]|].
    intros Hok. pose proof (Hfail 0%nat ltac:(lia)) as Hko. simpl in Hko.
    rewrite Hok in Hko. discriminate.
Qed.

(** *** [log] *)

(** [log] runs its sampling test; then it either skips the event, or
    enqueues it and, with the queue at [batchSize] or over, runs [flush]. *)
Lemma log_shape (E : Env) (payload : LogPayload) (this : LogSentinelClient)
  (w : World) :
  exists t1,
    network t1 = [] /\ warnings t1 = []
    /\ Client.log E payload this w
       = if Client.gt_opt (random E (draws w)) (sampleRate (config this))
         then (this, appended t1 0 0 (drawn w))
         else
           let q := fst (Queue.enqueue payload (logQueue this)) in
           let warned := snd (Queue.enqueue payload (logQueue this)) in
           let w1 := appended (warned ++ t1) 0 0 (drawn w) in
           if Client.ge_opt (Queue.size q) (batchSize (config this))
           then (snd (fst (Client.flush E (Client.with_queue q this) w1)),
                 snd (Client.flush E (Client.with_queue q this) w1))
           else (Client.with_queue q this, w1).
Proof.
  unfold Client.log.
  change (mkWorld (fetches w) (S (draws w)) (batches w) (timers w)
                  (intervals w) (trace w)) with (drawn w).
  destruct (Client.gt_opt _ _).
  { destruct (debug_log_silent (config this) "Log skipped (sampling)" (drawn w))
      as (t1 & -> & Hn & Hw).
    now exists t1. }
  destruct (Queue.enqueue payload (logQueue this)) as [q warned]. cbv zeta.
  simpl fst. simpl snd. rewrite emit_all_appended.
  destruct (debug_log_silent (config this) "Log queued"
              (appended warned 0 0 (drawn w))) as (t1 & -> & Hn1 & Hw1).
  rewrite appended_appended.
  destruct (Client.ge_opt _ _).
  - destruct (debug_log_silent (config this)
                "Batch size reached, flushing immediately"
                (appended (warned ++ t1) (0 + 0) (0 + 0) (drawn w)))
      as (t2 & -> & Hn2 & Hw2).
    rewrite appended_appended, <- app_assoc.
    exists (t1 ++ t2).
    split; [now rewrite network_app, Hn1, Hn2|].
    split; [now rewrite warnings_app, Hw1, Hw2|].
    now destruct (Client.flush _ _ _) as [[r this2] w3].
  - now exists t1.
Qed.

Lemma filter_repeat_In {A : Type} (f : A -> bool) (x : A) (n : nat) (l : list A) :
  filter f l = repeat x n -> (1 <= n)%nat -> In x l.
Proof.
  intros Hf Hn. destruct n as [|n]; [lia|].
  assert (Hin : In x (filter f l)) by (rewrite Hf; now left).
  now apply filter_In in Hin.
Qed.

(** X10.  [log] skips or keeps.  When the draw of the sampling test is
    greater than [sampleRate], the event is skipped: the client is left as
    it was, nothing goes to the network and no warning is written.
    Otherwise the event is not lost by [log]: when [log] returns, the
    event is in the queue, or a request carrying it has been issued. *)
Theorem log_keeps_what_it_accepts
  (E : Env) (payload : LogPayload) (this : LogSentinelClient) (w : World) :
  let this' := fst (Client.log E payload this w) in
  let w' := snd (Client.log E payload this w) in
  exists tr,
    trace w' = trace w ++ tr
    /\ if Client.gt_opt (random E (draws w)) (sampleRate (config this))
       then this' = this /\ network tr = [] /\ warnings tr = []
            /\ fetches w' = fetches w /\ batches w' = batches w
       else In payload (queue (logQueue this'))
            \/ exists batch,
                 In payload (logs batch)
                 /\ In (request (config this) batch) tr.
Proof.
  cbv zeta.
  destruct (log_shape E payload this w) as (t1 & Hn1 & Hw1 & ->).
  destruct (Client.gt_opt _ _).
  { exists t1. now repeat split. }
  cbv zeta.
  set (q := fst (Queue.enqueue payload (logQueue this))).
  set (warned := snd (Queue.enqueue payload (logQueue this))).
  assert (Hin : In payload (queue q)).
  { subst q. rewrite enqueue_queue. apply in_or_app. right. now left. }
  destruct (Client.ge_opt _ _).
  - destruct (flush_shape E (Client.with_queue q this)
                (appended (warned ++ t1) 0 0 (drawn w)))
      as (tr & n & m & -> & _ & Hsent).
    simpl.
    exists ((warned ++ t1) ++ tr). split; [now rewrite <- !app_assoc|].
    cbn [Client.with_queue config logQueue queue] in Hsent.
    set (nb := Z.to_nat (Client.number_or_zero (batchSize (config this)))) in *.
    rewrite <- (firstn_skipn nb (queue q)) in Hin.
    apply in_app_or in Hin as [Hin|Hin]; [right | now left].
    destruct (Hsent ltac:(intros Hnil; rewrite Hnil in Hin; contradiction))
      as (_ & Hn & Hf & _).
    eexists. split; [|apply in_or_app; right;
                      exact (filter_repeat_In _ _ _ _ Hf (proj1 Hn))].
    exact Hin.
  - simpl.
    exists (warned ++ t1). split; [reflexivity | now left].
Qed.

(** *** A client whose batches fit its queue *)

(** With no more than [batchSize] events in the queue, [flush] empties
    it. *)
Lemma flush_drains (E : Env) (this : LogSentinelClient) (w : World) (b : Z) :
  batchSize (config this) = Some b ->
  0 < b ->
  Queue.size (logQueue this) <= b ->
  exists tr n m,
    Client.flush E this w
    = (Returns tt,
       Client.with_queue (mkQueue [] (maxSize (logQueue this))) this,
       appended tr n m w)
    /\ Forall (fun ev => exists error, ev = failed_to_send error) (warnings tr)
    /\ (queue (logQueue this) <> [] ->
        (1 <= n <= 3)%nat
        /\ filter is_fetch tr
           = repeat (request (config this)
                       (mkBatch (queue (logQueue this))
                                (generateBatchId E (batches w))
                                (toISOString E (batches w)))) n)
    /\ (succeeds (transport E (fetches w)) = true ->
        delivered tr = queue (logQueue this)
        /\ warnings tr = [] /\ total_delay tr = 0).
Proof.
  intros Hb Hpos Hsize. unfold Queue.size in Hsize.
  destruct (flush_shape E this w) as (tr & n & m & Heq & Hnone & Hsome).
  rewrite Hb in Heq, Hnone, Hsome. simpl Client.number_or_zero in *.
  rewrite firstn_all2 in Hnone, Hsome by lia.
  rewrite skipn_all2 in Heq by lia.
  exists tr, n, m. split; [exact Heq|].
  destruct (queue (logQueue this)) as [|x rest] eqn:Hq.
  - destruct (Hnone eq_refl) as (-> & _ & _).
    split; [constructor|]. split; [now intros []|]. now intros _.
  - destruct (Hsome ltac:(discriminate)) as (_ & Hn & Hf & _ & Hw & Hok).
    split; [exact Hw|]. split; [intros _; now split|].
    intros Hfirst. destruct (Hok Hfirst) as (Hnet & Hnow).
    destruct (network_projections tr) as (_ & Hd & Hl).
    rewrite Hnet in Hd, Hl. simpl in Hd, Hl. rewrite app_nil_r in Hl.
    now repeat split.
Qed.

Lemma not_queue_full (tr : list Event) :
  Forall (fun ev => exists error, ev = failed_to_send error) (warnings tr) ->
  ~ In queue_full tr.
Proof.
  intros Hall Hin.
  assert (Hw : In queue_full (warnings tr)) by (apply filter_In; now split).
  rewrite Forall_forall in Hall. destruct (Hall _ Hw) as (error & Heq).
  unfold queue_full, failed_to_send in Heq. simpl in Heq. discriminate Heq.
Qed.

(** One use of a client with room: the client keeps room, [log] does not
    overflow the queue, and with a transport that lets every request
    through, what is delivered and what is queued is what was queued and
    what was accepted, in that order. *)
Lemma use_roomy (E : Env) (u : Use) (this : LogSentinelClient) (w : World) (b : Z) :
  roomy b this ->
  roomy b (fst (use E u this w))
  /\ config (fst (use E u this w)) = config this
  /\ draws (snd (use E u this w))
     = match u with UseLog _ => S (draws w) | UseTick => draws w end
  /\ exists tr,
       trace (snd (use E u this w)) = trace w ++ tr
       /\ Forall (fun ev => exists error, ev = failed_to_send error) (warnings tr)
       /\ ((forall k, succeeds (transport E k) = true) ->
           delivered tr ++ queue (logQueue (fst (use E u this w)))
           = queue (logQueue this)
             ++ accepted E (sampleRate (config this)) [u] (draws w)
           /\ warnings tr = [] /\ total_delay tr = 0).
Proof.
  intros (Hb & Hcap & Hsize). unfold Queue.size in Hsize.
  assert (Hquiet : forall t, network t = [] -> warnings t = [] ->
                     Forall (fun ev => exists error, ev = failed_to_send error)
                            (warnings t)
                     /\ delivered t = [] /\ total_delay t = 0).
  { intros t Hn Hw. rewrite Hw. split; [constructor|].
    destruct (network_projections t) as (_ & Hd & Hl). now rewrite Hd, Hl, Hn. }
  destruct u as [payload|]; simpl use.
  - destruct (log_shape E payload this w) as (t1 & Hn1 & Hw1 & ->).
    destruct (Hquiet t1 Hn1 Hw1) as (Hall1 & Hl1 & Hd1).
    simpl accepted.
    destruct (Client.gt_opt _ _).
    { simpl. split; [now repeat split|]. split; [reflexivity|].
      split; [reflexivity|]. exists t1. split; [reflexivity|].
      split; [exact Hall1|]. intros _. rewrite Hl1, app_nil_r. now repeat split. }
    set (q1 := mkQueue (queue (logQueue this) ++ [payload]) (maxSize (logQueue this))).
    assert (Henq : Queue.enqueue payload (logQueue this) = (q1, [])).
    { unfold Queue.enqueue, Queue.size.
      destruct (Z.geb_spec (Z.of_nat (List.length (queue (logQueue this))))
                           (maxSize (logQueue this))) as [Hge|_]; [lia | reflexivity]. }
    cbv zeta. rewrite Henq. cbn [fst snd app].
    set (this1 := Client.with_queue q1 this).
    assert (Hlen : Queue.size q1
                   = Z.of_nat (List.length (queue (logQueue this))) + 1).
    { unfold Queue.size. subst q1. simpl. rewrite length_app. simpl. lia. }
    rewrite Hb. unfold Client.ge_opt.
    destruct (Z.geb_spec (Queue.size q1) b) as [Hfull|Hroom].
    + destruct (flush_drains E this1 (appended t1 0 0 (drawn w)) b Hb
                  ltac:(lia) ltac:(subst this1; simpl; lia))
        as (tr & n & m & -> & Hall & _ & Hok).
      cbn [fst snd]. rewrite appended_appended.
      split; [split; [exact Hb|]; split; [exact Hcap | unfold Queue.size; simpl; lia]|].
      split; [reflexivity|]. split; [reflexivity|].
      exists (t1 ++ tr). split; [reflexivity|].
      split; [rewrite warnings_app, Hw1; exact Hall|].
      intros Hhealthy. destruct (Hok (Hhealthy _)) as (Hl & Hw & Hd).
      rewrite delivered_app, warnings_app, total_delay_app, Hl1, Hw1, Hd1, Hl, Hw, Hd.
      simpl. now rewrite app_nil_r.
    + cbn [fst snd].
      split; [split; [exact Hb|]; split; [exact Hcap | subst this1; simpl; lia]|].
      split; [reflexivity|]. split; [reflexivity|].
      exists t1. split; [reflexivity|]. split; [exact Hall1|].
      intros _. now rewrite Hl1.
  - unfold Client.tick. simpl accepted. rewrite app_nil_r.
    assert (Hidle : roomy b this /\ config this = config this
                    /\ draws w = draws w
                    /\ exists tr,
                         trace w = trace w ++ tr
                         /\ Forall (fun ev => exists error, ev = failed_to_send error)
                                   (warnings tr)
                         /\ ((forall k, succeeds (transport E k) = true) ->
                             delivered tr ++ queue (logQueue this)
                             = queue (logQueue this)
                             /\ warnings tr = [] /\ total_delay tr = 0)).
    { split; [now repeat split|]. split; [reflexivity|]. split; [reflexivity|].
      exists []. rewrite app_nil_r. split; [reflexivity|].
      split; [constructor | now intros _]. }
    destruct (flushTimer this) as [id|]; [|exact Hidle].
    destruct (existsb (Nat.eqb id) (intervals w)); [|exact Hidle].
    destruct (flush_drains E this w b Hb ltac:(lia) ltac:(unfold Queue.size; lia))
      as (tr & n & m & -> & Hall & _ & Hok).
    cbn [fst snd].
    split; [split; [exact Hb|]; split; [exact Hcap | unfold Queue.size; simpl; lia]|].
    split; [reflexivity|]. split; [reflexivity|].
    exists tr. split; [reflexivity|]. split; [exact Hall|].
    intros Hhealthy. destruct (Hok (Hhealthy _)) as (Hl & Hw & Hd).
    rewrite Hl. simpl. now rewrite app_nil_r.
Qed.

Lemma use_each_cons (E : Env) (u : Use) (us : list Use)
  (this : LogSentinelClient) (w : World) :
  use_each E (u :: us) this w
  = use_each E us (fst (use E u this w)) (snd (use E u this w)).
Proof. unfold use_each. simpl. now destruct (use E u this w). Qed.

Lemma accepted_cons (E : Env) (rate : option QArith_base.Q) (u : Use)
  (us : list Use) (k : nat) :
  accepted E rate (u :: us) k
  = accepted E rate [u] k
    ++ accepted E rate us (match u with UseLog _ => S k | UseTick => k end).
Proof. destruct u; simpl; [|reflexivity]. now destruct (Client.gt_opt _ _). Qed.

Lemma use_each_roomy (E : Env) (b : Z) (us : list Use) :
  forall this w,
  roomy b this ->
  roomy b (fst (use_each E us this w))
  /\ config (fst (use_each E us this w)) = config this
  /\ exists tr,
       trace (snd (use_each E us this w)) = trace w ++ tr
       /\ Forall (fun ev => exists error, ev = failed_to_send error) (warnings tr)
       /\ ((forall k, succeeds (transport E k) = true) ->
           delivered tr ++ queue (logQueue (fst (use_each E us this w)))
           = queue (logQueue this)
             ++ accepted E (sampleRate (config this)) us (draws w)
           /\ warnings tr = [] /\ total_delay tr = 0).
Proof.
  induction us as [|u us IH]; intros this w Hroomy.
  { simpl. split; [exact Hroomy|]. split; [reflexivity|].
    exists []. rewrite !app_nil_r. split; [reflexivity|].
    split; [constructor | now intros _]. }
  rewrite use_each_cons, accepted_cons.
  destruct (use_roomy E u this w b Hroomy)
    as (Hroomy1 & Hc1 & Hdraws & t1 & Ht1 & Hall1 & Hok1).
  destruct (IH (fst (use E u this w)) (snd (use E u this w)) Hroomy1)
    as (Hroomy2 & Hc2 & t2 & Ht2 & Hall2 & Hok2).
  split; [exact Hroomy2|]. split; [congruence|].
  exists (t1 ++ t2). split; [now rewrite Ht2, Ht1, app_assoc|].
  split; [rewrite warnings_app; apply Forall_app; now split|].
  intros Hhealthy.
  destruct (Hok1 Hhealthy) as (Hl1 & Hw1 & Hd1).
  destruct (Hok2 Hhealthy) as (Hl2 & Hw2 & Hd2).
  rewrite delivered_app, warnings_app, total_delay_app, Hw1, Hw2, Hd1, Hd2.
  split; [|now split].
  rewrite <- app_assoc, Hl2, Hc1, Hdraws, !app_assoc, Hl1. reflexivity.
Qed.

(** A new client has room when its [batchSize] is positive and within the
    capacity of its queue. *)
Lemma new_roomy (cfg : LogSentinelConfig) (w : World) (b : Z) :
  batchSize cfg = Some b ->
  0 < b <= Queue.maxSize_or_default (maxQueueSize cfg) ->
  roomy b (fst (Client.new cfg w))
  /\ config (fst (Client.new cfg w)) = cfg
  /\ queue (logQueue (fst (Client.new cfg w))) = []
  /\ draws (snd (Client.new cfg w)) = draws w.
Proof.
  intros Hb Hcap. unfold Client.new, Client.startBatchFlusher. simpl.
  split; [split; [exact Hb|]; split; [exact Hcap | unfold Queue.size; simpl; lia]|].
  split; [reflexivity|]. split; [reflexivity|].
  now destruct (debug_log_silent cfg "Client initialized" w) as (tr & -> & _).
Qed.

(** X11.  With a [batchSize] that is positive and no greater than the
    capacity of the queue, as with the defaults 10 and 1000, the queue of
    a client never overflows, whatever the transport does: after any
    sequence of [log] calls and timer firings on a new client, the queue
    holds fewer than [batchSize] events, and the warning [Queue full.
    Dropping oldest log.] was never written.  (A batch whose requests all
    fail is dropped by [flush], not put back.) *)
Theorem queue_never_overflows
  (E : Env) (cfg : LogSentinelConfig) (b : Z) (us : list Use) (w0 : World) :
  batchSize cfg = Some b ->
  0 < b <= Queue.maxSize_or_default (maxQueueSize cfg) ->
  let started := Client.new cfg w0 in
  let used := use_each E us (fst started) (snd started) in
  Queue.size (logQueue (fst used)) < b
  /\ config (fst used) = cfg
  /\ exists tr,
       trace (snd used) = trace (snd started) ++ tr
       /\ ~ In queue_full tr.
Proof.
  intros Hb Hcap started used.
  destruct (new_roomy cfg w0 b Hb Hcap) as (Hroomy & Hc & _).
  destruct (use_each_roomy E b us (fst started) (snd started) Hroomy)
    as ((_ & _ & Hsize) & Hc' & tr & Htr & Hall & _).
  split; [exact Hsize|]. split; [now transitivity (config (fst started))|].
  exists tr. split; [exact Htr | now apply not_queue_full].
Qed.

Lemma queue_never_overflows_witness :
  Queue.size
    (logQueue
       (fst (use_each Sample.unavailable
               [UseLog (Sample.event "a"); UseTick; UseLog (Sample.event "b")]
               (fst (Client.new Sample.settings Sample.idle))
               (snd (Client.new Sample.settings Sample.idle)))))
  < 10.
Proof.
  exact (proj1 (queue_never_overflows Sample.unavailable Sample.settings 10
                  [UseLog (Sample.event "a"); UseTick; UseLog (Sample.event "b")]
                  Sample.idle eq_refl ltac:(simpl; lia))).
Defined.

(** X12.  With a transport that lets every request through, and a
    [batchSize] that is positive and no greater than the capacity of the
    queue, nothing is lost, doubled or reordered: after any sequence of
    [log] calls and timer firings on a new client, the events the
    requests carried, in the order of the requests, followed by the events
    still queued, are exactly the events that sampling accepted, in the
    order they were logged; no warning was written and nothing was waited
    for. *)
Theorem healthy_pipeline_in_order
  (E : Env) (cfg : LogSentinelConfig) (b : Z) (us : list Use) (w0 : World) :
  (forall k, succeeds (transport E k) = true) ->
  batchSize cfg = Some b ->
  0 < b <= Queue.maxSize_or_default (maxQueueSize cfg) ->
  let started := Client.new cfg w0 in
  let used := use_each E us (fst started) (snd started) in
  exists tr,
    trace (snd used) = trace (snd started) ++ tr
    /\ delivered tr ++ queue (logQueue (fst used))
       = accepted E (sampleRate cfg) us (draws w0)
    /\ warnings tr = []
    /\ total_delay tr = 0.
Proof.
  intros Hhealthy Hb Hcap started used.
  destruct (new_roomy cfg w0 b Hb Hcap) as (Hroomy & Hc & Hq & Hdraws).
  destruct (use_each_roomy E b us (fst started) (snd started) Hroomy)
    as (_ & _ & tr & Htr & _ & Hok).
  destruct (Hok Hhealthy) as (Hl & Hw & Hd).
  exists tr. split; [exact Htr|]. split; [|now split].
  fold used in Hl. rewrite Hl. subst started. rewrite Hq, Hc, Hdraws. reflexivity.
Qed.

Lemma healthy_pipeline_in_order_witness :
  (List.length
     (queue
        (logQueue
           (fst (use_each Sample.healthy
                   [UseLog (Sample.event "a"); UseLog (Sample.event "b")]
                   (fst (Client.new Sample.settings Sample.idle))
                   (snd (Client.new Sample.settings Sample.idle)))))) <= 2)%nat.
Proof.
  destruct (healthy_pipeline_in_order Sample.healthy Sample.settings 10
              [UseLog (Sample.event "a"); UseLog (Sample.event "b")]
              Sample.idle ltac:(reflexivity) eq_refl ltac:(simpl; lia))
    as (tr & _ & Hl & _).
  apply (f_equal (@List.length LogPayload)) in Hl.
  rewrite length_app in Hl.
  change (List.length (accepted _ _ _ _)) with 2%nat in Hl. lia.
Defined.

(** *** [destroy] *)

Lemma cleared_interval (id : nat) (l : list nat) :
  ~ In id (filter (fun i => negb (Nat.eqb i id)) l)
  /\ existsb (Nat.eqb id) (filter (fun i => negb (Nat.eqb i id)) l) = false.
Proof.
  assert (Hnot : ~ In id (filter (fun i => negb (Nat.eqb i id)) l)).
  { intros Hin. apply filter_In in Hin as (_ & Hne).
    now rewrite Nat.eqb_refl in Hne. }
  split; [exact Hnot|].
  destruct (existsb _ _) eqn:Hex; [|reflexivity].
  apply existsb_exists in Hex as (x & Hin & Heq).
  apply Nat.eqb_eq in Heq. now subst x.
Qed.

(** X13.  [destroy] stops the timer and runs [flush] once, so it sends
    one batch and no more: the oldest [batchSize] events leave the queue
    in at most three requests, all for that batch, and the promise
    resolves whatever the transport does.  A queue of no more than
    [batchSize] events is left empty; of a longer queue the rest stays
    behind, and no timer is left to send it: a firing that was still
    pending does nothing. *)
Theorem destroy_sends_one_batch
  (E : Env) (this : LogSentinelClient) (w : World) (b : Z) (id : nat) :
  batchSize (config this) = Some b ->
  0 < b ->
  flushTimer this = Some id ->
  let r := fst (fst (Client.destroy E this w)) in
  let this' := snd (fst (Client.destroy E this w)) in
  let w' := snd (Client.destroy E this w) in
  r = Returns tt
  /\ queue (logQueue this') = skipn (Z.to_nat b) (queue (logQueue this))
  /\ (Queue.size (logQueue this) <= b -> queue (logQueue this') = [])
  /\ ~ In id (intervals w')
  /\ Client.tick E this' w' = (this', w')
  /\ exists tr n,
       trace w' = trace w ++ ClearInterval id :: tr
       /\ (n <= 3)%nat
       /\ (queue (logQueue this) <> [] -> (1 <= n)%nat)
       /\ filter is_fetch tr
          = repeat (request (config this)
                      (mkBatch (firstn (Z.to_nat b) (queue (logQueue this)))
                               (generateBatchId E (batches w))
                               (toISOString E (batches w)))) n.
Proof.
  intros Hb Hpos Hid. unfold Client.destroy. rewrite Hid.
  destruct (flush_shape E this (Client.clearInterval id w))
    as (tr & n & m & -> & Hnone & Hsome).
  rewrite Hb in *. simpl Client.number_or_zero in *. cbv zeta. cbn [fst snd].
  destruct (cleared_interval id (intervals w)) as (Hnot & Hex).
  split; [reflexivity|]. split; [reflexivity|].
  split; [intros Hsize; unfold Queue.size in Hsize; simpl; apply skipn_all2; lia|].
  split; [exact Hnot|].
  split.
  { unfold Client.tick. cbn [Client.with_queue flushTimer]. rewrite Hid.
    cbn [intervals appended Client.clearInterval]. now rewrite Hex. }
  exists tr, n. split; [simpl; now rewrite <- app_assoc|].
  destruct (firstn (Z.to_nat b) (queue (logQueue this))) as [|x rest] eqn:Ht.
  - destruct (Hnone eq_refl) as (-> & -> & _).
    split; [lia|]. split; [|reflexivity].
    intros Hne. destruct (queue (logQueue this)) as [|y l]; [contradiction|].
    destruct (Z.to_nat b) eqn:Hnb; [lia | discriminate].
  - destruct (Hsome ltac:(discriminate)) as (_ & Hn & Hf & _).
    split; [lia|]. split; [intros _; lia | exact Hf].
Qed.

Lemma destroy_sends_one_batch_witness :
  let this := mkClient Sample.settings
                (mkQueue [Sample.event "a"; Sample.event "b"] 1000) (Some 0%nat) in
  let w := mkWorld 0 0 0 1 [0%nat] [] in
  queue (logQueue (snd (fst (Client.destroy Sample.unavailable this w)))) = []
  /\ Client.tick Sample.unavailable
       (snd (fst (Client.destroy Sample.unavailable this w)))
       (snd (Client.destroy Sample.unavailable this w))
     = (snd (fst (Client.destroy Sample.unavailable this w)),
        snd (Client.destroy Sample.unavailable this w)).
Proof.
  intros this w.
  destruct (destroy_sends_one_batch Sample.unavailable this w 10 0
              eq_refl ltac:(lia) eq_refl)
    as (_ & _ & Hempty & _ & Htick & _).
  split; [apply Hempty; unfold Queue.size; simpl; lia | exact Htick].
Defined.

(** *** A client without a batch size *)

(** [splice(0, n)] with [n] undefined, zero or negative takes nothing. *)
Lemma flush_unbatched (E : Env) (this : LogSentinelClient) (w : World) :
  Client.number_or_zero (batchSize (config this)) <= 0 ->
  Client.flush E this w = (Returns tt, this, w).
Proof.
  intros Hb. unfold Client.flush, Queue.dequeue.
  destruct (Queue.isEmpty (logQueue this)); [reflexivity|].
  replace (Z.to_nat (Client.number_or_zero (batchSize (config this)))) with O by lia.
  simpl. now destruct this as [c [q mx] f].
Qed.

Lemma use_unbatched (E : Env) (u : Use) (this : LogSentinelClient) (w : World) :
  Client.number_or_zero (batchSize (config this)) <= 0 ->
  config (fst (use E u this w)) = config this
  /\ logQueue (fst (use E u this w))
     = Queue.enqueue_all (accepted E (sampleRate (config this)) [u] (draws w))
                         (logQueue this)
  /\ draws (snd (use E u this w))
     = match u with UseLog _ => S (draws w) | UseTick => draws w end
  /\ fetches (snd (use E u this w)) = fetches w
  /\ exists tr, trace (snd (use E u this w)) = trace w ++ tr /\ network tr = [].
Proof.
  intros Hb. destruct u as [payload|]; simpl use; simpl accepted.
  - destruct (log_shape E payload this w) as (t1 & Hn1 & Hw1 & ->).
    destruct (Client.gt_opt _ _).
    { simpl. repeat (split; trivial). now exists t1. }
    cbv zeta. rewrite flush_unbatched by exact Hb. cbn [fst snd].
    assert (Hnet : network (snd (Queue.enqueue payload (logQueue this)) ++ t1) = []).
    { rewrite network_app, Hn1, enqueue_warned.
      now destruct (Queue.size (logQueue this) >=? maxSize (logQueue this)). }
    destruct (Client.ge_opt _ _); simpl; repeat (split; trivial); eexists; eauto.
  - unfold Client.tick.
    assert (Hidle : config this = config this
                    /\ logQueue this = logQueue this
                    /\ draws w = draws w /\ fetches w = fetches w
                    /\ exists tr, trace w = trace w ++ tr /\ network tr = []).
    { repeat (split; trivial). exists []. now rewrite app_nil_r. }
    destruct (flushTimer this) as [id|]; [|exact Hidle].
    destruct (existsb (Nat.eqb id) (intervals w)); [|exact Hidle].
    now rewrite flush_unbatched by exact Hb.
Qed.

(** X14.  A client made from a configuration whose [batchSize] is
    undefined, zero or negative never sends anything: whatever is logged
    and however often the timer fires, no request is issued, [flush] and
    [destroy] leave the queue as it is, and the accepted events only go
    through the queue, which drops the oldest when it is full. *)
Theorem no_batch_size_nothing_sent
  (E : Env) (cfg : LogSentinelConfig) (us : list Use) (w0 : World) :
  Client.number_or_zero (batchSize cfg) <= 0 ->
  let started := Client.new cfg w0 in
  let used := use_each E us (fst started) (snd started) in
  logQueue (fst used)
  = Queue.enqueue_all (accepted E (sampleRate cfg) us (draws w0))
                      (Queue.new (maxQueueSize cfg))
  /\ fetches (snd used) = fetches w0
  /\ (exists tr, trace (snd used) = trace (snd started) ++ tr /\ network tr = [])
  /\ logQueue (snd (fst (Client.destroy E (fst used) (snd used))))
     = logQueue (fst used)
  /\ fetches (snd (Client.destroy E (fst used) (snd used))) = fetches w0.
Proof.
  intros Hb started used.
  assert (Hall : forall us this w,
            Client.number_or_zero (batchSize (config this)) <= 0 ->
            config (fst (use_each E us this w)) = config this
            /\ logQueue (fst (use_each E us this w))
               = Queue.enqueue_all
                   (accepted E (sampleRate (config this)) us (draws w))
                   (logQueue this)
            /\ fetches (snd (use_each E us this w)) = fetches w
            /\ exists tr, trace (snd (use_each E us this w)) = trace w ++ tr
                          /\ network tr = []).
  { clear. induction us as [|u us IH]; intros this w Hb.
    { simpl. repeat (split; trivial). exists []. now rewrite app_nil_r. }
    rewrite use_each_cons, accepted_cons.
    destruct (use_unbatched E u this w Hb) as (Hc1 & Hq1 & Hd1 & Hf1 & t1 & Ht1 & Hn1).
    destruct (IH (fst (use E u this w)) (snd (use E u this w))
                ltac:(now rewrite Hc1)) as (Hc2 & Hq2 & Hf2 & t2 & Ht2 & Hn2).
    split; [congruence|].
    split; [rewrite Hq2, Hq1, Hc1, Hd1; unfold Queue.enqueue_all;
            now rewrite fold_left_app|].
    split; [congruence|].
    exists (t1 ++ t2). split; [now rewrite Ht2, Ht1, app_assoc|].
    now rewrite network_app, Hn1, Hn2. }
  assert (Hnew : config (fst started) = cfg
                 /\ logQueue (fst started) = Queue.new (maxQueueSize cfg)
                 /\ draws (snd started) = draws w0
                 /\ fetches (snd started) = fetches w0).
  { subst started. unfold Client.new, Client.startBatchFlusher. simpl.
    repeat split;
      now destruct (debug_log_silent cfg "Client initialized" w0) as (tr & -> & _). }
  destruct Hnew as (Hc0 & Hq0 & Hd0 & Hf0).
  destruct (Hall us (fst started) (snd started) ltac:(now rewrite Hc0))
    as (Hc & Hq & Hf & tr & Htr & Hn).
  fold used in Hc, Hq, Hf, Htr.
  split; [now rewrite Hq, Hc0, Hq0, Hd0|]. split; [congruence|].
  split; [now exists tr|].
  unfold Client.destroy.
  rewrite flush_unbatched by (rewrite Hc, Hc0; exact Hb). cbn [fst snd].
  split; [reflexivity|].
  destruct (flushTimer (fst used)); simpl; congruence.
Qed.

Lemma no_batch_size_nothing_sent_witness :
  fetches
    (snd (use_each Sample.healthy
            [UseLog (Sample.event "a"); UseTick]
            (fst (Client.new (mkConfig "key" "https://logs.example.com"
                                None None None None None None None) Sample.idle))
            (snd (Client.new (mkConfig "key" "https://logs.example.com"
                                None None None None None None None) Sample.idle))))
  = 0%nat.
Proof.
  exact (proj1 (proj2 (no_batch_size_nothing_sent Sample.healthy
                         (mkConfig "key" "https://logs.example.com"
                                   None None None None None None None)
                         [UseLog (Sample.event "a"); UseTick] Sample.idle
                         ltac:(simpl; lia)))).
Defined.

(** * The configuration *)

Lemma missing_or_else (a b : option string) :
  missing (or_else a b) = missing a && missing b.
Proof. destruct a as [[|c s]|]; destruct b as [[|c' s']|]; reflexivity. Qed.

Lemma or_else_server (a b : option string) :
  or_else a b = if missing a then b else a.
Proof. now destruct a as [[|c s]|]. Qed.

(** X15.  [getConfig] returns [null] exactly when the API key or the base
    URL is missing, a variable set to the empty text counting as not set
    and the [NEXT_PUBLIC_] variable standing in for a server one that is
    missing; it then writes one warning and nothing else.  A configuration
    it returns carries the server variable when there is one and the
    public one otherwise, neither empty, is enabled, and has every
    optional property defined. *)
Theorem getConfig_needs_key_and_url (N : Numbers) (env : ProcessEnv) (w : World) :
  let loaded := fst (getConfig N env w) in
  let w' := snd (getConfig N env w) in
  (loaded = Disabled
   <-> missing (env "LOGSENTINEL_API_KEY")
       && missing (env "NEXT_PUBLIC_LOGSENTINEL_API_KEY")
       || missing (env "LOGSENTINEL_BASE_URL")
          && missing (env "NEXT_PUBLIC_LOGSENTINEL_BASE_URL") = true)
  /\ (loaded = Disabled ->
      exists text, trace w' = trace w ++ [ConsoleWarn text])
  /\ (loaded <> Disabled ->
      exists tr, trace w' = trace w ++ tr /\ warnings tr = [])
  /\ (forall cfg capture,
        loaded = Enabled cfg capture ->
        Some (apiKey cfg)
        = (if missing (env "LOGSENTINEL_API_KEY")
           then env "NEXT_PUBLIC_LOGSENTINEL_API_KEY"
           else env "LOGSENTINEL_API_KEY")
        /\ Some (baseUrl cfg)
           = (if missing (env "LOGSENTINEL_BASE_URL")
              then env "NEXT_PUBLIC_LOGSENTINEL_BASE_URL"
              else env "LOGSENTINEL_BASE_URL")
        /\ apiKey cfg <> "" /\ baseUrl cfg <> ""
        /\ enabled cfg = Some true
        /\ sampleRate cfg <> None /\ batchSize cfg <> None
        /\ batchInterval cfg <> None /\ maxQueueSize cfg <> None
        /\ timeout cfg <> None /\ debug cfg <> None).
Proof.
  cbv zeta. unfold getConfig.
  rewrite <- !missing_or_else, <- !or_else_server.
  destruct (or_else (env "LOGSENTINEL_API_KEY")
                    (env "NEXT_PUBLIC_LOGSENTINEL_API_KEY")) as [[|a0 a]|];
    destruct (or_else (env "LOGSENTINEL_BASE_URL")
                      (env "NEXT_PUBLIC_LOGSENTINEL_BASE_URL")) as [[|b0 b]|];
    cbn [missing fst snd orb].
  5: { set (dbg := is_true (env "LOGSENTINEL_DEBUG")
                   || is_true (env "NEXT_PUBLIC_LOGSENTINEL_DEBUG")).
       set (w1 := if dbg then _ else w).
       assert (Hw1 : exists tr, trace w1 = trace w ++ tr /\ warnings tr = []).
       { subst w1. destruct dbg.
         - eexists. split; [reflexivity | reflexivity].
         - exists []. now rewrite app_nil_r. }
       repeat match goal with
              | |- context [match parseFloat N ?t with _ => _ end] =>
                  destruct (parseFloat N t)
              | |- context [match parseInt N ?t with _ => _ end] =>
                  destruct (parseInt N t)
              end; cbn [fst snd].
       all: split; [split; discriminate|].
       all: split; [discriminate|].
       all: split; [intros _; exact Hw1|].
       all: intros cfg capture Heq; try discriminate Heq.
       injection Heq as <- <-. cbn. repeat split; discriminate. }
  all: split; [split; reflexivity|].
  all: split; [intros _; eexists; reflexivity|].
  all: split; [intros Hne; now contradiction Hne|].
  all: intros cfg capture Heq; discriminate Heq.
Qed.

(** What [getConfig] makes of the two sizes. *)
Lemma getConfig_sizes (N : Numbers) (env : ProcessEnv) (w : World)
  (cfg : LogSentinelConfig) (capture : bool) :
  fst (getConfig N env w) = Enabled cfg capture ->
  batchSize cfg = parseInt N (text_or (env "LOGSENTINEL_BATCH_SIZE") "10")
  /\ maxQueueSize cfg
     = parseInt N (text_or (env "LOGSENTINEL_MAX_QUEUE_SIZE") "1000")
  /\ batchInterval cfg
     = parseInt N (text_or (env "LOGSENTINEL_BATCH_INTERVAL") "5000")
  /\ timeout cfg = parseInt N (text_or (env "LOGSENTINEL_TIMEOUT") "5000")
  /\ sampleRate cfg
     = parseFloat N (text_or (env "LOGSENTINEL_SAMPLE_RATE") "1.0").
Proof.
  unfold getConfig.
  destruct (or_else (env "LOGSENTINEL_API_KEY") _) as [[|a0 a]|];
    try (intros Heq; discriminate Heq).
  all: destruct (or_else (env "LOGSENTINEL_BASE_URL") _) as [[|b0 b]|];
    try (intros Heq; discriminate Heq).
  repeat match goal with
         | |- context [match parseFloat N ?t with _ => _ end] =>
             destruct (parseFloat N t)
         | |- context [match parseInt N ?t with _ => _ end] =>
             destruct (parseInt N t)
         end; cbn [fst]; intros Heq; try discriminate Heq.
  injection Heq as <- <-. now repeat split.
Qed.

(** X16.  The sizes of the environment reach the client, and the defaults
    stand in for a variable that is not set or is empty: when
    [LOGSENTINEL_BATCH_SIZE] (or its default [10]) parses to [b] and
    [LOGSENTINEL_MAX_QUEUE_SIZE] (or its default [1000]) to [m], the
    configuration [getConfig] returns has [batchSize = b] and
    [maxQueueSize = m]; and when [0 < b <= m], as with the defaults, the
    queue of a client made from that configuration never overflows,
    whatever is logged and whatever the transport does. *)
Theorem getConfig_client_has_room
  (N : Numbers) (env : ProcessEnv) (w : World)
  (cfg : LogSentinelConfig) (capture : bool) (b m : Z)
  (E : Env) (us : list Use) (w0 : World) :
  fst (getConfig N env w) = Enabled cfg capture ->
  parseInt N (text_or (env "LOGSENTINEL_BATCH_SIZE") "10") = Some b ->
  parseInt N (text_or (env "LOGSENTINEL_MAX_QUEUE_SIZE") "1000") = Some m ->
  0 < b <= m ->
  let started := Client.new cfg w0 in
  let used := use_each E us (fst started) (snd started) in
  batchSize cfg = Some b
  /\ maxQueueSize cfg = Some m
  /\ Queue.size (logQueue (fst used)) < b
  /\ exists tr,
       trace (snd used) = trace (snd started) ++ tr
       /\ ~ In queue_full tr.
Proof.
  intros Hcfg Hb Hm Hcap started used.
  destruct (getConfig_sizes N env w cfg capture Hcfg) as (Hsize & Hroom & _).
  rewrite Hb in Hsize. rewrite Hm in Hroom.
  split; [exact Hsize|]. split; [exact Hroom|].
  destruct (new_roomy cfg w0 b Hsize ltac:(rewrite Hroom; exact Hcap))
    as (Hroomy & _).
  destruct (use_each_roomy E b us (fst started) (snd started) Hroomy)
    as ((_ & _ & Hlt) & _ & tr & Htr & Hall & _).
  split; [exact Hlt|].
  exists tr. split; [exact Htr | now apply not_queue_full].
Qed.

Lemma getConfig_client_has_room_witness :
  let cfg := mkConfig "key" "https://logs.example.com" (Some true)
                      (Some (QArith_base.Qmake 10 10)) (Some 10) (Some 5000)
                      (Some 1000) (Some 5000) (Some false) in
  fst (getConfig RefNumbers.numbers
         (minimal_env "key" "https://logs.example.com") Sample.idle)
  = Enabled cfg false
  /\ Queue.size
       (logQueue
          (fst (use_each Sample.unavailable [UseLog (Sample.event "a")]
                  (fst (Client.new cfg Sample.idle))
                  (snd (Client.new cfg Sample.idle)))))
     < 10.
Proof.
  intros cfg. split; [reflexivity|].
  destruct (getConfig_client_has_room RefNumbers.numbers
              (minimal_env "key" "https://logs.example.com") Sample.idle
              cfg false 10 1000
              Sample.unavailable [UseLog (Sample.event "a")] Sample.idle
              eq_refl eq_refl eq_refl ltac:(lia))
    as (_ & _ & Hsize & _).
  exact Hsize.
Defined.

(** X17.  The configuration is read once a process: of any number of
    [getCachedConfig] calls, only the first looks at the environment;
    every call returns what the first returned, [null] included, and the
    world is as the first call left it, so the warning about missing
    variables is written once.  After [resetConfig] the next call reads
    the environment again. *)
Theorem config_read_once
  (N : Numbers) (env : ProcessEnv) (envs : list ProcessEnv) (w : World) :
  getCachedConfig_each N (env :: envs) None w
  = (repeat (fst (getConfig N env w)) (S (List.length envs)),
     Some (fst (getConfig N env w)),
     snd (getConfig N env w))
  /\ forall cached env' w',
       getCachedConfig N env' (resetConfig cached) w'
       = (fst (getConfig N env' w'), Some (fst (getConfig N env' w')),
          snd (getConfig N env' w')).
Proof.
  assert (Hcached : forall envs loaded w,
            getCachedConfig_each N envs (Some loaded) w
            = (repeat loaded (List.length envs), Some loaded, w)).
  { clear. induction envs as [|env envs IH]; intros loaded w; [reflexivity|].
    simpl. now rewrite IH. }
  split.
  - simpl. destruct (getConfig N env w) as [loaded w1]. simpl.
    now rewrite Hcached.
  - intros cached env' w'. unfold resetConfig, getCachedConfig.
    now destruct (getConfig N env' w').
Qed.
